(** * cancel: a one-shot cancellation signal (GoAethereal/cancel, cancel.go)

    A shallow embedding of [cancel.go].  The Go heap is a record of growing
    lists (a pointer is an index), the goroutines started by [go func() {...}]
    are continuations kept in a pool, and a run of the program is a list of
    scheduler actions.  A panic of the Go runtime is the result [None].

    The primitives of the Go runtime that the file uses are modelled by their
    documented behaviour:
    - [chan struct{}] on which nobody sends: a receive is ready exactly when
      the channel is closed; a receive on the nil channel blocks forever;
      [close] of the nil channel or of a closed channel panics;
    - [sync.Once]: a flag, [Do f] runs [f] when the flag is unset and sets it,
      all of it atomically with respect to other callers;
    - [select] with two receive cases: the channel operands are evaluated in
      source order on entry, then one ready case is chosen (any of them when
      both are ready), and the goroutine blocks while none is;
    - [time.After d]: a timer armed at [when d], ready once the clock reached it;
    - [context.WithCancel (context.Background ())]: a context whose Done
      channel is closed by the first call of its cancel function.  The model
      gives the context its channel when it is created; the library makes it
      at the first [Done()], and a context cancelled before that gets one
      closed channel that such contexts share.  A standard context is
      observed below only through whether a receive on its [Done()] is
      ready, which is the same in both; which channel a context has, and how
      many channels the contexts have between them, is the model's own. *)

From Stdlib Require Import ZArith Lia.
From stdpp Require Import base tactics option list.

(** ** Data *)

(** A channel event of the runtime: [make(chan struct{})] and [close(ch)]. *)
Inductive Event :=
  | EvMake (c : nat)
  | EvClose (c : nat).

(** [type Signal struct { done chan struct{}; make sync.Once; close sync.Once }];
    [done = None] is the nil channel, a [sync.Once] is its flag. *)
Record Signal := mkSignal {
  done : option nat;
  make : bool;
  close : bool }.

(** The context made by [context.WithCancel]: its Done channel and whether its
    cancel function ran. *)
Record cancelCtx := mkCancelCtx {
  cdone : nat;
  cerr : bool }.

(** The values of interface type [Context] that the program handles: a
    [*Signal], a standard context (the one [Promote] returns, or one a client
    made with [context.WithCancel]), and [context.Background ()], whose
    [Done ()] is the nil channel. *)
Inductive Context :=
  | CtxSignal (s : nat)
  | CtxStd (k : nat)
  | CtxBackground.

Record Heap := mkHeap {
  chans : list bool;        (* channel id -> closed? *)
  sigs : list Signal;       (* *Signal -> Signal *)
  ctxs : list cancelCtx;
  now : Z;                  (* monotonic clock, nanoseconds *)
  log : list Event }.       (* channel events, latest first *)

Definition set_chans (f : list bool → list bool) (h : Heap) : Heap :=
  mkHeap (f (chans h)) (sigs h) (ctxs h) (now h) (log h).
Definition set_sigs (f : list Signal → list Signal) (h : Heap) : Heap :=
  mkHeap (chans h) (f (sigs h)) (ctxs h) (now h) (log h).
Definition set_ctxs (f : list cancelCtx → list cancelCtx) (h : Heap) : Heap :=
  mkHeap (chans h) (sigs h) (f (ctxs h)) (now h) (log h).
Definition set_now (t : Z) (h : Heap) : Heap :=
  mkHeap (chans h) (sigs h) (ctxs h) t (log h).
Definition add_log (e : Event) (h : Heap) : Heap :=
  mkHeap (chans h) (sigs h) (ctxs h) (now h) (e :: log h).

Definition empty_heap : Heap := mkHeap [] [] [] 0%Z [].

(** ** Channels *)

(** [make(chan struct{})] *)
Definition chan_make (h : Heap) : Heap * nat :=
  let c := length (chans h) in
  (add_log (EvMake c) (set_chans (λ l, l ++ [false]) h), c).

(** [close(ch)] *)
Definition chan_close (ch : option nat) (h : Heap) : option Heap :=
  match ch with
  | None => None
  | Some c =>
      match chans h !! c with
      | Some false => Some (add_log (EvClose c) (set_chans (λ l, <[c:=true]> l) h))
      | _ => None
      end
  end.

(** Whether [<-ch] can proceed. *)
Definition chan_ready (ch : option nat) (h : Heap) : bool :=
  match ch with
  | None => false
  | Some c => bool_decide (chans h !! c = Some true)
  end.

(** ** Time *)

Definition maxInt64 : Z := (2 ^ 63 - 1)%Z.
Definition minDuration : Z := (- 2 ^ 63)%Z.
Definition maxDuration : Z := maxInt64.

(** [t.Sub(u)]: the difference as a [Duration], saturated at its bounds. *)
Definition time_Sub (t u : Z) : Z :=
  if (t - u <? minDuration)%Z then minDuration
  else if (maxDuration <? t - u)%Z then maxDuration
  else (t - u)%Z.

(** [time.Until(t)] is [t.Sub(time.Now())]. *)
Definition time_Until (t : Z) (h : Heap) : Z := time_Sub t (now h).

(** The runtime's [when d]: the clock value at which a timer of duration [d]
    fires. *)
Definition when (d : Z) (h : Heap) : Z :=
  if (d <=? 0)%Z then now h
  else if (maxInt64 <? now h + d)%Z then maxInt64
  else (now h + d)%Z.

Definition timer_ready (fire : Z) (h : Heap) : bool := (fire <=? now h)%Z.

(** ** Signal *)

(** [func (sig *Signal) init()] *)
Definition init (s : nat) (h : Heap) : option Heap :=
  sg ← sigs h !! s;
  if make sg then Some h
  else
    let '(h1, c) := chan_make h in
    Some (set_sigs (λ l, <[s := mkSignal (Some c) true (close sg)]> l) h1).

(** [func New() *Signal] *)
Definition New (h : Heap) : option (Heap * nat) :=
  let s := length (sigs h) in
  h1 ← init s (set_sigs (λ l, l ++ [mkSignal None false false]) h);
  Some (h1, s).

(** [&Signal{}]: a zero-value signal. *)
Definition Zero (h : Heap) : Heap * nat :=
  (set_sigs (λ l, l ++ [mkSignal None false false]) h, length (sigs h)).

(** [func (sig *Signal) Done() <-chan struct{}] *)
Definition Done (s : nat) (h : Heap) : option (Heap * option nat) :=
  h1 ← init s h;
  sg ← sigs h1 !! s;
  Some (h1, done sg).

(** [sig.close.Do(func() { close(sig.done) })] *)
Definition close_Do (s : nat) (h : Heap) : option Heap :=
  sg ← sigs h !! s;
  if close sg then Some h
  else
    h1 ← chan_close (done sg) h;
    Some (set_sigs (λ l, <[s := mkSignal (done sg) (make sg) true]> l) h1).

(** [func (sig *Signal) Cancel()] *)
Definition Cancel (s : nat) (h : Heap) : option Heap :=
  h1 ← init s h;
  close_Do s h1.

(** ** The standard context *)

(** [context.WithCancel(context.Background())]; the cancel function is named
    by the context it cancels.  The Done channel is allocated here (in the
    library: at the first [Done()]); it is open until [cancel] runs. *)
Definition WithCancel (h : Heap) : Heap * nat :=
  let '(h1, c) := chan_make h in
  (set_ctxs (λ l, l ++ [mkCancelCtx c false]) h1, length (ctxs h)).

(** The [cancel] function returned by [WithCancel]. *)
Definition std_cancel (k : nat) (h : Heap) : option Heap :=
  cc ← ctxs h !! k;
  if cerr cc then Some h
  else
    h1 ← chan_close (Some (cdone cc)) h;
    Some (set_ctxs (λ l, <[k := mkCancelCtx (cdone cc) true]> l) h1).

(** [ctx.Done()] through the interface. *)
Definition ctx_Done (p : Context) (h : Heap) : option (Heap * option nat) :=
  match p with
  | CtxSignal s => Done s h
  | CtxStd k => cc ← ctxs h !! k; Some (h, Some (cdone cc))
  | CtxBackground => Some (h, None)
  end.

(** ** Goroutines *)

(** The continuation of a goroutine: which closure it runs and how far it is. *)
Inductive Goroutine :=
  | GTimeout (sig : nat) (d : Z)
  | GTimeoutArmed (sig : nat) (fire : Z)
  | GTimeoutSelect (sig : nat) (fire : Z) (ch : option nat)
  | GPropagate (sig : nat) (parent : Context)
  | GPropagateArmed (sig : nat) (parent : Context) (pch : option nat)
  | GPropagateSelect (sig : nat) (parent : Context) (pch ch : option nat)
  | GPromote (ctx : Context) (std : nat)
  | GPromoteArmed (ctx : Context) (std : nat) (sch : option nat)
  | GPromoteSelect (ctx : Context) (std : nat) (sch dch : option nat)
  | GCancel (sig : nat)
  | GCancelClose (sig : nat)
  | GStdCancel (std : nat)
  | GExit.

(** [select { case <-a: A; case <-b: B }]: [first] is what the runtime picks
    when both cases are ready. *)
Definition select {A} (ra rb first : bool) (a b blocked : A) : A :=
  if ra && rb then (if first then a else b)
  else if ra then a
  else if rb then b
  else blocked.

(** One atomic step of a goroutine. *)
Definition gstep (g : Goroutine) (first : bool) (h : Heap)
  : option (Heap * Goroutine) :=
  match g with
  | GTimeout s d => Some (h, GTimeoutArmed s (when d h))
  | GTimeoutArmed s f =>
      '(h1, ch) ← Done s h; Some (h1, GTimeoutSelect s f ch)
  | GTimeoutSelect s f ch =>
      Some (h, select (timer_ready f h) (chan_ready ch h) first
                 (GCancel s) GExit g)
  | GPropagate s p =>
      '(h1, pch) ← ctx_Done p h; Some (h1, GPropagateArmed s p pch)
  | GPropagateArmed s p pch =>
      '(h1, ch) ← Done s h; Some (h1, GPropagateSelect s p pch ch)
  | GPropagateSelect s p pch ch =>
      Some (h, select (chan_ready pch h) (chan_ready ch h) first
                 (GCancel s) GExit g)
  | GPromote p k =>
      '(h1, sch) ← ctx_Done p h; Some (h1, GPromoteArmed p k sch)
  | GPromoteArmed p k sch =>
      '(h1, dch) ← ctx_Done (CtxStd k) h; Some (h1, GPromoteSelect p k sch dch)
  | GPromoteSelect p k sch dch =>
      Some (h, select (chan_ready sch h) (chan_ready dch h) first
                 (GStdCancel k) GExit g)
  | GCancel s => h1 ← init s h; Some (h1, GCancelClose s)
  | GCancelClose s => h1 ← close_Do s h; Some (h1, GExit)
  | GStdCancel k => h1 ← std_cancel k h; Some (h1, GExit)
  | GExit => Some (h, GExit)
  end.

Record World := mkWorld {
  heap : Heap;
  pool : list Goroutine }.

Definition empty_world : World := mkWorld empty_heap [].

(** [go func() {...}()] *)
Definition spawn (g : Goroutine) (w : World) : World :=
  mkWorld (heap w) (pool w ++ [g]).

(** [func (sig *Signal) Timeout(d time.Duration) *Signal] *)
Definition Timeout (s : nat) (d : Z) (w : World) : World * nat :=
  (spawn (GTimeout s d) w, s).

(** [func (sig *Signal) Deadline(t time.Time) *Signal] *)
Definition Deadline (s : nat) (t : Z) (w : World) : World * nat :=
  Timeout s (time_Until t (heap w)) w.

(** [func (sig *Signal) Propagate(parent Context) *Signal] *)
Definition Propagate (s : nat) (parent : Context) (w : World) : World * nat :=
  (spawn (GPropagate s parent) w, s).

(** [func Promote(ctx Context) (context.Context, func())]: the context and the
    cancel function are both named by the index of the new [cancelCtx]. *)
Definition Promote (ctx : Context) (w : World) : World * (nat * nat) :=
  let '(h1, k) := WithCancel (heap w) in
  (spawn (GPromote ctx k) (mkWorld h1 (pool w)), (k, k)).

(** ** Runs *)

(** What a client and the scheduler can do.  [OpGoCancel s] is
    [go sig.Cancel()], a concurrent call; [OpWithCancel] is a client's own
    [context.WithCancel(context.Background())]; [OpRelease k] calls the cancel
    function of standard context [k]; [OpSched i first] lets goroutine [i]
    take one step; [OpTick dt] lets time pass. *)
Inductive Op :=
  | OpNew
  | OpZero
  | OpDone (s : nat)
  | OpCancel (s : nat)
  | OpTimeout (s : nat) (d : Z)
  | OpDeadline (s : nat) (t : Z)
  | OpPropagate (s : nat) (p : Context)
  | OpPromote (p : Context)
  | OpWithCancel
  | OpRelease (k : nat)
  | OpGoCancel (s : nat)
  | OpSched (i : nat) (first : bool)
  | OpTick (dt : Z).

Definition on_heap (f : Heap → option Heap) (w : World) : option World :=
  h ← f (heap w); Some (mkWorld h (pool w)).

Definition sched (i : nat) (first : bool) (w : World) : option World :=
  match pool w !! i with
  | None => Some w
  | Some g =>
      '(h, g') ← gstep g first (heap w);
      Some (mkWorld h (<[i := g']> (pool w)))
  end.

Definition tick (dt : Z) (w : World) : World :=
  mkWorld (set_now (now (heap w) + Z.max 0 dt)%Z (heap w)) (pool w).

(** A pointer held by the program points into the heap. *)
Definition sig_valid (s : nat) (h : Heap) : bool :=
  bool_decide (s < length (sigs h)).
Definition ctx_valid (p : Context) (h : Heap) : bool :=
  match p with
  | CtxSignal s => sig_valid s h
  | CtxStd k => bool_decide (k < length (ctxs h))
  | CtxBackground => true
  end.

Definition op_valid (op : Op) (w : World) : bool :=
  match op with
  | OpDone s | OpCancel s | OpTimeout s _ | OpDeadline s _ | OpGoCancel s =>
      sig_valid s (heap w)
  | OpPropagate s p => sig_valid s (heap w) && ctx_valid p (heap w)
  | OpPromote p => ctx_valid p (heap w)
  | OpRelease k => bool_decide (k < length (ctxs (heap w)))
  | OpNew | OpZero | OpWithCancel | OpSched _ _ | OpTick _ => true
  end.

(** One action as the program makes it.  A call on a pointer that is not in
    the heap (a nil [*Signal] or [Context]) is made as the code makes it:
    [Done], [Cancel] and a cancel function panic at the call; [Timeout],
    [Deadline], [Propagate], [Promote] and [go sig.Cancel()] start their
    goroutine and return, and the goroutine panics where it dereferences the
    pointer. *)
Definition call (op : Op) (w : World) : option World :=
  match op with
  | OpNew => on_heap (λ h, fst <$> New h) w
  | OpZero => Some (mkWorld (fst (Zero (heap w))) (pool w))
  | OpDone s => on_heap (λ h, fst <$> Done s h) w
  | OpCancel s => on_heap (Cancel s) w
  | OpTimeout s d => Some (fst (Timeout s d w))
  | OpDeadline s t => Some (fst (Deadline s t w))
  | OpPropagate s p => Some (fst (Propagate s p w))
  | OpPromote p => Some (fst (Promote p w))
  | OpWithCancel => Some (mkWorld (fst (WithCancel (heap w))) (pool w))
  | OpRelease k => on_heap (std_cancel k) w
  | OpGoCancel s => Some (spawn (GCancel s) w)
  | OpSched i first => sched i first w
  | OpTick dt => Some (tick dt w)
  end.

(** One action of a client that calls on the pointers it holds: an entry that
    names a pointer not in the heap is none of its calls and is passed over.
    What is proved of [exec] and [run] is proved of the calls on valid
    pointers; [calls] below is the run with every entry made. *)
Definition exec (op : Op) (w : World) : option World :=
  if op_valid op w then call op w else Some w.

Fixpoint run (ops : list Op) (w : World) : option World :=
  match ops with
  | [] => Some w
  | op :: ops => w1 ← exec op w; run ops w1
  end.

(** A run in which every entry is made, the calls on nil pointers too. *)
Fixpoint calls (ops : list Op) (w : World) : option World :=
  match ops with
  | [] => Some w
  | op :: ops => w1 ← call op w; calls ops w1
  end.

(** No call of the run is on a nil pointer; nothing is asked of what follows
    a panic. *)
Fixpoint calls_valid (ops : list Op) (w : World) : bool :=
  match ops with
  | [] => true
  | op :: ops =>
      op_valid op w &&
      match call op w with
      | Some w1 => calls_valid ops w1
      | None => true
      end
  end.

(** ** Observations *)

(** The signal is terminated: its channel exists and is closed. *)
Definition terminated (s : nat) (h : Heap) : bool :=
  match sigs h !! s with
  | Some sg => chan_ready (done sg) h
  | None => false
  end.

(** The standard context reports canceled: its Done channel is closed. *)
Definition std_canceled (k : nat) (h : Heap) : bool :=
  match ctxs h !! k with
  | Some cc => chan_ready (Some (cdone cc)) h
  | None => false
  end.

Definition ctx_terminated (p : Context) (h : Heap) : bool :=
  match p with
  | CtxSignal s => terminated s h
  | CtxStd k => std_canceled k h
  | CtxBackground => false
  end.

(** How often [close] ran on channel [c]. *)
Fixpoint close_count (c : nat) (l : list Event) : nat :=
  match l with
  | [] => 0
  | EvClose c' :: l => (if decide (c' = c) then 1 else 0) + close_count c l
  | _ :: l => close_count c l
  end.

Definition exited (i : nat) (w : World) : bool :=
  match pool w !! i with
  | Some GExit => true
  | _ => false
  end.

(** ** Invariants of the heap and of the pool *)

(** A signal and its channel: before [init] there is no channel and the
    closing guard is unset; after it the channel exists and is closed exactly
    when the closing guard is set. *)
Definition sig_ok (h : Heap) (sg : Signal) : Prop :=
  if make sg then ∃ c, done sg = Some c ∧ chans h !! c = Some (close sg)
  else done sg = None ∧ close sg = false.

Record heap_wf (h : Heap) : Prop := {
  wf_sigs : ∀ s sg, sigs h !! s = Some sg → sig_ok h sg;
  wf_ctxs : ∀ k cc, ctxs h !! k = Some cc → chans h !! cdone cc = Some (cerr cc);
  wf_sig_inj : ∀ s1 s2 sg1 sg2 c,
    sigs h !! s1 = Some sg1 → sigs h !! s2 = Some sg2 →
    done sg1 = Some c → done sg2 = Some c → s1 = s2;
  wf_ctx_inj : ∀ k1 k2 c1 c2,
    ctxs h !! k1 = Some c1 → ctxs h !! k2 = Some c2 →
    cdone c1 = cdone c2 → k1 = k2;
  wf_sig_ctx : ∀ s sg k cc,
    sigs h !! s = Some sg → ctxs h !! k = Some cc → done sg ≠ Some (cdone cc);
  wf_log : ∀ c,
    close_count c (log h) = if chan_ready (Some c) h then 1 else 0 }.

(** [ch] is what [sig.Done()] returned. *)
Definition sig_chan (h : Heap) (s : nat) (ch : option nat) : Prop :=
  ∃ sg, sigs h !! s = Some sg ∧ make sg = true ∧ done sg = ch.

(** [ch] is what [ctx.Done()] returned. *)
Definition ctx_chan (h : Heap) (p : Context) (ch : option nat) : Prop :=
  match p with
  | CtxSignal s => sig_chan h s ch
  | CtxStd k => ∃ cc, ctxs h !! k = Some cc ∧ ch = Some (cdone cc)
  | CtxBackground => ch = None
  end.

(** What a goroutine holds agrees with the heap. *)
Definition g_ok (h : Heap) (g : Goroutine) : Prop :=
  match g with
  | GTimeout s _ | GTimeoutArmed s _ | GCancel s => sig_valid s h
  | GTimeoutSelect s _ ch => sig_chan h s ch
  | GPropagate s p => sig_valid s h ∧ ctx_valid p h
  | GPropagateArmed s p pch => sig_valid s h ∧ ctx_chan h p pch
  | GPropagateSelect s p pch ch => sig_chan h s ch ∧ ctx_chan h p pch
  | GPromote p k => ctx_valid p h ∧ ctx_valid (CtxStd k) h
  | GPromoteArmed p k sch => ctx_chan h p sch ∧ ctx_valid (CtxStd k) h
  | GPromoteSelect p k sch dch => ctx_chan h p sch ∧ ctx_chan h (CtxStd k) dch
  | GCancelClose s => ∃ ch, sig_chan h s ch
  | GStdCancel k => ctx_valid (CtxStd k) h
  | GExit => True
  end.

Definition world_wf (w : World) : Prop :=
  heap_wf (heap w) ∧ Forall (g_ok (heap w)) (pool w).

(** The heap only grows: pointers stay valid, an initialised signal keeps its
    channel, a set guard stays set, a closed channel stays closed and the
    clock does not go back. *)
Record ext (h h' : Heap) : Prop := {
  ext_sig : ∀ s sg, sigs h !! s = Some sg →
    ∃ sg', sigs h' !! s = Some sg' ∧
      (make sg = true → make sg' = true ∧ done sg' = done sg) ∧
      (close sg = true → close sg' = true);
  ext_ctx : ∀ k cc, ctxs h !! k = Some cc →
    ∃ cc', ctxs h' !! k = Some cc' ∧ cdone cc' = cdone cc ∧
      (cerr cc = true → cerr cc' = true);
  ext_chan : ∀ c, chans h !! c = Some true → chans h' !! c = Some true;
  ext_now : (now h ≤ now h')%Z }.

(** ** Following one goroutine *)

(** [stage g0 g h]: [g] is a continuation of the closure that started as
    [g0]; it exits only with its target terminated, and the goroutine of
    [Promote] is about to call [cancel] only with its source terminated. *)
Definition stage (g0 g : Goroutine) (h : Heap) : Prop :=
  match g0 with
  | GTimeout s d =>
      match g with
      | GTimeout s' d' => s' = s ∧ d' = d
      | GTimeoutArmed s' _ | GTimeoutSelect s' _ _
      | GCancel s' | GCancelClose s' => s' = s
      | GExit => terminated s h = true
      | _ => False
      end
  | GPropagate s p =>
      match g with
      | GPropagate s' p' | GPropagateArmed s' p' _
      | GPropagateSelect s' p' _ _ => s' = s ∧ p' = p
      | GCancel s' | GCancelClose s' => s' = s
      | GExit => terminated s h = true
      | _ => False
      end
  | GPromote p k =>
      match g with
      | GPromote p' k' | GPromoteArmed p' k' _
      | GPromoteSelect p' k' _ _ => p' = p ∧ k' = k
      | GStdCancel k' => k' = k ∧ ctx_terminated p h = true
      | GExit => std_canceled k h = true
      | _ => False
      end
  | GCancel s =>
      match g with
      | GCancel s' | GCancelClose s' => s' = s
      | GExit => terminated s h = true
      | _ => False
      end
  | _ => False
  end.

(** [fires g h]: one case of the goroutine's [select] is ready, or will be
    when the goroutine reaches it, so the goroutine cannot block. *)
Definition fires (g : Goroutine) (h : Heap) : Prop :=
  match g with
  | GTimeout s d => (d ≤ 0)%Z ∨ terminated s h = true
  | GTimeoutArmed s f => (f ≤ now h)%Z ∨ terminated s h = true
  | GTimeoutSelect _ f ch => (f ≤ now h)%Z ∨ chan_ready ch h = true
  | GPropagate s p =>
      ctx_terminated p h = true ∨ terminated s h = true
  | GPropagateArmed s _ pch =>
      chan_ready pch h = true ∨ terminated s h = true
  | GPropagateSelect _ _ pch ch =>
      chan_ready pch h = true ∨ chan_ready ch h = true
  | GPromote p k =>
      ctx_terminated p h = true ∨ std_canceled k h = true
  | GPromoteArmed _ k sch =>
      chan_ready sch h = true ∨ std_canceled k h = true
  | GPromoteSelect _ _ sch dch =>
      chan_ready sch h = true ∨ chan_ready dch h = true
  | GCancel _ | GCancelClose _ | GStdCancel _ | GExit => True
  end.

(** The steps a goroutine that does not block needs at most to exit. *)
Definition steps_left (g : Goroutine) : nat :=
  match g with
  | GTimeout _ _ | GPropagate _ _ => 5
  | GTimeoutArmed _ _ | GPropagateArmed _ _ _ | GPromote _ _ => 4
  | GTimeoutSelect _ _ _ | GPropagateSelect _ _ _ _ | GPromoteArmed _ _ _ => 3
  | GCancel _ | GPromoteSelect _ _ _ _ => 2
  | GCancelClose _ | GStdCancel _ => 1
  | GExit => 0
  end.

(** How often a run schedules goroutine [i]. *)
Fixpoint count_sched (i : nat) (ops : list Op) : nat :=
  match ops with
  | [] => 0
  | OpSched j _ :: ops => (if decide (j = i) then 1 else 0) + count_sched i ops
  | _ :: ops => count_sched i ops
  end.

(** A goroutine of the pool that is followed, and one that is bound to exit
    within [n] of its own steps. *)
Definition follows (g0 : Goroutine) (i : nat) (w : World) : Prop :=
  ∃ g, pool w !! i = Some g ∧ stage g0 g (heap w).

Definition bound (i n : nat) (w : World) : Prop :=
  ∃ g, pool w !! i = Some g ∧ fires g (heap w) ∧ steps_left g ≤ n.

(** The signal whose methods a goroutine runs. *)
Definition owner (g : Goroutine) : option nat :=
  match g with
  | GTimeout s _ | GTimeoutArmed s _ | GTimeoutSelect s _ _
  | GPropagate s _ | GPropagateArmed s _ _ | GPropagateSelect s _ _ _
  | GCancel s | GCancelClose s => Some s
  | GPromote _ _ | GPromoteArmed _ _ _ | GPromoteSelect _ _ _ _
  | GStdCancel _ | GExit => None
  end.

(** An operation of the signal [c] once [c.Propagate(p)] has started
    goroutine [i0], from a point of the run where the pool holds [n1]
    goroutines: a call of one of its methods, a step of goroutine [i0] or of
    a goroutine started from that point on (the index says which, whatever
    the goroutine has become), or the passing of time. *)
Definition child_only (c i0 n1 : nat) (op : Op) : bool :=
  match op with
  | OpDone s | OpCancel s | OpTimeout s _ | OpDeadline s _ | OpPropagate s _
  | OpGoCancel s => bool_decide (s = c)
  | OpSched i _ => bool_decide (i = i0 ∨ n1 ≤ i)
  | OpTick _ => true
  | _ => false
  end.

(** Goroutine [i0] and the goroutines from [n1] on run methods of [c], or
    have exited. *)
Definition child_pool (c i0 n1 : nat) (w : World) : Prop :=
  ∀ i g, i = i0 ∨ n1 ≤ i → pool w !! i = Some g → owner g = Some c ∨ g = GExit.

(** Cancelling a source through whatever it is. *)
Definition cancel_ctx (p : Context) (h : Heap) : option Heap :=
  match p with
  | CtxSignal s => Cancel s h
  | CtxStd k => std_cancel k h
  | CtxBackground => Some h
  end.

(** ** Repeated and concurrent calls of [Cancel] *)

(** [n] calls of [sig.Cancel()], one after the other. *)
Fixpoint Cancel_times (n : nat) (s : nat) (h : Heap) : option Heap :=
  match n with
  | O => Some h
  | S n => h1 ← Cancel s h; Cancel_times n s h1
  end.

(** [n] goroutines, each about to call [sig.Cancel()]. *)
Definition callers (n : nat) (s : nat) (h : Heap) : World :=
  mkWorld h (replicate n (GCancel s)).

(** A schedule: which goroutine steps next, and its choice in a [select]. *)
Definition schedule (cs : list (nat * bool)) : list Op :=
  (λ c, OpSched c.1 c.2) <$> cs.

Definition all_exited (w : World) : bool :=
  forallb (λ g, match g with GExit => true | _ => false end) (pool w).

(** ** [Deadline] as the specification words it *)

(** [Timeout(timestamp - now)], with the difference taken in the integers. *)
Definition Deadline_spec (s : nat) (t : Z) (w : World) : World * nat :=
  Timeout s (t - now (heap w))%Z w.

(** ** More invariants of runs *)

(** A run in which only goroutine [i] and the clock move. *)
Definition quiet (i : nat) (op : Op) : bool :=
  match op with
  | OpSched j _ => bool_decide (j = i)
  | OpTick _ => true
  | _ => false
  end.

(** The timer of a [Timeout] goroutine is not due before [F], and the
    goroutine is in its call of [Cancel] only from [F] on. *)
Definition timer_floor (F : Z) (g : Goroutine) (h : Heap) : Prop :=
  match g with
  | GTimeoutArmed _ f | GTimeoutSelect _ f _ => (F ≤ f)%Z
  | GCancel _ | GCancelClose _ => (F ≤ now h)%Z
  | _ => True
  end.



(** The step closes a channel. *)
Definition closing (g : Goroutine) : bool :=
  match g with
  | GCancelClose _ | GStdCancel _ => true
  | _ => false
  end.

(** What holds of the goroutine of [Timeout(d)], called at [now0], throughout
    a run. *)
Definition floor_inv (s : nat) (d now0 : Z) (g : Goroutine) (h : Heap) : Prop :=
  stage (GTimeout s d) g h ∧ (now0 ≤ now h)%Z ∧
  timer_floor (Z.min (now0 + d) maxInt64) g h.

(** In a quiet run the signal is terminated only from [now0 + d] on. *)
Definition pending_inv (s : nat) (d now0 : Z) (i : nat) (w : World) : Prop :=
  (∃ g, pool w !! i = Some g ∧ floor_inv s d now0 g (heap w)) ∧
  (terminated s (heap w) = true →
   (Z.min (now0 + d) maxInt64 ≤ now (heap w))%Z).



(** The two sources a goroutine of [Propagate] or [Promote] waits for, while
    it has not left its [select]. *)
Definition watch (g : Goroutine) : option (Context * Context) :=
  match g with
  | GPropagate s p | GPropagateArmed s p _ | GPropagateSelect s p _ _ =>
      Some (p, CtxSignal s)
  | GPromote p k | GPromoteArmed p k _ | GPromoteSelect p k _ _ =>
      Some (p, CtxStd k)
  | _ => None
  end.

(** Goroutine [i] waits for [p] and [q], both pending. *)
Definition wait_inv (p q : Context) (i : nat) (w : World) : Prop :=
  (∃ g, pool w !! i = Some g ∧ watch g = Some (p, q)) ∧
  ctx_terminated p (heap w) = false ∧ ctx_terminated q (heap w) = false.

(** Channel [c] is held: it is the channel of a signal or the Done channel of
    a standard context. *)
Definition held (c : nat) (h : Heap) : Prop :=
  (∃ s sg, sigs h !! s = Some sg ∧ done sg = Some c) ∨
  (∃ k cc, ctxs h !! k = Some cc ∧ cdone cc = c).

(** No channel was made and then dropped. *)
Definition chans_owned (h : Heap) : Prop :=
  ∀ c, c < length (chans h) → held c h.

(** ** Sample worlds *)

(** The program after [New()]. *)
Definition world_one : World :=
  mkWorld (mkHeap [false] [mkSignal (Some 0) true false] [] 0 [EvMake 0]) [].

(** The program after three [New()]. *)
Definition world_three : World :=
  mkWorld (mkHeap [false; false; false]
             [mkSignal (Some 0) true false; mkSignal (Some 1) true false;
              mkSignal (Some 2) true false]
             [] 0 [EvMake 2; EvMake 1; EvMake 0]) [].

Arguments chan_ready : simpl never.
Arguments terminated : simpl never.
Arguments std_canceled : simpl never.
Arguments timer_ready : simpl never.

(** * Properties *)

(** ** The invariant is kept *)

Lemma ext_refl h : ext h h.
Proof. split; [naive_solver..|lia]. Qed.

Lemma ext_trans h1 h2 h3 : ext h1 h2 → ext h2 h3 → ext h1 h3.
Proof.
  intros [S1 C1 H1 N1] [S2 C2 H2 N2]. split.
  - intros s sg Hs. destruct (S1 _ _ Hs) as (sg' & Hs' & Hm & Hc).
    destruct (S2 _ _ Hs') as (sg'' & Hs'' & Hm' & Hc').
    exists sg''. split; [done|]. split.
    + intros M. destruct (Hm M) as [M' D']. destruct (Hm' M') as [M'' D''].
      split; congruence.
    + auto.
  - intros k cc Hk. destruct (C1 _ _ Hk) as (cc' & Hk' & Hd & He).
    destruct (C2 _ _ Hk') as (cc'' & Hk'' & Hd' & He').
    exists cc''. split; [done|]. split; [congruence|auto].
  - auto.
  - lia.
Qed.

Lemma chan_ready_Some c h : chan_ready (Some c) h = true ↔ chans h !! c = Some true.
Proof. unfold chan_ready. apply bool_decide_eq_true. Qed.

Lemma sig_valid_lt s h : sig_valid s h ↔ s < length (sigs h).
Proof. unfold sig_valid. apply bool_decide_spec. Qed.

Lemma sig_valid_is_Some s h : sig_valid s h ↔ is_Some (sigs h !! s).
Proof. rewrite sig_valid_lt. symmetry. apply lookup_lt_is_Some. Qed.

(** The heap after the body of [sig.make.Do] ran. *)
Lemma init_eq s sg h :
  sigs h !! s = Some sg →
  init s h = Some (if make sg then h else
    mkHeap (chans h ++ [false])
           (<[s := mkSignal (Some (length (chans h))) true (close sg)]> (sigs h))
           (ctxs h) (now h) (EvMake (length (chans h)) :: log h)).
Proof. intros Hs. unfold init. rewrite Hs. simpl. by destruct (make sg). Qed.

Lemma ready_snoc c (l : list bool) :
  bool_decide ((l ++ [false]) !! c = Some true) = bool_decide (l !! c = Some true).
Proof.
  apply bool_decide_ext. rewrite lookup_snoc_Some.
  split; [intros [[_ ?]|[_ [=]]]; done|]. intros H. left. split; [|done]. by eapply lookup_lt_Some.
Qed.

Lemma wf_alloc_sig h s sg :
  heap_wf h → sigs h !! s = Some sg → make sg = false →
  heap_wf (mkHeap (chans h ++ [false])
           (<[s := mkSignal (Some (length (chans h))) true (close sg)]> (sigs h))
           (ctxs h) (now h) (EvMake (length (chans h)) :: log h)).
Proof.
  intros [WS WC WI WJ WX WL] Hs Hm.
  assert (Hlt : s < length (sigs h)) by by eapply lookup_lt_Some.
  assert (Hfresh : ∀ s' sg', sigs h !! s' = Some sg' → done sg' ≠ Some (length (chans h))).
  { intros s' sg' Hs' Hd. specialize (WS _ _ Hs'). unfold sig_ok in WS.
    destruct (make sg'); [|destruct WS; congruence].
    destruct WS as (c & Hc & Hl). apply lookup_lt_Some in Hl. simplify_eq. lia. }
  pose proof (WS _ _ Hs) as Hok. unfold sig_ok in Hok. rewrite Hm in Hok.
  destruct Hok as [Hd Hcl].
  split; simpl.
  - intros s' sg' Hs'. rewrite list_lookup_insert in Hs'.
    case_decide as Hdec.
    + simplify_eq. unfold sig_ok; simpl. eexists; split; [done|].
      rewrite Hcl. by apply list_lookup_middle.
    + specialize (WS _ _ Hs'). unfold sig_ok in *. destruct (make sg'); [|done].
      destruct WS as (c & ? & ?). exists c. split; [done|]. by apply lookup_app_l_Some.
  - intros k cc Hk. apply lookup_app_l_Some. eauto.
  - intros s1 s2 sg1 sg2 c H1 H2 D1 D2.
    destruct (decide (s1 = s)) as [->|N1], (decide (s2 = s)) as [->|N2]; [done|..].
    + rewrite list_lookup_insert_eq in H1 by done.
      rewrite list_lookup_insert_ne in H2 by done. simplify_eq; simpl in *.
      destruct (Hfresh _ _ H2); congruence.
    + rewrite list_lookup_insert_eq in H2 by done.
      rewrite list_lookup_insert_ne in H1 by done. simplify_eq; simpl in *.
      destruct (Hfresh _ _ H1); congruence.
    + rewrite list_lookup_insert_ne in H1, H2 by done. eauto.
  - eauto.
  - intros s' sg' k cc Hs' Hk. rewrite list_lookup_insert in Hs'.
    case_decide; simplify_eq; simpl; [|eauto].
    intros [=]. apply WC, lookup_lt_Some in Hk. lia.
  - intros c. rewrite WL. unfold chan_ready; simpl.
    by rewrite ready_snoc.
Qed.

Lemma wf_close_sig h s sg c :
  heap_wf h → sigs h !! s = Some sg → make sg = true → done sg = Some c →
  close sg = false →
  heap_wf (mkHeap (<[c := true]> (chans h))
           (<[s := mkSignal (Some c) true true]> (sigs h))
           (ctxs h) (now h) (EvClose c :: log h)).
Proof.
  intros [WS WC WI WJ WX WL] Hs Hm Hd Hcl.
  assert (Hlt : s < length (sigs h)) by by eapply lookup_lt_Some.
  pose proof (WS _ _ Hs) as Hok. unfold sig_ok in Hok. rewrite Hm, Hd, Hcl in Hok.
  destruct Hok as (? & [= <-] & Hc).
  assert (Hclt : c < length (chans h)) by by eapply lookup_lt_Some.
  split; simpl.
  - intros s' sg' Hs'. destruct (decide (s' = s)) as [->|N].
    + rewrite list_lookup_insert_eq in Hs' by done. simplify_eq.
      exists c. split; [done|]. by apply list_lookup_insert_eq.
    + rewrite list_lookup_insert_ne in Hs' by done.
      pose proof (WS _ _ Hs') as Hok. unfold sig_ok in *.
      destruct (make sg'); [|done]. destruct Hok as (c' & Hd' & Hc').
      exists c'. split; [done|]. simpl. rewrite list_lookup_insert_ne; [done|].
      intros ->. apply N. eauto.
  - intros k cc Hk. rewrite list_lookup_insert_ne; [eauto|].
    intros ->. by eapply WX.
  - intros s1 s2 sg1 sg2 c' H1 H2 D1 D2.
    assert (∀ s' sg', <[s:=mkSignal (Some c) true true]> (sigs h) !! s' = Some sg' →
       ∃ sg0, sigs h !! s' = Some sg0 ∧ done sg0 = done sg') as Hold.
    { intros s' sg' Hs'. destruct (decide (s' = s)) as [->|N].
      - rewrite list_lookup_insert_eq in Hs' by done. simplify_eq. eauto.
      - rewrite list_lookup_insert_ne in Hs' by done. eauto. }
    destruct (Hold _ _ H1) as (? & ? & E1), (Hold _ _ H2) as (? & ? & E2).
    eapply (WI s1 s2 _ _ c'); [eassumption|eassumption|congruence|congruence].
  - eauto.
  - intros s' sg' k cc Hs' Hk. destruct (decide (s' = s)) as [->|N].
    + rewrite list_lookup_insert_eq in Hs' by done. simplify_eq. simpl.
      rewrite <- Hd. eauto.
    + rewrite list_lookup_insert_ne in Hs' by done. eauto.
  - intros c'. specialize (WL c'). unfold chan_ready in *. simpl in *.
    destruct (decide (c = c')) as [<-|N].
    + rewrite list_lookup_insert_eq by done. rewrite bool_decide_eq_true_2 by done.
      rewrite WL, bool_decide_eq_false_2; [done|congruence].
    + by rewrite list_lookup_insert_ne.
Qed.

Lemma wf_close_ctx h k cc :
  heap_wf h → ctxs h !! k = Some cc → cerr cc = false →
  heap_wf (mkHeap (<[cdone cc := true]> (chans h)) (sigs h)
           (<[k := mkCancelCtx (cdone cc) true]> (ctxs h))
           (now h) (EvClose (cdone cc) :: log h)).
Proof.
  intros [WS WC WI WJ WX WL] Hk He.
  assert (Hlt : k < length (ctxs h)) by by eapply lookup_lt_Some.
  pose proof (WC _ _ Hk) as Hc. rewrite He in Hc.
  assert (Hclt : cdone cc < length (chans h)) by by eapply lookup_lt_Some.
  assert (∀ k' cc', <[k:=mkCancelCtx (cdone cc) true]> (ctxs h) !! k' = Some cc' →
     ∃ cc0, ctxs h !! k' = Some cc0 ∧ cdone cc0 = cdone cc') as Hold.
  { intros k' cc' Hk'. destruct (decide (k' = k)) as [->|N].
    - rewrite list_lookup_insert_eq in Hk' by done. simplify_eq. eauto.
    - rewrite list_lookup_insert_ne in Hk' by done. eauto. }
  split; simpl.
  - intros s sg Hs. pose proof (WS _ _ Hs) as Hok. unfold sig_ok in *.
    destruct (make sg); [|done]. destruct Hok as (c' & Hd' & Hc').
    exists c'. split; [done|]. simpl. rewrite list_lookup_insert_ne; [done|].
    intros <-. by eapply WX.
  - intros k' cc' Hk'. destruct (decide (k' = k)) as [->|N].
    + rewrite list_lookup_insert_eq in Hk' by done. simplify_eq. simpl.
      by apply list_lookup_insert_eq.
    + rewrite list_lookup_insert_ne in Hk' by done.
      rewrite list_lookup_insert_ne; [eauto|]. intros E. apply N. symmetry. eauto.
  - eauto.
  - intros k1 k2 c1 c2 H1 H2 E.
    destruct (Hold _ _ H1) as (? & ? & E1), (Hold _ _ H2) as (? & ? & E2).
    eapply (WJ k1 k2); [eassumption|eassumption|congruence].
  - intros s sg k' cc' Hs Hk'. destruct (Hold _ _ Hk') as (? & ? & <-). eauto.
  - intros c'. specialize (WL c'). unfold chan_ready in *. simpl in *.
    destruct (decide (cdone cc = c')) as [<-|N].
    + rewrite list_lookup_insert_eq by done. rewrite bool_decide_eq_true_2 by done.
      rewrite WL, bool_decide_eq_false_2; [done|congruence].
    + by rewrite list_lookup_insert_ne.
Qed.

Lemma wf_push_sig h :
  heap_wf h →
  heap_wf (mkHeap (chans h) (sigs h ++ [mkSignal None false false])
           (ctxs h) (now h) (log h)).
Proof.
  intros [WS WC WI WJ WX WL].
  assert (∀ s sg, (sigs h ++ [mkSignal None false false]) !! s = Some sg →
    sigs h !! s = Some sg ∨ done sg = None ∧ sg = mkSignal None false false) as Hold.
  { intros s sg [[_ ?]|[_ <-]]%lookup_snoc_Some; auto. }
  split; simpl; [|done| |done| |done].
  - intros s sg [?|[_ ->]]%Hold; [eauto|]. by split.
  - intros s1 s2 sg1 sg2 c [?|[? _]]%Hold [?|[? _]]%Hold D1 D2; try congruence. eauto.
  - intros s sg k cc [?|[? _]]%Hold Hk; [eauto|congruence].
Qed.

Lemma wf_push_ctx h :
  heap_wf h →
  heap_wf (mkHeap (chans h ++ [false]) (sigs h)
           (ctxs h ++ [mkCancelCtx (length (chans h)) false])
           (now h) (EvMake (length (chans h)) :: log h)).
Proof.
  intros [WS WC WI WJ WX WL].
  assert (∀ k cc, (ctxs h ++ [mkCancelCtx (length (chans h)) false]) !! k = Some cc →
    ctxs h !! k = Some cc ∧ k < length (ctxs h) ∨
    k = length (ctxs h) ∧ cc = mkCancelCtx (length (chans h)) false) as Hold.
  { intros k cc [[? ?]|[? <-]]%lookup_snoc_Some; auto. }
  split; simpl.
  - intros s sg Hs. specialize (WS _ _ Hs). unfold sig_ok in *.
    destruct (make sg); [|done]. destruct WS as (c & ? & ?).
    exists c. split; [done|]. by apply lookup_app_l_Some.
  - intros k cc [[? _]|[_ ->]]%Hold; simpl.
    + apply lookup_app_l_Some. eauto.
    + by apply list_lookup_middle.
  - eauto.
  - intros k1 k2 c1 c2 [[H1 ?]|[? ->]]%Hold [[H2 ?]|[? ->]]%Hold E; simpl in *.
    + eauto.
    + apply WC, lookup_lt_Some in H1. lia.
    + apply WC, lookup_lt_Some in H2. lia.
    + congruence.
  - intros s sg k cc Hs [[? _]|[_ ->]]%Hold; [eauto|]. simpl. intros Hd.
    specialize (WS _ _ Hs). unfold sig_ok in WS. destruct (make sg).
    + destruct WS as (c & ? & Hc). apply lookup_lt_Some in Hc. simplify_eq. lia.
    + destruct WS. congruence.
  - intros c. rewrite WL. unfold chan_ready; simpl. by rewrite ready_snoc.
Qed.

Lemma wf_set_now h t : heap_wf h → heap_wf (set_now t h).
Proof. by intros []. Qed.

Lemma wf_empty : heap_wf empty_heap.
Proof. split; try done. Qed.

(** *** The heap only grows *)

Lemma ext_insert_sig h s sg sg' chs l :
  sigs h !! s = Some sg →
  (make sg = true → make sg' = true ∧ done sg' = done sg) →
  (close sg = true → close sg' = true) →
  (∀ c, chans h !! c = Some true → chs !! c = Some true) →
  ext h (mkHeap chs (<[s := sg']> (sigs h)) (ctxs h) (now h) l).
Proof.
  intros Hs Hm Hc Hch. split; simpl; [|by eauto|done|lia].
  intros s0 sg0 Hs0. destruct (decide (s0 = s)) as [->|N].
  - exists sg'. simplify_eq. split; [|done].
    apply list_lookup_insert_eq. by eapply lookup_lt_Some.
  - exists sg0. by rewrite list_lookup_insert_ne.
Qed.

Lemma ext_insert_ctx h k cc cc' chs l :
  ctxs h !! k = Some cc → cdone cc' = cdone cc →
  (cerr cc = true → cerr cc' = true) →
  (∀ c, chans h !! c = Some true → chs !! c = Some true) →
  ext h (mkHeap chs (sigs h) (<[k := cc']> (ctxs h)) (now h) l).
Proof.
  intros Hk Hd He Hch. split; simpl; [by eauto| |done|lia].
  intros k0 cc0 Hk0. destruct (decide (k0 = k)) as [->|N].
  - exists cc'. simplify_eq. split; [|done].
    apply list_lookup_insert_eq. by eapply lookup_lt_Some.
  - exists cc0. by rewrite list_lookup_insert_ne.
Qed.

Lemma ext_push_sig h sg :
  ext h (mkHeap (chans h) (sigs h ++ [sg]) (ctxs h) (now h) (log h)).
Proof.
  split; simpl; [|by eauto|done|lia].
  intros s sg0 Hs. exists sg0. split; [|done]. by apply lookup_app_l_Some.
Qed.

Lemma ext_push_ctx h cc chs l :
  (∀ c, chans h !! c = Some true → chs !! c = Some true) →
  ext h (mkHeap chs (sigs h) (ctxs h ++ [cc]) (now h) l).
Proof.
  intros Hch. split; simpl; [by eauto| |done|lia].
  intros k cc0 Hk. exists cc0. split; [|done]. by apply lookup_app_l_Some.
Qed.

Lemma ext_set_now h t : (now h ≤ t)%Z → ext h (set_now t h).
Proof. intros. split; simpl; eauto. Qed.

Lemma chans_snoc_true (l : list bool) c :
  l !! c = Some true → (l ++ [false]) !! c = Some true.
Proof. apply lookup_app_l_Some. Qed.

Lemma chans_insert_true (l : list bool) c c' :
  l !! c = Some true → <[c' := true]> l !! c = Some true.
Proof.
  intros H. destruct (decide (c' = c)) as [->|N].
  - apply list_lookup_insert_eq. by eapply lookup_lt_Some.
  - by rewrite list_lookup_insert_ne.
Qed.

(** *** [init] *)

Lemma init_wf s h h' : heap_wf h → init s h = Some h' → heap_wf h'.
Proof.
  intros W E. destruct (sigs h !! s) as [sg|] eqn:Hs.
  - rewrite (init_eq _ _ _ Hs) in E. destruct (make sg) eqn:Hm; simplify_eq; [done|].
    by apply wf_alloc_sig.
  - unfold init in E. by rewrite Hs in E.
Qed.

Lemma init_ext s h h' : init s h = Some h' → ext h h'.
Proof.
  intros E. destruct (sigs h !! s) as [sg|] eqn:Hs.
  - rewrite (init_eq _ _ _ Hs) in E. destruct (make sg) eqn:Hm; simplify_eq.
    + apply ext_refl.
    + apply ext_insert_sig with sg; [done|congruence|done|apply chans_snoc_true].
  - unfold init in E. by rewrite Hs in E.
Qed.

Lemma init_is_Some s h : sig_valid s h → is_Some (init s h).
Proof.
  intros [sg Hs]%sig_valid_is_Some. rewrite (init_eq _ _ _ Hs). eauto.
Qed.

Lemma init_sig_chan s h h' : init s h = Some h' → ∃ ch, sig_chan h' s ch.
Proof.
  intros E. destruct (sigs h !! s) as [sg|] eqn:Hs.
  - rewrite (init_eq _ _ _ Hs) in E. destruct (make sg) eqn:Hm; simplify_eq.
    + exists (done sg), sg. done.
    + eexists _, _. simpl. split.
      { apply list_lookup_insert_eq. by eapply lookup_lt_Some. }
      done.
  - unfold init in E. by rewrite Hs in E.
Qed.

Lemma init_idem s h ch : sig_chan h s ch → init s h = Some h.
Proof. intros (sg & Hs & Hm & _). rewrite (init_eq _ _ _ Hs). by rewrite Hm. Qed.

Lemma sig_chan_Some h s ch :
  heap_wf h → sig_chan h s ch →
  ∃ c sg, ch = Some c ∧ sigs h !! s = Some sg ∧ done sg = Some c ∧
    make sg = true ∧ chans h !! c = Some (close sg).
Proof.
  intros W (sg & Hs & Hm & Hd). pose proof (wf_sigs _ W _ _ Hs) as Hok.
  unfold sig_ok in Hok. rewrite Hm in Hok. destruct Hok as (c & ? & ?).
  exists c, sg. repeat split; congruence.
Qed.

Lemma sig_chan_ext h h' s ch : ext h h' → sig_chan h s ch → sig_chan h' s ch.
Proof.
  intros X (sg & Hs & Hm & Hd). destruct (ext_sig _ _ X _ _ Hs) as (sg' & ? & Hmd & _).
  destruct (Hmd Hm). exists sg'. repeat split; congruence.
Qed.

Lemma sig_chan_fun h s ch ch' : sig_chan h s ch → sig_chan h s ch' → ch = ch'.
Proof. intros (sg & Hs & _ & <-) (sg' & Hs' & _ & <-). congruence. Qed.

(** *** [Done] *)

Lemma Done_spec s h :
  heap_wf h → sig_valid s h →
  ∃ h' c, Done s h = Some (h', Some c) ∧ init s h = Some h' ∧
    heap_wf h' ∧ ext h h' ∧ sig_chan h' s (Some c).
Proof.
  intros W V. destruct (init_is_Some _ _ V) as [h' E].
  destruct (init_sig_chan _ _ _ E) as [ch Hch].
  pose proof (init_wf _ _ _ W E) as W'.
  destruct (sig_chan_Some _ _ _ W' Hch) as (c & sg & -> & Hs & Hd & _).
  exists h', c. unfold Done. rewrite E. simpl. rewrite Hs. simpl. rewrite Hd.
  split_and!; [done|done|done|by eapply init_ext|done].
Qed.

(** *** [close.Do] and [Cancel] *)

Lemma close_Do_eq s sg c h :
  sigs h !! s = Some sg → done sg = Some c → make sg = true →
  chans h !! c = Some (close sg) →
  close_Do s h = Some (if close sg then h else
    mkHeap (<[c := true]> (chans h)) (<[s := mkSignal (Some c) true true]> (sigs h))
           (ctxs h) (now h) (EvClose c :: log h)).
Proof.
  intros Hs Hd Hm Hc. unfold close_Do. rewrite Hs. simpl.
  destruct (close sg); [done|]. rewrite Hd. simpl. rewrite Hc. simpl.
  by rewrite Hm.
Qed.

Lemma terminated_true s h :
  terminated s h = true ↔
  ∃ sg c, sigs h !! s = Some sg ∧ done sg = Some c ∧ chans h !! c = Some true.
Proof.
  unfold terminated. split.
  - destruct (sigs h !! s) as [sg|]; [|done]. destruct (done sg) as [c|] eqn:Hd; [|done].
    intros ?%chan_ready_Some. eauto.
  - intros (sg & c & -> & -> & Hc). by apply chan_ready_Some.
Qed.

Lemma close_Do_spec s ch h :
  heap_wf h → sig_chan h s ch →
  ∃ h', close_Do s h = Some h' ∧ heap_wf h' ∧ ext h h' ∧ terminated s h' = true.
Proof.
  intros W Hch. destruct (sig_chan_Some _ _ _ W Hch) as (c & sg & -> & Hs & Hd & Hm & Hc).
  rewrite (close_Do_eq _ _ _ _ Hs Hd Hm Hc). eexists. split; [done|].
  destruct (close sg) eqn:Hcl.
  - split; [done|]. split; [apply ext_refl|]. rewrite terminated_true. eauto.
  - split; [by apply (wf_close_sig h s sg c)|]. split.
    + apply ext_insert_sig with sg; [done|by rewrite Hd|done|].
      intros c'. apply chans_insert_true.
    + rewrite terminated_true. exists (mkSignal (Some c) true true), c. simpl.
      split_and!; [|done|].
      * apply list_lookup_insert_eq. by eapply lookup_lt_Some.
      * apply list_lookup_insert_eq. by eapply lookup_lt_Some.
Qed.

Lemma Cancel_spec s h :
  heap_wf h → sig_valid s h →
  ∃ h', Cancel s h = Some h' ∧ heap_wf h' ∧ ext h h' ∧ terminated s h' = true.
Proof.
  intros W V. destruct (init_is_Some _ _ V) as [h1 E].
  destruct (init_sig_chan _ _ _ E) as [ch Hch].
  destruct (close_Do_spec s ch h1) as (h' & E' & W' & X' & T'); [by eapply init_wf|done|].
  exists h'. unfold Cancel. rewrite E. simpl.
  split_and!; [done|done| |done]. eapply ext_trans; [by eapply init_ext|done].
Qed.

(** *** The standard context *)

Lemma std_cancel_spec k h :
  heap_wf h → ctx_valid (CtxStd k) h →
  ∃ h', std_cancel k h = Some h' ∧ heap_wf h' ∧ ext h h' ∧
    std_canceled k h' = true ∧ sigs h' = sigs h.
Proof.
  intros W V. simpl in V. apply bool_decide_spec, lookup_lt_is_Some in V.
  destruct V as [cc Hk]. pose proof (wf_ctxs _ W _ _ Hk) as Hc.
  unfold std_cancel. rewrite Hk. simpl. destruct (cerr cc) eqn:He.
  - exists h. split_and!; [done|done|apply ext_refl| |done].
    unfold std_canceled. rewrite Hk. by apply chan_ready_Some.
  - rewrite Hc. simpl. eexists. split; [done|].
    unfold set_ctxs, add_log, set_chans; simpl.
    split; [by apply (wf_close_ctx h k cc)|].
    split; [|split; [|done]].
    + apply ext_insert_ctx with cc; [done..|]. intros c'. apply chans_insert_true.
    + unfold std_canceled, chan_ready. simpl.
      rewrite list_lookup_insert_eq by by eapply lookup_lt_Some. simpl.
      apply bool_decide_eq_true. apply list_lookup_insert_eq. by eapply lookup_lt_Some.
Qed.

Lemma WithCancel_spec h h' k :
  heap_wf h → WithCancel h = (h', k) →
  heap_wf h' ∧ ext h h' ∧ k = length (ctxs h) ∧ sigs h' = sigs h ∧
  ctxs h' = ctxs h ++ [mkCancelCtx (length (chans h)) false] ∧
  std_canceled k h' = false.
Proof.
  intros W [= <- <-]. unfold set_ctxs, add_log, set_chans; simpl.
  split; [by apply (wf_push_ctx h)|].
  split; [|split_and!; try done].
  - apply ext_push_ctx, chans_snoc_true.
  - unfold std_canceled, chan_ready. simpl. rewrite list_lookup_middle by done.
    simpl. apply bool_decide_eq_false. by rewrite list_lookup_middle.
Qed.

Lemma ctx_chan_ext h h' p ch : ext h h' → ctx_chan h p ch → ctx_chan h' p ch.
Proof.
  intros X. destruct p as [s|k|]; simpl; [by apply sig_chan_ext| |done].
  intros (cc & Hk & ->). destruct (ext_ctx _ _ X _ _ Hk) as (cc' & ? & <- & _). eauto.
Qed.

Lemma ctx_Done_spec p h :
  heap_wf h → ctx_valid p h →
  ∃ h' ch, ctx_Done p h = Some (h', ch) ∧ heap_wf h' ∧ ext h h' ∧ ctx_chan h' p ch.
Proof.
  intros W V. destruct p as [s|k|]; simpl in *.
  - destruct (Done_spec s h W V) as (h' & c & ? & ? & ? & ? & ?). eauto 10.
  - apply bool_decide_spec, lookup_lt_is_Some in V. destruct V as [cc Hk].
    rewrite Hk. simpl. eauto 10 using ext_refl.
  - eauto 10 using ext_refl.
Qed.

(** *** Goroutine steps *)

Lemma sig_valid_ext h h' s : ext h h' → sig_valid s h → sig_valid s h'.
Proof.
  intros X [sg Hs]%sig_valid_is_Some. apply sig_valid_is_Some.
  destruct (ext_sig _ _ X _ _ Hs) as (sg' & ? & _). eauto.
Qed.

Lemma ctx_valid_ext h h' p : ext h h' → ctx_valid p h → ctx_valid p h'.
Proof.
  intros X. destruct p as [s|k|]; simpl; [by apply sig_valid_ext| |done].
  intros [cc Hk]%bool_decide_spec%lookup_lt_is_Some.
  apply bool_decide_spec, lookup_lt_is_Some.
  destruct (ext_ctx _ _ X _ _ Hk) as (cc' & ? & _). eauto.
Qed.

Lemma sig_chan_valid h s ch : sig_chan h s ch → sig_valid s h.
Proof. intros (sg & Hs & _). apply sig_valid_is_Some. eauto. Qed.

Lemma ctx_chan_valid h p ch : ctx_chan h p ch → ctx_valid p h.
Proof.
  destruct p as [s|k|]; simpl; [apply sig_chan_valid| |done].
  intros (cc & Hk & _). apply bool_decide_spec, lookup_lt_is_Some. eauto.
Qed.

Lemma g_ok_ext h h' g : ext h h' → g_ok h g → g_ok h' g.
Proof.
  intros X. destruct g; cbn [g_ok]; try done;
    try (intros [ch G]; exists ch; revert G);
    try (intros [G1 G2]; split; revert G1 G2; intros);
    eauto using sig_valid_ext, sig_chan_ext, ctx_chan_ext, ctx_valid_ext.
Qed.

Lemma select_ind {A} (P : A → Prop) ra rb first a b blocked :
  P a → P b → P blocked → P (select ra rb first a b blocked).
Proof. intros. unfold select. by destruct ra, rb, first. Qed.

Lemma gstep_spec g first h :
  heap_wf h → g_ok h g →
  ∃ h' g', gstep g first h = Some (h', g') ∧ heap_wf h' ∧ ext h h' ∧ g_ok h' g'.
Proof.
  intros W G. destruct g; simpl in *.
  - eauto 10 using ext_refl.
  - destruct (Done_spec _ _ W G) as (h' & c & -> & _ & ? & ? & ?). simpl. eauto 10.
  - eexists _, _. split_and!; [done|done|apply ext_refl|].
    apply select_ind; simpl; eauto using sig_chan_valid.
  - destruct G as [G1 G2].
    destruct (ctx_Done_spec _ _ W G2) as (h' & c & -> & ? & ? & ?). simpl.
    eexists _, _. split_and!; [done|done|done|]. simpl. eauto using sig_valid_ext.
  - destruct G as [G1 G2].
    destruct (Done_spec _ _ W G1) as (h' & c & -> & _ & ? & ? & ?). simpl.
    eexists _, _. split_and!; [done|done|done|]. simpl. eauto using ctx_chan_ext.
  - destruct G as [G1 G2].
    eexists _, _. split_and!; [done|done|apply ext_refl|].
    apply select_ind; simpl; eauto using sig_chan_valid.
  - destruct G as [G1 G2].
    destruct (ctx_Done_spec _ _ W G1) as (h' & c & -> & ? & ? & ?). simpl.
    eexists _, _. split_and!; [done|done|done|]. simpl. split; [done|].
    by apply (ctx_valid_ext h h' (CtxStd std)).
  - destruct G as [G1 G2].
    destruct (ctx_Done_spec (CtxStd std) _ W G2) as (h' & c & E & ? & ? & ?).
    simpl in E. rewrite E. simpl.
    eexists _, _. split_and!; [done|done|done|]. simpl. eauto using ctx_chan_ext.
  - destruct G as [G1 G2].
    eexists _, _. split_and!; [done|done|apply ext_refl|].
    apply select_ind; simpl; [|done|done].
    by apply (ctx_chan_valid h (CtxStd std) dch).
  - destruct (init_is_Some _ _ G) as [h' E]. rewrite E. simpl.
    eexists _, _. split_and!; [done|by eapply init_wf|by eapply init_ext|].
    simpl. by eapply init_sig_chan.
  - destruct G as [ch G].
    destruct (close_Do_spec _ _ _ W G) as (h' & -> & ? & ? & ?). simpl.
    by eexists _, _.
  - destruct (std_cancel_spec _ _ W G) as (h' & -> & ? & ? & ?). simpl.
    by eexists _, _.
  - eexists _, _. split_and!; [done|done|apply ext_refl|done].
Qed.

(** *** Runs keep the invariant *)

Lemma Forall_g_ok_ext h h' l : ext h h' → Forall (g_ok h) l → Forall (g_ok h') l.
Proof.
  intros X F. eapply Forall_impl; [exact F|]. intros g. by apply g_ok_ext.
Qed.

Lemma spawn_wf g w : world_wf w → g_ok (heap w) g → world_wf (spawn g w).
Proof.
  intros [W P] G. split; [done|]. simpl. apply Forall_app. split; [done|].
  by apply Forall_singleton.
Qed.

Lemma New_spec h :
  heap_wf h →
  ∃ h' c, New h = Some (h', length (sigs h)) ∧ heap_wf h' ∧ ext h h' ∧
    sigs h' = sigs h ++ [mkSignal (Some c) true false] ∧
    chans h' = chans h ++ [false] ∧ c = length (chans h) ∧
    ctxs h' = ctxs h ∧ log h' = EvMake c :: log h.
Proof.
  intros W. unfold New.
  set (h0 := set_sigs (λ l, l ++ [mkSignal None false false]) h).
  assert (Hs : sigs h0 !! length (sigs h) = Some (mkSignal None false false)).
  { simpl. by apply list_lookup_middle. }
  rewrite (init_eq _ _ _ Hs). simpl.
  assert (W0 : heap_wf h0) by by apply wf_push_sig.
  pose proof (wf_alloc_sig h0 _ _ W0 Hs eq_refl) as W1. simpl in W1.
  eexists _, _. split_and!; [done|exact W1| |simpl..]; try done.
  - eapply ext_trans with h0.
    + apply ext_push_sig.
    + apply (ext_insert_sig h0 (length (sigs h)) (mkSignal None false false));
        [done|done|done|apply chans_snoc_true].
  - rewrite <- (Nat.add_0_r (length (sigs h))). by rewrite insert_app_r.
Qed.

Lemma Zero_wf h : heap_wf h → heap_wf (fst (Zero h)) ∧ ext h (fst (Zero h)).
Proof.
  intros W. split; [by apply wf_push_sig|]. apply ext_push_sig.
Qed.

Lemma sched_spec i first w :
  world_wf w →
  ∃ w', sched i first w = Some w' ∧ world_wf w' ∧ ext (heap w) (heap w') ∧
    length (pool w') = length (pool w).
Proof.
  intros [W P]. unfold sched. destruct (pool w !! i) as [g|] eqn:Hg.
  - pose proof (Forall_lookup_1 _ _ _ _ P Hg) as G.
    destruct (gstep_spec g first _ W G) as (h' & g' & -> & W' & X & G'). simpl.
    eexists. split_and!; [done| |done|simpl; by rewrite length_insert].
    split; [done|]. simpl. apply Forall_insert; [|done].
    by eapply Forall_g_ok_ext.
  - exists w. split_and!; [done|done|apply ext_refl|done].
Qed.

Lemma heap_step_wf w h' :
  world_wf w → heap_wf h' → ext (heap w) h' → world_wf (mkWorld h' (pool w)).
Proof. intros [W P] W' X. split; [done|]. by eapply Forall_g_ok_ext. Qed.

Lemma Is_true_true (b : bool) : b = true → b.
Proof. by intros ->. Qed.

Lemma Promote_spec p w w' k k' :
  world_wf w → ctx_valid p (heap w) → Promote p w = (w', (k, k')) →
  world_wf w' ∧ ext (heap w) (heap w') ∧ k' = k ∧ k = length (ctxs (heap w)) ∧
  pool w' = pool w ++ [GPromote p k] ∧ std_canceled k (heap w') = false ∧
  sigs (heap w') = sigs (heap w) ∧ ctx_valid (CtxStd k) (heap w').
Proof.
  intros WW V E. unfold Promote in E.
  destruct (WithCancel (heap w)) as [h1 k1] eqn:EW. simplify_eq.
  destruct WW as [W P].
  destruct (WithCancel_spec _ _ _ W EW) as (W1 & X & -> & Hs & Hc & Hn).
  assert (Vk : ctx_valid (CtxStd (length (ctxs (heap w)))) h1).
  { simpl. apply bool_decide_spec. rewrite Hc, length_app. simpl. lia. }
  split_and!; try done.
  apply spawn_wf; [by apply heap_step_wf|]. simpl. split; [|done].
  by eapply ctx_valid_ext.
Qed.

(** A call on valid pointers does not panic. *)
Lemma call_spec op w :
  world_wf w → op_valid op w →
  ∃ w', call op w = Some w' ∧ world_wf w' ∧ ext (heap w) (heap w') ∧
    length (pool w) ≤ length (pool w').
Proof.
  intros WW V. pose proof WW as [W P].
  destruct op; cbn [op_valid] in V; cbn [call]; unfold on_heap.
  - destruct (New_spec _ W) as (h' & c & -> & W' & X & _). simpl.
    eexists. split_and!; [done|by apply heap_step_wf|done|done].
  - destruct (Zero_wf _ W) as [W' X].
    eexists. split_and!; [done|by apply heap_step_wf|done|done].
  - destruct (Done_spec s _ W V) as (h' & c & -> & _ & W' & X & _). simpl.
    eexists. split_and!; [done|by apply heap_step_wf|done|done].
  - destruct (Cancel_spec s _ W V) as (h' & -> & W' & X & _). simpl.
    eexists. split_and!; [done|by apply heap_step_wf|done|done].
  - eexists. split_and!; [done|by apply spawn_wf|apply ext_refl|].
    simpl. rewrite length_app. lia.
  - eexists. split_and!; [done|by apply spawn_wf|apply ext_refl|].
    simpl. rewrite length_app. lia.
  - apply andb_True in V. eexists.
    split_and!; [done|by apply spawn_wf|apply ext_refl|].
    simpl. rewrite length_app. lia.
  - destruct (Promote p w) as [w' [k k']] eqn:E.
    destruct (Promote_spec _ _ _ _ _ WW V E) as (? & ? & _ & _ & Hp & _).
    exists w'. split_and!; [done|done|done|]. rewrite Hp, length_app. lia.
  - destruct (WithCancel (heap w)) as [h' k] eqn:E.
    destruct (WithCancel_spec _ _ _ W E) as (W' & X & _).
    eexists. split_and!; [done|by apply heap_step_wf|done|done].
  - destruct (std_cancel_spec k _ W V) as (h' & -> & W' & X & _). simpl.
    eexists. split_and!; [done|by apply heap_step_wf|done|done].
  - eexists. split_and!; [done|by apply spawn_wf|apply ext_refl|].
    simpl. rewrite length_app. lia.
  - destruct (sched_spec i first w WW) as (w' & -> & ? & ? & Hl).
    exists w'. split_and!; [done|done|done|lia].
  - assert (X : ext (heap w) (set_now (now (heap w) + Z.max 0 dt) (heap w))).
    { apply ext_set_now. lia. }
    eexists. split_and!; [done| |exact X|done].
    apply heap_step_wf; [done|by apply wf_set_now|done].
Qed.

Lemma exec_spec op w :
  world_wf w →
  ∃ w', exec op w = Some w' ∧ world_wf w' ∧ ext (heap w) (heap w') ∧
    length (pool w) ≤ length (pool w').
Proof.
  intros WW. unfold exec. destruct (op_valid op w) eqn:V.
  - apply call_spec; [done|by apply Is_true_true].
  - exists w. split_and!; [done|done|apply ext_refl|done].
Qed.

Lemma run_spec ops w :
  world_wf w →
  ∃ w', run ops w = Some w' ∧ world_wf w' ∧ ext (heap w) (heap w') ∧
    length (pool w) ≤ length (pool w').
Proof.
  revert w. induction ops as [|op ops IH]; intros w WW; simpl.
  - exists w. split_and!; [done|done|apply ext_refl|done].
  - destruct (exec_spec op w WW) as (w1 & -> & W1 & X1 & L1). simpl.
    destruct (IH w1 W1) as (w' & -> & W' & X' & L').
    exists w'. split_and!; [done|done|by eapply ext_trans|lia].
Qed.

Lemma world_wf_empty : world_wf empty_world.
Proof. split; [apply wf_empty|constructor]. Qed.

(** ** Termination is kept, and followed goroutines exit *)


Lemma chan_ready_ext h h' ch :
  ext h h' → chan_ready ch h = true → chan_ready ch h' = true.
Proof.
  intros X. destruct ch as [c|]; [|done]. rewrite !chan_ready_Some.
  apply (ext_chan _ _ X).
Qed.

Lemma sig_chan_terminated h s ch :
  sig_chan h s ch → terminated s h = chan_ready ch h.
Proof. intros (sg & Hs & _ & <-). unfold terminated. by rewrite Hs. Qed.

Lemma terminated_sig_chan h s :
  heap_wf h → terminated s h = true → ∃ ch, sig_chan h s ch.
Proof.
  intros W (sg & c & Hs & Hd & Hc)%terminated_true.
  exists (done sg), sg. split_and!; [done| |done].
  pose proof (wf_sigs _ W _ _ Hs) as Hok. unfold sig_ok in Hok.
  destruct (make sg); [done|]. destruct Hok. congruence.
Qed.

Lemma terminated_ext h h' s :
  heap_wf h → ext h h' → terminated s h = true → terminated s h' = true.
Proof.
  intros W X T. destruct (terminated_sig_chan _ _ W T) as [ch Hch].
  rewrite (sig_chan_terminated _ _ _ Hch) in T.
  rewrite (sig_chan_terminated h' s ch) by by eapply sig_chan_ext.
  by eapply chan_ready_ext.
Qed.

Lemma ctx_chan_terminated h p ch :
  ctx_chan h p ch → ctx_terminated p h = chan_ready ch h.
Proof.
  destruct p as [s|k|]; simpl.
  - apply sig_chan_terminated.
  - intros (cc & Hk & ->). unfold std_canceled. by rewrite Hk.
  - by intros ->.
Qed.

Lemma std_canceled_ext h h' k :
  ext h h' → std_canceled k h = true → std_canceled k h' = true.
Proof.
  intros X. unfold std_canceled. destruct (ctxs h !! k) as [cc|] eqn:Hk; [|done].
  destruct (ext_ctx _ _ X _ _ Hk) as (cc' & -> & -> & _).
  by apply chan_ready_ext.
Qed.

Lemma ctx_terminated_ext h h' p :
  heap_wf h → ext h h' → ctx_terminated p h = true → ctx_terminated p h' = true.
Proof.
  intros W X. destruct p as [s|k|]; simpl;
    [by apply terminated_ext|by apply std_canceled_ext|done].
Qed.

Lemma stage_ext g0 g h h' :
  heap_wf h → ext h h' → stage g0 g h → stage g0 g h'.
Proof.
  intros W X. destruct g0, g; simpl; try done;
    eauto using terminated_ext, std_canceled_ext.
  intros [-> ?]. eauto using ctx_terminated_ext.
Qed.

Lemma fires_ext g h h' : heap_wf h → ext h h' → fires g h → fires g h'.
Proof.
  intros W X. pose proof (ext_now _ _ X).
  destruct g; simpl; try done;
    (intros [?|?]; [left|right]);
    eauto using terminated_ext, std_canceled_ext, chan_ready_ext, ctx_terminated_ext;
    lia.
Qed.

(** *** The clock moves only by [tick] *)

Lemma init_now s h h' : init s h = Some h' → now h' = now h.
Proof.
  unfold init. destruct (sigs h !! s) as [sg|]; simpl; [|done].
  destruct (make sg); by intros [= <-].
Qed.

Lemma chan_close_now ch h h' : chan_close ch h = Some h' → now h' = now h.
Proof.
  unfold chan_close. destruct ch as [c|]; [|done].
  destruct (chans h !! c) as [[]|]; try done. by intros [= <-].
Qed.

Lemma close_Do_now s h h' : close_Do s h = Some h' → now h' = now h.
Proof.
  unfold close_Do. destruct (sigs h !! s) as [sg|]; simpl; [|done].
  destruct (close sg); [by intros [= <-]|].
  destruct (chan_close (done sg) h) as [h1|] eqn:E; simpl; [|done].
  intros [= <-]. simpl. by eapply chan_close_now.
Qed.

Lemma std_cancel_now k h h' : std_cancel k h = Some h' → now h' = now h.
Proof.
  unfold std_cancel. destruct (ctxs h !! k) as [cc|]; cbn -[chan_close]; [|done].
  destruct (cerr cc); [by intros [= <-]|].
  destruct (chan_close (Some (cdone cc)) h) as [h1|] eqn:E; cbn -[chan_close]; [|done].
  intros [= <-]. simpl. by eapply chan_close_now.
Qed.

Lemma Done_now s h h' ch : Done s h = Some (h', ch) → now h' = now h.
Proof.
  unfold Done. destruct (init s h) as [h1|] eqn:E; simpl; [|done].
  destruct (sigs h1 !! s); simpl; [|done]. intros [= <- _]. by eapply init_now.
Qed.

Lemma ctx_Done_now p h h' ch : ctx_Done p h = Some (h', ch) → now h' = now h.
Proof.
  destruct p as [s|k|]; simpl.
  - apply Done_now.
  - destruct (ctxs h !! k); simpl; [|done]. by intros [= <- _].
  - by intros [= <- _].
Qed.

Lemma gstep_now g b h h' g' : gstep g b h = Some (h', g') → now h' = now h.
Proof.
  destruct g; simpl; try (by intros [= <- _]).
  - destruct (Done sig h) as [[h1 ch]|] eqn:E; simpl; [|done].
    intros [= <- _]. by eapply Done_now.
  - destruct (ctx_Done parent h) as [[h1 ch]|] eqn:E; simpl; [|done].
    intros [= <- _]. by eapply ctx_Done_now.
  - destruct (Done sig h) as [[h1 ch]|] eqn:E; simpl; [|done].
    intros [= <- _]. by eapply Done_now.
  - destruct (ctx_Done ctx h) as [[h1 ch]|] eqn:E; simpl; [|done].
    intros [= <- _]. by eapply ctx_Done_now.
  - destruct (ctxs h !! std); simpl; [|done]. by intros [= <- _].
  - destruct (init sig h) as [h1|] eqn:E; simpl; [|done].
    intros [= <- _]. by eapply init_now.
  - destruct (close_Do sig h) as [h1|] eqn:E; simpl; [|done].
    intros [= <- _]. by eapply close_Do_now.
  - destruct (std_cancel std h) as [h1|] eqn:E; simpl; [|done].
    intros [= <- _]. by eapply std_cancel_now.
Qed.

(** *** One step of a followed goroutine *)

Lemma select_cases {A} ra rb first (a b bl : A) :
  select ra rb first a b bl = a ∧ ra = true ∨
  select ra rb first a b bl = b ∧ rb = true ∨
  select ra rb first a b bl = bl ∧ ra = false ∧ rb = false.
Proof. unfold select. destruct ra, rb, first; simpl; auto. Qed.

Lemma timer_ready_le f h : timer_ready f h = true ↔ (f ≤ now h)%Z.
Proof. unfold timer_ready. apply Z.leb_le. Qed.

Ltac by_stage g0 := destruct g0; simpl in *; intuition congruence.

Lemma gstep_stage g0 g b h h' g' :
  heap_wf h → g_ok h g → stage g0 g h → gstep g b h = Some (h', g') →
  stage g0 g' h'.
Proof.
  intros W G S E. destruct g; cbn [g_ok gstep] in *.
  - simplify_eq. by_stage g0.
  - destruct (Done_spec _ _ W G) as (h1 & c & E1 & _). rewrite E1 in E.
    simplify_eq/=. by_stage g0.
  - simplify_eq.
    destruct (select_cases (timer_ready fire h') (chan_ready ch h') b
                (GCancel sig) GExit (GTimeoutSelect sig fire ch))
      as [[-> _]|[[-> R]|[-> _]]]; [by_stage g0| |done].
    rewrite <- (sig_chan_terminated _ _ _ G) in R. by_stage g0.
  - destruct G as [G1 G2].
    destruct (ctx_Done_spec _ _ W G2) as (h1 & c & E1 & _). rewrite E1 in E.
    simplify_eq/=. by_stage g0.
  - destruct G as [G1 G2].
    destruct (Done_spec _ _ W G1) as (h1 & c & E1 & _). rewrite E1 in E.
    simplify_eq/=. by_stage g0.
  - destruct G as [G1 G2]. simplify_eq.
    destruct (select_cases (chan_ready pch h') (chan_ready ch h') b
                (GCancel sig) GExit (GPropagateSelect sig parent pch ch))
      as [[-> _]|[[-> R]|[-> _]]]; [by_stage g0| |done].
    rewrite <- (sig_chan_terminated _ _ _ G1) in R. by_stage g0.
  - destruct G as [G1 G2].
    destruct (ctx_Done_spec _ _ W G1) as (h1 & c & E1 & _). rewrite E1 in E.
    simplify_eq/=. by_stage g0.
  - destruct G as [G1 G2].
    destruct (ctx_Done_spec (CtxStd std) _ W G2) as (h1 & c & E1 & _).
    rewrite E1 in E. simplify_eq/=. by_stage g0.
  - destruct G as [G1 G2]. simplify_eq.
    destruct (select_cases (chan_ready sch h') (chan_ready dch h') b
                (GStdCancel std) GExit (GPromoteSelect ctx std sch dch))
      as [[-> R]|[[-> R]|[-> _]]]; [| |done].
    + rewrite <- (ctx_chan_terminated _ _ _ G1) in R. by_stage g0.
    + rewrite <- (ctx_chan_terminated _ (CtxStd std) _ G2) in R.
      cbn [ctx_terminated] in R. by_stage g0.
  - destruct (init sig h) as [h1|] eqn:E1; simplify_eq/=. by_stage g0.
  - destruct G as [ch G].
    destruct (close_Do_spec _ _ _ W G) as (h1 & E1 & _ & _ & T). rewrite E1 in E.
    simplify_eq/=. by_stage g0.
  - destruct (std_cancel_spec _ _ W G) as (h1 & E1 & _ & _ & T & _). rewrite E1 in E.
    simplify_eq/=. by_stage g0.
  - simplify_eq. done.
Qed.

Lemma when_nonpos d h : (d ≤ 0)%Z → when d h = now h.
Proof. intros. unfold when. by rewrite (proj2 (Z.leb_le d 0)). Qed.

Lemma gstep_fires g b h h' g' :
  heap_wf h → g_ok h g → fires g h → gstep g b h = Some (h', g') →
  fires g' h' ∧ steps_left g' ≤ pred (steps_left g).
Proof.
  intros W G F E. destruct g; cbn [g_ok gstep fires] in *.
  - simplify_eq. split; [|simpl; lia]. simpl.
    destruct F as [F|F]; [left|by right]. rewrite when_nonpos by done. lia.
  - destruct (Done_spec _ _ W G) as (h1 & c & E1 & _ & _ & X & C). rewrite E1 in E.
    simplify_eq/=. split; [|lia]. pose proof (ext_now _ _ X).
    destruct F as [F|F]; [left; lia|right].
    rewrite <- (sig_chan_terminated _ _ _ C). by eapply terminated_ext.
  - simplify_eq. rewrite <- timer_ready_le in F.
    destruct (select_cases (timer_ready fire h') (chan_ready ch h') b
                (GCancel sig) GExit (GTimeoutSelect sig fire ch))
      as [[-> _]|[[-> _]|[_ [R1 R2]]]]; [simpl; split; [done|lia]..|].
    destruct F; congruence.
  - destruct G as [G1 G2].
    destruct (ctx_Done_spec _ _ W G2) as (h1 & c & E1 & _ & X & C). rewrite E1 in E.
    simplify_eq/=. split; [|lia].
    destruct F as [F|F]; [left|right; by eapply terminated_ext].
    rewrite <- (ctx_chan_terminated _ _ _ C). by eapply ctx_terminated_ext.
  - destruct G as [G1 G2].
    destruct (Done_spec _ _ W G1) as (h1 & c & E1 & _ & _ & X & C). rewrite E1 in E.
    simplify_eq/=. split; [|lia].
    destruct F as [F|F]; [left; by eapply chan_ready_ext|right].
    rewrite <- (sig_chan_terminated _ _ _ C). by eapply terminated_ext.
  - simplify_eq.
    destruct (select_cases (chan_ready pch h') (chan_ready ch h') b
                (GCancel sig) GExit (GPropagateSelect sig parent pch ch))
      as [[-> _]|[[-> _]|[_ [R1 R2]]]]; [simpl; split; [done|lia]..|].
    destruct F; congruence.
  - destruct G as [G1 G2].
    destruct (ctx_Done_spec _ _ W G1) as (h1 & c & E1 & _ & X & C). rewrite E1 in E.
    simplify_eq/=. split; [|lia].
    destruct F as [F|F]; [left|right; by eapply std_canceled_ext].
    rewrite <- (ctx_chan_terminated _ _ _ C). by eapply ctx_terminated_ext.
  - destruct G as [G1 G2].
    destruct (ctx_Done_spec (CtxStd std) _ W G2) as (h1 & c & E1 & _ & X & C).
    rewrite E1 in E. simplify_eq/=. split; [|lia].
    destruct F as [F|F]; [left; by eapply chan_ready_ext|right].
    rewrite <- (ctx_chan_terminated _ (CtxStd std) _ C).
    by eapply std_canceled_ext.
  - simplify_eq.
    destruct (select_cases (chan_ready sch h') (chan_ready dch h') b
                (GStdCancel std) GExit (GPromoteSelect ctx std sch dch))
      as [[-> _]|[[-> _]|[_ [R1 R2]]]]; [simpl; split; [done|lia]..|].
    destruct F; congruence.
  - destruct (init sig h) as [h1|] eqn:E1; simplify_eq/=. split; [done|lia].
  - destruct (close_Do sig h) as [h1|] eqn:E1; simplify_eq/=. split; [done|lia].
  - destruct (std_cancel std h) as [h1|] eqn:E1; simplify_eq/=. split; [done|lia].
  - simplify_eq. split; [done|simpl; lia].
Qed.

(** *** A followed goroutine in a run *)

Lemma sched_lookup i j b w w' g :
  sched j b w = Some w' → pool w !! i = Some g →
  ∃ g', pool w' !! i = Some g' ∧
    (i ≠ j ∧ g' = g ∨
     i = j ∧ ∃ h', gstep g b (heap w) = Some (h', g') ∧ heap w' = h').
Proof.
  intros E Hi. unfold sched in E. destruct (pool w !! j) as [gj|] eqn:Hj.
  - destruct (gstep gj b (heap w)) as [[h' g']|] eqn:Eg; simplify_eq/=.
    destruct (decide (i = j)) as [->|N].
    + exists g'. rewrite list_lookup_insert_eq by by eapply lookup_lt_Some.
      split; [done|]. right. split; [done|]. simplify_eq. eauto.
    + exists g. rewrite list_lookup_insert_ne by done. eauto.
  - simplify_eq. exists g. split; [done|]. left. split; [|done].
    intros ->. congruence.
Qed.

Lemma on_heap_pool f w w' : on_heap f w = Some w' → pool w' = pool w.
Proof.
  unfold on_heap. destruct (f (heap w)); simpl; [|done]. by intros [= <-].
Qed.

Lemma exec_lookup op i w w' g :
  exec op w = Some w' → pool w !! i = Some g →
  (∀ b, op ≠ OpSched i b) → pool w' !! i = Some g.
Proof.
  intros E Hi N. unfold exec, call in E. destruct (op_valid op w); [|by simplify_eq].
  destruct op; cbn [Timeout Deadline Propagate spawn fst] in E;
    try (apply on_heap_pool in E; by rewrite E);
    try (simplify_eq; simpl; by apply lookup_app_l_Some);
    try (by simplify_eq).
  destruct (sched_lookup _ _ _ _ _ _ E Hi) as (g' & Hg & [[_ ->]|[-> _]]); [done|].
  by destruct (N first).
Qed.

Lemma exec_sched_or op i :
  (∃ b, op = OpSched i b) ∨ (∀ b, op ≠ OpSched i b).
Proof.
  destruct op; try (right; intros; discriminate).
  destruct (decide (i0 = i)) as [->|N]; [left; eauto|right; congruence].
Qed.

Lemma exec_follows g0 i op w w' :
  world_wf w → follows g0 i w → exec op w = Some w' → follows g0 i w'.
Proof.
  intros WW (g & Hi & S) E. pose proof WW as [W P].
  destruct (exec_spec op w WW) as (w1 & E1 & _ & X & _).
  rewrite E in E1. simplify_eq.
  destruct (exec_sched_or op i) as [[b ->]|N].
  - cbn in E. destruct (sched_lookup i i b _ _ _ E Hi)
      as (g' & Hg & [[? _]|[_ (h' & Eg & <-)]]); [done|].
    exists g'. split; [done|]. eapply gstep_stage; [done| |done..].
    by eapply Forall_lookup_1.
  - exists g. split;
      [exact (exec_lookup _ _ _ _ _ E Hi N)|exact (stage_ext _ _ _ _ W X S)].
Qed.

Lemma exec_bound i n op w w' :
  world_wf w → bound i n w → exec op w = Some w' →
  bound i (n - count_sched i [op]) w'.
Proof.
  intros WW (g & Hi & F & L) E. pose proof WW as [W P].
  destruct (exec_spec op w WW) as (w1 & E1 & _ & X & _).
  rewrite E in E1. simplify_eq.
  destruct (exec_sched_or op i) as [[b ->]|N].
  - cbn in E. destruct (sched_lookup i i b _ _ _ E Hi)
      as (g' & Hg & [[? _]|[_ (h' & Eg & <-)]]); [done|].
    destruct (gstep_fires g b _ _ _ W (Forall_lookup_1 _ _ _ _ P Hi) F Eg) as [F' L'].
    exists g'. split_and!; [done|done|]. simpl. rewrite decide_True by done. lia.
  - exists g. split_and!;
      [exact (exec_lookup _ _ _ _ _ E Hi N)|exact (fires_ext _ _ _ W X F)|].
    destruct op; simpl; try lia. rewrite decide_False; [lia|].
    intros ->. by destruct (N first).
Qed.

Lemma run_follows g0 i ops w w' :
  world_wf w → follows g0 i w → run ops w = Some w' → follows g0 i w'.
Proof.
  revert w. induction ops as [|op ops IH]; intros w WW F E; simpl in E.
  - by simplify_eq.
  - destruct (exec_spec op w WW) as (w1 & E1 & W1 & _). rewrite E1 in E. simpl in E.
    apply (IH w1); [done| |done]. by apply (exec_follows g0 i op w w1).
Qed.

Lemma run_bound i n ops w w' :
  world_wf w → bound i n w → run ops w = Some w' →
  bound i (n - count_sched i ops) w'.
Proof.
  revert w n. induction ops as [|op ops IH]; intros w n WW B E; simpl in E.
  - simplify_eq. simpl. by rewrite Nat.sub_0_r.
  - destruct (exec_spec op w WW) as (w1 & E1 & W1 & _). rewrite E1 in E. simpl in E.
    pose proof (exec_bound _ _ _ _ _ WW B E1) as B1.
    pose proof (IH _ _ W1 B1 E) as (g & ? & ? & L).
    exists g. split_and!; [done|done|].
    assert (count_sched i (op :: ops) = count_sched i [op] + count_sched i ops)
      as -> by (destruct op; simpl; lia).
    lia.
Qed.

Lemma steps_left_0 g : steps_left g = 0 → g = GExit.
Proof. by destruct g. Qed.

Lemma run_exits g0 i ops w w' :
  world_wf w → follows g0 i w → bound i (count_sched i ops) w →
  run ops w = Some w' →
  exited i w' = true ∧ stage g0 GExit (heap w').
Proof.
  intros WW F B E.
  destruct (run_follows _ _ _ _ _ WW F E) as (g & Hg & S).
  destruct (run_bound _ _ _ _ _ WW B E) as (g' & Hg' & _ & L).
  simplify_eq. rewrite Nat.sub_diag in L.
  assert (g = GExit) as -> by (apply steps_left_0; lia).
  split; [|done]. unfold exited. by rewrite Hg.
Qed.

(** ** What an operation leaves alone *)

Lemma chan_ready_snoc ch h h' :
  chans h' = chans h ++ [false] → chan_ready ch h' = chan_ready ch h.
Proof.
  intros E. destruct ch as [c|]; [|done]. unfold chan_ready. rewrite E.
  apply ready_snoc.
Qed.

Lemma chan_ready_insert_ne ch c h h' :
  chans h' = <[c := true]> (chans h) → ch ≠ Some c →
  chan_ready ch h' = chan_ready ch h.
Proof.
  intros E N. destruct ch as [c'|]; [|done]. unfold chan_ready. rewrite E.
  rewrite list_lookup_insert_ne; [done|congruence].
Qed.

Lemma init_frame s h h' p :
  heap_wf h → init s h = Some h' →
  ctx_terminated p h' = ctx_terminated p h ∧ ctxs h' = ctxs h.
Proof.
  intros W E. destruct (sigs h !! s) as [sg|] eqn:Hs;
    [|unfold init in E; by rewrite Hs in E].
  rewrite (init_eq _ _ _ Hs) in E. destruct (make sg) eqn:Hm; simplify_eq; [done|].
  split; [|done]. pose proof (wf_sigs _ W _ _ Hs) as Hok. unfold sig_ok in Hok.
  rewrite Hm in Hok. destruct Hok as [Hd Hc].
  destruct p as [s'|k|]; simpl; [|unfold std_canceled; simpl|done].
  - unfold terminated. simpl. destruct (decide (s' = s)) as [->|N].
    + rewrite list_lookup_insert_eq by by eapply lookup_lt_Some.
      rewrite Hs, Hd. simpl. unfold chan_ready. simpl.
      apply bool_decide_eq_false. by rewrite list_lookup_middle.
    + rewrite list_lookup_insert_ne by done.
      destruct (sigs h !! s') as [sg'|]; [|done].
      by apply chan_ready_snoc.
  - destruct (ctxs h !! k) as [cc|]; [|done]. by apply chan_ready_snoc.
Qed.

Lemma close_Do_frame s h h' p :
  heap_wf h → sig_valid s h → close_Do s h = Some h' → p ≠ CtxSignal s →
  ctx_terminated p h' = ctx_terminated p h ∧ ctxs h' = ctxs h.
Proof.
  intros W [sg Hs]%sig_valid_is_Some E N. unfold close_Do in E. rewrite Hs in E.
  simpl in E. destruct (close sg) eqn:Hcl; [by simplify_eq|].
  destruct (done sg) as [c|] eqn:Hd; [|done]. simpl in E.
  destruct (chans h !! c) as [[]|] eqn:Hc; simplify_eq/=.
  split; [|done]. destruct p as [s'|k|]; simpl; [|unfold std_canceled; simpl|done].
  - assert (s' ≠ s) by congruence. unfold terminated. simpl.
    rewrite list_lookup_insert_ne by done.
    destruct (sigs h !! s') as [sg'|] eqn:Hs'; [|done].
    apply (chan_ready_insert_ne _ c); [done|]. intros Hd'.
    by pose proof (wf_sig_inj _ W _ _ _ _ _ Hs' Hs Hd' Hd).
  - destruct (ctxs h !! k) as [cc|] eqn:Hk; [|done].
    apply (chan_ready_insert_ne _ c); [done|]. intros [= <-].
    by eapply (wf_sig_ctx _ W).
Qed.

Lemma std_cancel_frame k h h' p :
  heap_wf h → std_cancel k h = Some h' → p ≠ CtxStd k →
  ctx_terminated p h' = ctx_terminated p h ∧ sigs h' = sigs h.
Proof.
  intros W E N. unfold std_cancel in E.
  destruct (ctxs h !! k) as [cc|] eqn:Hk; [|done]. cbn -[chan_close] in E.
  destruct (cerr cc) eqn:He; [by simplify_eq|]. simpl in E.
  destruct (chans h !! cdone cc) as [[]|] eqn:Hc; simplify_eq/=.
  split; [|done]. destruct p as [s|k'|]; simpl; [unfold terminated; simpl| |done].
  - destruct (sigs h !! s) as [sg|] eqn:Hs; [|done].
    apply (chan_ready_insert_ne _ (cdone cc)); [done|]. by eapply (wf_sig_ctx _ W).
  - assert (k' ≠ k) by congruence. unfold std_canceled. simpl.
    rewrite list_lookup_insert_ne by done.
    destruct (ctxs h !! k') as [cc'|] eqn:Hk'; [|done].
    apply (chan_ready_insert_ne _ (cdone cc)); [done|]. intros [= E'].
    by pose proof (wf_ctx_inj _ W _ _ _ _ Hk' Hk E').
Qed.

Lemma Done_frame s h h' ch p :
  heap_wf h → Done s h = Some (h', ch) →
  ctx_terminated p h' = ctx_terminated p h ∧ ctxs h' = ctxs h.
Proof.
  intros W E. unfold Done in E. destruct (init s h) as [h1|] eqn:Ei; [|done].
  simpl in E. destruct (sigs h1 !! s); simplify_eq/=. by eapply init_frame.
Qed.

Lemma ctx_Done_frame q h h' ch p :
  heap_wf h → ctx_Done q h = Some (h', ch) →
  ctx_terminated p h' = ctx_terminated p h ∧ ctxs h' = ctxs h.
Proof.
  intros W E. destruct q as [s|k|]; simpl in E.
  - by eapply Done_frame.
  - destruct (ctxs h !! k); by simplify_eq/=.
  - by simplify_eq.
Qed.

Lemma Cancel_frame s h h' p :
  heap_wf h → Cancel s h = Some h' → p ≠ CtxSignal s →
  ctx_terminated p h' = ctx_terminated p h ∧ ctxs h' = ctxs h.
Proof.
  intros W E N. unfold Cancel in E. destruct (init s h) as [h1|] eqn:Ei; [|done].
  simpl in E. destruct (init_frame _ _ _ p W Ei) as [<- <-].
  destruct (init_sig_chan _ _ _ Ei) as [ch C].
  eapply close_Do_frame; [by eapply init_wf|by eapply sig_chan_valid|done..].
Qed.

Lemma g_ok_owner_valid h g s : g_ok h g → owner g = Some s → sig_valid s h.
Proof.
  destruct g; simpl; intros G [= <-]; try done;
    try (by destruct G); try (by eapply sig_chan_valid).
  - destruct G as [G _]. by eapply sig_chan_valid.
  - destruct G as [ch G]. by eapply sig_chan_valid.
Qed.

Lemma gstep_frame g b h h' g' c p :
  heap_wf h → g_ok h g → owner g = Some c → p ≠ CtxSignal c →
  gstep g b h = Some (h', g') →
  ctx_terminated p h' = ctx_terminated p h ∧ ctxs h' = ctxs h.
Proof.
  intros W G O N E. pose proof (g_ok_owner_valid _ _ _ G O) as V.
  destruct g; simpl in O; simplify_eq; cbn [gstep] in E.
  - by simplify_eq.
  - destruct (Done c h) as [[h1 ch]|] eqn:E1; simplify_eq/=. by eapply Done_frame.
  - by simplify_eq.
  - destruct (ctx_Done parent h) as [[h1 ch]|] eqn:E1; simplify_eq/=.
    by eapply ctx_Done_frame.
  - destruct (Done c h) as [[h1 ch]|] eqn:E1; simplify_eq/=. by eapply Done_frame.
  - by simplify_eq.
  - destruct (init c h) as [h1|] eqn:E1; simplify_eq/=. by eapply init_frame.
  - destruct (close_Do c h) as [h1|] eqn:E1; simplify_eq/=. by eapply close_Do_frame.
Qed.

(** A goroutine that runs a method of [c] goes on running it, or exits. *)
Lemma gstep_owner g b h h' g' c :
  owner g = Some c → gstep g b h = Some (h', g') →
  owner g' = Some c ∨ g' = GExit.
Proof.
  intros O E. destruct g; simpl in O; simplify_eq; cbn [gstep] in E.
  - simplify_eq. by left.
  - destruct (Done c h) as [[h1 ch]|]; simplify_eq/=. by left.
  - simplify_eq. apply (select_ind (λ g, owner g = Some c ∨ g = GExit)); auto.
  - destruct (ctx_Done parent h) as [[h1 ch]|]; simplify_eq/=. by left.
  - destruct (Done c h) as [[h1 ch]|]; simplify_eq/=. by left.
  - simplify_eq. apply (select_ind (λ g, owner g = Some c ∨ g = GExit)); auto.
  - destruct (init c h) as [h1|]; simplify_eq/=. by left.
  - destruct (close_Do c h) as [h1|]; simplify_eq/=. by right.
Qed.

Lemma child_pool_spawn c i0 n1 g w :
  child_pool c i0 n1 w → owner g = Some c → child_pool c i0 n1 (spawn g w).
Proof.
  intros C O i g' L [[_ Hg]|[_ <-]]%lookup_snoc_Some; [by eapply C|by left].
Qed.

(** An operation of the child leaves the parent as it is, and the goroutines
    that were the child's still are. *)
Lemma child_exec_frame c i0 n1 op w w' p :
  world_wf w → child_pool c i0 n1 w → child_only c i0 n1 op = true →
  p ≠ CtxSignal c → exec op w = Some w' →
  ctx_terminated p (heap w') = ctx_terminated p (heap w) ∧ child_pool c i0 n1 w'.
Proof.
  intros [W P] C O N E. unfold exec, call in E.
  destruct (op_valid op w); [|by simplify_eq].
  destruct op; simpl in O; try done;
    try (apply bool_decide_eq_true in O); unfold on_heap in E;
    cbn [Timeout Deadline Propagate fst] in E.
  - destruct (Done s (heap w)) as [[h1 ch]|] eqn:E1; simplify_eq/=.
    split; [exact (proj1 (Done_frame _ _ _ _ p W E1))|done].
  - destruct (Cancel s (heap w)) as [h1|] eqn:E1; simplify_eq/=.
    split; [exact (proj1 (Cancel_frame _ _ _ p W E1 N))|done].
  - simplify_eq. split; [done|]. by apply child_pool_spawn.
  - simplify_eq. split; [done|]. by apply child_pool_spawn.
  - simplify_eq. split; [done|]. by apply child_pool_spawn.
  - simplify_eq. split; [done|]. by apply child_pool_spawn.
  - unfold sched in E. destruct (pool w !! i) as [g|] eqn:Hg; [|by simplify_eq].
    destruct (gstep g first (heap w)) as [[h1 g']|] eqn:E1; simplify_eq/=.
    destruct (C i g O Hg) as [Og| ->].
    + split.
      * exact (proj1 (gstep_frame _ _ _ _ _ _ p W (Forall_lookup_1 _ _ _ _ P Hg)
                        Og N E1)).
      * intros j gj L Hj. simpl in Hj. destruct (decide (j = i)) as [->|Nj].
        -- rewrite list_lookup_insert_eq in Hj by by eapply lookup_lt_Some.
           simplify_eq. by eapply gstep_owner.
        -- rewrite list_lookup_insert_ne in Hj by done. by eapply C.
    + cbn [gstep] in E1. simplify_eq. split; [done|].
      intros j gj L Hj. simpl in Hj. rewrite list_insert_id in Hj by done.
      by eapply C.
  - simplify_eq. split; [by destruct p|done].
Qed.

Lemma child_run_frame c i0 n1 ops w p :
  world_wf w → child_pool c i0 n1 w →
  forallb (child_only c i0 n1) ops = true → p ≠ CtxSignal c →
  ∃ w', run ops w = Some w' ∧ world_wf w' ∧
    ctx_terminated p (heap w') = ctx_terminated p (heap w).
Proof.
  intros WW C O N. revert w WW C. induction ops as [|op ops IH]; intros w WW C.
  - by exists w.
  - cbn [forallb] in O. apply andb_prop in O as [O1 O2]. cbn [run].
    destruct (exec_spec op w WW) as (w1 & E & W1 & _). rewrite E. simpl.
    destruct (child_exec_frame _ _ _ _ _ _ p WW C O1 N E) as [<- C1].
    by apply IH.
Qed.

(** ** Cancellation is final *)

Lemma Done_idem s ch h : sig_chan h s ch → Done s h = Some (h, ch).
Proof.
  intros C. unfold Done. rewrite (init_idem _ _ _ C). simpl.
  destruct C as (sg & -> & _ & <-). done.
Qed.

Lemma reachable_wf ops w : run ops empty_world = Some w → world_wf w.
Proof.
  intros E. destruct (run_spec ops _ world_wf_empty) as (w' & E' & W & _).
  congruence.
Qed.

(** C2: once a signal is terminated, every run of operations and goroutine
    steps leaves it terminated, and [Done()] then returns a closed channel. *)
Theorem terminated_absorbing w s ops :
  world_wf w → terminated s (heap w) = true →
  ∃ w' c, run ops w = Some w' ∧ terminated s (heap w') = true ∧
    Done s (heap w') = Some (heap w', Some c) ∧
    chan_ready (Some c) (heap w') = true.
Proof.
  intros WW T. pose proof WW as [W _].
  destruct (run_spec ops w WW) as (w' & E & [W' _] & X & _).
  pose proof (terminated_ext _ _ _ W X T) as T'.
  destruct (terminated_sig_chan _ _ W' T') as [ch C].
  destruct (sig_chan_Some _ _ _ W' C) as (c & _ & -> & _).
  exists w', c. split_and!; [done|done|by apply Done_idem|].
  by rewrite <- (sig_chan_terminated _ _ _ C).
Qed.

Lemma terminated_absorbing_witness :
  ∃ w' c, run [OpCancel 0; OpDone 0; OpTimeout 0 5; OpSched 0 true; OpTick 9]
              (mkWorld (mkHeap [true] [mkSignal (Some 0) true true] [] 0
                          [EvClose 0; EvMake 0]) []) = Some w' ∧
    terminated 0 (heap w') = true ∧
    Done 0 (heap w') = Some (heap w', Some c) ∧
    chan_ready (Some c) (heap w') = true.
Proof.
  apply terminated_absorbing; [|reflexivity].
  apply (reachable_wf [OpNew; OpCancel 0]). reflexivity.
Defined.

(** C4: every [Done()] on a signal returns the same non-nil channel, whatever
    ran in between, and once the signal is cancelled that channel is closed. *)
Theorem Done_same_channel w s :
  world_wf w → sig_valid s (heap w) →
  ∃ h1 c, Done s (heap w) = Some (h1, Some c) ∧
    ∀ ops, ∃ w2, run ops (mkWorld h1 (pool w)) = Some w2 ∧
      Done s (heap w2) = Some (heap w2, Some c) ∧
      terminated s (heap w2) = chan_ready (Some c) (heap w2) ∧
      (∀ sg, sigs (heap w2) !! s = Some sg → close sg = true →
         chan_ready (Some c) (heap w2) = true).
Proof.
  intros WW V. pose proof WW as [W P].
  destruct (Done_spec s _ W V) as (h1 & c & E & _ & W1 & X1 & C1).
  exists h1, c. split; [done|]. intros ops.
  assert (WW1 : world_wf (mkWorld h1 (pool w))) by by apply heap_step_wf.
  destruct (run_spec ops _ WW1) as (w2 & E2 & [W2 _] & X2 & _).
  pose proof (sig_chan_ext _ _ _ _ X2 C1) as C2.
  exists w2. split_and!; [done|by apply Done_idem|by apply sig_chan_terminated|].
  intros sg Hs Hc. destruct (sig_chan_Some _ _ _ W2 C2) as (c' & sg' & ? & ? & ? & _ & R).
  simplify_eq. apply chan_ready_Some. by rewrite R, Hc.
Qed.

Lemma Done_same_channel_witness :
  ∃ h1 c, Done 0 (mkHeap [] [mkSignal None false false] [] 0 []) = Some (h1, Some c) ∧
    ∀ ops, ∃ w2, run ops (mkWorld h1 []) = Some w2 ∧
      Done 0 (heap w2) = Some (heap w2, Some c) ∧
      terminated 0 (heap w2) = chan_ready (Some c) (heap w2) ∧
      (∀ sg, sigs (heap w2) !! 0 = Some sg → close sg = true →
         chan_ready (Some c) (heap w2) = true).
Proof.
  apply (Done_same_channel (mkWorld (mkHeap [] [mkSignal None false false] [] 0 []) []));
    [|reflexivity].
  apply (reachable_wf [OpZero]). reflexivity.
Defined.

(** ** Construction *)

Lemma New_as_Zero h : New h = (λ h1, (h1, snd (Zero h))) <$> init (snd (Zero h)) (fst (Zero h)).
Proof. unfold New, Zero. simpl. by destruct (init _ _). Qed.

(** C3, as the spec states it, fails: [New] does not leave the notifier to the
    first access; on the empty heap it returns a signal whose channel exists. *)
Lemma New_not_deferred :
  New empty_heap =
    Some (mkHeap [false] [mkSignal (Some 0) true false] [] 0 [EvMake 0], 0) ∧
  ¬ (∃ h' s, New empty_heap = Some (h', s) ∧
       sigs h' !! s = Some (mkSignal None false false) ∧ chans h' = []).
Proof.
  split; [reflexivity|]. intros (h' & s & E & Hs & _).
  vm_compute in E. by simplify_eq.
Qed.

Lemma New_eager h :
  heap_wf h →
  ∃ h' c, New h = Some (h', length (sigs h)) ∧
    c = length (chans h) ∧
    sigs h' = sigs h ++ [mkSignal (Some c) true false] ∧
    chans h' = chans h ++ [false] ∧
    ctxs h' = ctxs h ∧ now h' = now h ∧ log h' = EvMake c :: log h ∧
    terminated (length (sigs h)) h' = false ∧
    init (length (sigs h)) h' = Some h' ∧
    Done (length (sigs h)) h' = Some (h', Some c).
Proof.
  intros W. destruct (New_spec h W) as (h' & c & E & W' & X & Hs & Hc & -> & Hx & Hl).
  assert (C : sig_chan h' (length (sigs h)) (Some (length (chans h)))).
  { eexists. rewrite Hs. split; [by apply list_lookup_middle|done]. }
  exists h', (length (chans h)). split_and!; try done.
  - unfold New in E. destruct (init _ _) as [h1|] eqn:E1; simplify_eq/=.
    by apply init_now in E1.
  - rewrite (sig_chan_terminated _ _ _ C). unfold chan_ready.
    apply bool_decide_eq_false. rewrite Hc, list_lookup_middle by done. done.
  - by eapply init_idem.
  - by apply Done_idem.
Qed.

(** C3, amended: [New] runs [init] itself.  The signal it returns is pending
    and holds a fresh open channel; the [init] that a later [Done()] or
    [Cancel()] runs finds the notifier made and changes nothing; and
    construction touches no other signal, context or channel. *)
Theorem New_initialises h :
  heap_wf h →
  ∃ h' c, New h = Some (h', length (sigs h)) ∧
    c = length (chans h) ∧
    sigs h' = sigs h ++ [mkSignal (Some c) true false] ∧
    chans h' = chans h ++ [false] ∧
    ctxs h' = ctxs h ∧ now h' = now h ∧ log h' = EvMake c :: log h ∧
    terminated (length (sigs h)) h' = false ∧
    init (length (sigs h)) h' = Some h' ∧
    Done (length (sigs h)) h' = Some (h', Some c).
Proof. apply New_eager. Qed.

Lemma New_initialises_witness :
  ∃ h' c, New empty_heap = Some (h', length (sigs empty_heap)) ∧
    c = length (chans empty_heap) ∧
    sigs h' = sigs empty_heap ++ [mkSignal (Some c) true false] ∧
    chans h' = chans empty_heap ++ [false] ∧
    ctxs h' = ctxs empty_heap ∧ now h' = now empty_heap ∧
    log h' = EvMake c :: log empty_heap ∧
    terminated (length (sigs empty_heap)) h' = false ∧
    init (length (sigs empty_heap)) h' = Some h' ∧
    Done (length (sigs empty_heap)) h' = Some (h', Some c).
Proof. apply New_initialises. apply wf_empty. Defined.

(** C10: a zero-value signal is usable.  [Done()] and [Cancel()] each run the
    one-time initialisation, [Done()] returns a non-nil channel, and [New],
    [Done] and [Cancel] all settle on one channel for the instance, which
    every later call uses. *)
Theorem zero_value_usable h :
  heap_wf h →
  let h0 := fst (Zero h) in
  let s := snd (Zero h) in
  ∃ c hd hc,
    sigs h0 !! s = Some (mkSignal None false false) ∧
    Done s h0 = Some (hd, Some c) ∧ sig_chan hd s (Some c) ∧
    terminated s hd = false ∧
    Cancel s h0 = Some hc ∧ sig_chan hc s (Some c) ∧ terminated s hc = true ∧
    New h = Some (hd, s) ∧
    ∀ h', heap_wf h' → sig_chan h' s (Some c) →
      Done s h' = Some (h', Some c) ∧
      ∃ h'', Cancel s h' = Some h'' ∧ sig_chan h'' s (Some c) ∧
        chan_ready (Some c) h'' = true.
Proof.
  intros W h0 s.
  destruct (New_eager h W) as (hd & c & EN & -> & Hs & Hc & _ & _ & _ & T & _ & ED).
  assert (W0 : heap_wf h0) by by apply Zero_wf.
  assert (H0 : sigs h0 !! s = Some (mkSignal None false false)).
  { unfold h0, s. simpl. by apply list_lookup_middle. }
  assert (V0 : sig_valid s h0) by (apply sig_valid_is_Some; eauto).
  assert (Ei : init s h0 = Some hd).
  { rewrite New_as_Zero in EN. fold h0 s in EN.
    destruct (init s h0); by simplify_eq/=. }
  assert (Cd : sig_chan hd s (Some (length (chans h)))).
  { eexists. rewrite Hs. split; [by apply list_lookup_middle|done]. }
  destruct (Cancel_spec s h0 W0 V0) as (hc & EC & Wc & Xc & Tc).
  assert (Cc : sig_chan hc s (Some (length (chans h)))).
  { unfold Cancel in EC. rewrite Ei in EC. simpl in EC.
    destruct (close_Do_spec s _ hd (init_wf _ _ _ W0 Ei) Cd) as (h2 & E2 & _ & X2 & _).
    rewrite EC in E2. simplify_eq. by eapply sig_chan_ext. }
  exists (length (chans h)), hd, hc. split_and!; try done.
  - unfold Done. rewrite Ei. simpl. destruct Cd as (sg & -> & _ & <-). done.
  - intros h' W' C'. split; [by apply Done_idem|].
    destruct (Cancel_spec s h' W' (sig_chan_valid _ _ _ C')) as (h'' & E'' & _ & X'' & T'').
    exists h''. pose proof (sig_chan_ext _ _ _ _ X'' C') as C''.
    split_and!; [done|done|]. by rewrite <- (sig_chan_terminated _ _ _ C'').
Qed.

Lemma zero_value_usable_witness :
  ∃ c hd hc,
    sigs (fst (Zero empty_heap)) !! 0 = Some (mkSignal None false false) ∧
    Done 0 (fst (Zero empty_heap)) = Some (hd, Some c) ∧ sig_chan hd 0 (Some c) ∧
    terminated 0 hd = false ∧
    Cancel 0 (fst (Zero empty_heap)) = Some hc ∧ sig_chan hc 0 (Some c) ∧
    terminated 0 hc = true ∧
    New empty_heap = Some (hd, 0) ∧
    ∀ h', heap_wf h' → sig_chan h' 0 (Some c) →
      Done 0 h' = Some (h', Some c) ∧
      ∃ h'', Cancel 0 h' = Some h'' ∧ sig_chan h'' 0 (Some c) ∧
        chan_ready (Some c) h'' = true.
Proof. apply (zero_value_usable empty_heap). apply wf_empty. Defined.

(** ** Deadline *)

Lemma time_Sub_exact t u :
  (minDuration ≤ t - u ≤ maxDuration)%Z → time_Sub t u = (t - u)%Z.
Proof.
  intros [H1 H2]. unfold time_Sub.
  rewrite (proj2 (Z.ltb_ge _ _)) by done. by rewrite (proj2 (Z.ltb_ge _ _)).
Qed.

(** A duration cut to the range of [Duration] arms the timer that the uncut
    one would arm. *)
Lemma when_saturated t u h :
  (0 ≤ now h)%Z → when (time_Sub t u) h = when (t - u) h.
Proof.
  intros Hn. unfold when, time_Sub, minDuration, maxDuration, maxInt64.
  repeat case_match; lia.
Qed.

(** C5: [Deadline(t)] is [Timeout] of the duration that remains until [t]: it
    returns the same signal and starts the same race.  It is [Timeout(t - now)]
    itself whenever the difference fits a [Duration]; when it does not, the
    duration is cut to the range, and the goroutine still arms the timer that
    the uncut difference would arm. *)
Theorem Deadline_is_Timeout s t w :
  Deadline s t w = Timeout s (time_Until t (heap w)) w ∧
  snd (Deadline s t w) = snd (Deadline_spec s t w) ∧
  heap (fst (Deadline s t w)) = heap (fst (Deadline_spec s t w)) ∧
  (∃ d d',
     pool (fst (Deadline s t w)) = pool w ++ [GTimeout s d] ∧
     pool (fst (Deadline_spec s t w)) = pool w ++ [GTimeout s d'] ∧
     ∀ b h, (0 ≤ now h)%Z →
       gstep (GTimeout s d) b h = gstep (GTimeout s d') b h) ∧
  ((minDuration ≤ t - now (heap w) ≤ maxDuration)%Z →
   Deadline s t w = Deadline_spec s t w).
Proof.
  split_and!; [done..| |].
  - eexists _, _. split_and!; [done..|]. intros b h Hn. cbn [gstep].
    unfold time_Until. by rewrite when_saturated.
  - intros R. unfold Deadline, Deadline_spec, time_Until.
    by rewrite time_Sub_exact.
Qed.

Lemma Deadline_is_Timeout_witness :
  Deadline 0 7 empty_world = Deadline_spec 0 7 empty_world.
Proof.
  apply (Deadline_is_Timeout 0 7 empty_world). vm_compute. split; discriminate.
Defined.

(** ** The composed operations *)

Lemma bound_mono i n m w : n ≤ m → bound i n w → bound i m w.
Proof. intros L (g & ? & ? & ?). exists g. split_and!; [done..|lia]. Qed.

Lemma spawn_lookup g w : pool (spawn g w) !! length (pool w) = Some g.
Proof. simpl. by apply list_lookup_middle. Qed.

Lemma stage_steps g0 g h : stage g0 g h → steps_left g ≤ steps_left g0.
Proof. destruct g0, g; simpl; try done; lia. Qed.

Lemma stage_fires_propagate h g c p :
  g_ok h g → stage (GPropagate c p) g h → ctx_terminated p h = true → fires g h.
Proof.
  intros G S T. destruct g; simpl in *; try done; destruct S as [-> ->].
  - by left.
  - left. destruct G as [_ G]. by rewrite <- (ctx_chan_terminated _ _ _ G).
  - left. destruct G as [_ G]. by rewrite <- (ctx_chan_terminated _ _ _ G).
Qed.

Lemma stage_fires_promote h g p k :
  g_ok h g → stage (GPromote p k) g h →
  ctx_terminated p h = true ∨ std_canceled k h = true → fires g h.
Proof.
  intros G S T. destruct g; simpl in *; try done; destruct S as [-> ->].
  - done.
  - destruct T as [T|T]; [left|by right]. destruct G as [G _].
    by rewrite <- (ctx_chan_terminated _ _ _ G).
  - destruct G as [G1 G2]. destruct T as [T|T]; [left|right].
    + by rewrite <- (ctx_chan_terminated _ _ _ G1).
    + by rewrite <- (ctx_chan_terminated _ (CtxStd k) _ G2).
Qed.

(** A followed goroutine that cannot block has exited, with its target
    terminated, once it was scheduled as often as it has steps. *)
Lemma followed_exits g0 i ops w :
  world_wf w → follows g0 i w →
  (∀ g, pool w !! i = Some g → fires g (heap w)) →
  steps_left g0 ≤ count_sched i ops →
  ∃ w', run ops w = Some w' ∧ world_wf w' ∧ exited i w' = true ∧
    stage g0 GExit (heap w').
Proof.
  intros WW F Hf L. destruct (run_spec ops w WW) as (w' & E & W' & _).
  assert (B : bound i (count_sched i ops) w).
  { destruct F as (g & Hg & S). exists g. split_and!; [done|by apply Hf|].
    apply stage_steps in S. lia. }
  destruct (run_exits g0 i ops w w' WW F B E) as [X T]. by exists w'.
Qed.

Lemma schedule_now cs w w' :
  run (schedule cs) w = Some w' → now (heap w') = now (heap w).
Proof.
  revert w. induction cs as [|[i b] cs IH]; intros w E; simpl in E.
  - by simplify_eq.
  - unfold exec in E. simpl in E. destruct (sched i b w) as [w1|] eqn:E1; [|done].
    simpl in E. rewrite (IH _ E). unfold sched in E1.
    destruct (pool w !! i) as [g|]; [|by simplify_eq].
    destruct (gstep g b (heap w)) as [[h1 g']|] eqn:Eg; simplify_eq/=.
    by eapply gstep_now.
Qed.

Lemma time_Until_past t h : (t ≤ now h)%Z → (time_Until t h ≤ 0)%Z.
Proof.
  intros L. unfold time_Until, time_Sub, minDuration, maxDuration, maxInt64.
  repeat case_match; lia.
Qed.

(** C6: a [Timeout] whose duration is not positive, and a [Deadline] that is
    not in the future, cancel the signal as soon as their goroutine has run:
    it never blocks, no time has to pass, and no run panics. *)
Theorem Timeout_elapsed_fires w s w1 :
  world_wf w → sig_valid s (heap w) →
  (∃ d, (d ≤ 0)%Z ∧ w1 = fst (Timeout s d w)) ∨
  (∃ t, (t ≤ now (heap w))%Z ∧ w1 = fst (Deadline s t w)) →
  (∀ ops, 5 ≤ count_sched (length (pool w)) ops →
     ∃ w', run ops w1 = Some w' ∧ terminated s (heap w') = true ∧
       exited (length (pool w)) w' = true) ∧
  (∀ cs, 5 ≤ count_sched (length (pool w)) (schedule cs) →
     ∃ w', run (schedule cs) w1 = Some w' ∧ terminated s (heap w') = true ∧
       now (heap w') = now (heap w)).
Proof.
  intros WW V H.
  assert (∃ d, (d ≤ 0)%Z ∧ w1 = spawn (GTimeout s d) w) as (d & Hd & ->).
  { destruct H as [(d & ? & ->)|(t & ? & ->)]; [by exists d|].
    exists (time_Until t (heap w)). split; [by apply time_Until_past|done]. }
  assert (WW1 : world_wf (spawn (GTimeout s d) w)) by by apply spawn_wf.
  assert (F : follows (GTimeout s d) (length (pool w)) (spawn (GTimeout s d) w)).
  { exists (GTimeout s d). split; [apply spawn_lookup|done]. }
  assert (Hf : ∀ g, pool (spawn (GTimeout s d) w) !! length (pool w) = Some g →
                 fires g (heap (spawn (GTimeout s d) w))).
  { intros g. rewrite spawn_lookup. intros [= <-]. by left. }
  split.
  - intros ops L.
    destruct (followed_exits _ _ ops _ WW1 F Hf L) as (w' & E & _ & X & T).
    by exists w'.
  - intros cs L.
    destruct (followed_exits _ _ _ _ WW1 F Hf L) as (w' & E & _ & X & T).
    exists w'. split_and!; [done|done|]. by rewrite (schedule_now _ _ _ E).
Qed.

Lemma Timeout_elapsed_fires_witness :
  ∃ w', run (schedule [(0, true); (0, true); (0, false); (0, true); (0, true)])
          (fst (Timeout 0 (-3) (mkWorld (mkHeap [] [mkSignal None false false] [] 8 []) [])))
        = Some w' ∧ terminated 0 (heap w') = true ∧ now (heap w') = 8%Z.
Proof.
  eapply (Timeout_elapsed_fires
            (mkWorld (mkHeap [] [mkSignal None false false] [] 8 []) []) 0).
  - apply (reachable_wf [OpZero; OpTick 8]). reflexivity.
  - reflexivity.
  - left. exists (-3)%Z. split; [lia|reflexivity].
  - simpl. lia.
Defined.

Lemma stage_owner c p g h :
  stage (GPropagate c p) g h → owner g = Some c ∨ g = GExit.
Proof.
  destruct g; simpl; try done; try (intros [-> _]; by left);
    try (intros ->; by left). by right.
Qed.

(** C7: after [c.Propagate(p)], at any point of any run: once the parent [p]
    is terminated, the child [c] is cancelled as soon as the goroutine of
    [Propagate] has run; and no operation of the child changes whether the
    parent is terminated, be it a call of a method of [c] (its cancellation
    included), a step of the goroutine of [Propagate], followed by its place
    in the pool, or a step of a goroutine that those calls start. *)
Theorem Propagate_one_way w c p :
  world_wf w → sig_valid c (heap w) → ctx_valid p (heap w) → p ≠ CtxSignal c →
  snd (Propagate c p w) = c ∧
  ∀ ops1, ∃ w2, run ops1 (fst (Propagate c p w)) = Some w2 ∧
    (ctx_terminated p (heap w2) = true →
     ∀ ops2, 5 ≤ count_sched (length (pool w)) ops2 →
       ∃ w3, run ops2 w2 = Some w3 ∧ terminated c (heap w3) = true ∧
         exited (length (pool w)) w3 = true) ∧
    (∀ ops2,
       forallb (child_only c (length (pool w)) (length (pool w2))) ops2 = true →
       ∃ w3, run ops2 w2 = Some w3 ∧
         ctx_terminated p (heap w3) = ctx_terminated p (heap w2)).
Proof.
  intros WW V Vp N. split; [done|]. cbn [Propagate fst].
  assert (WW1 : world_wf (spawn (GPropagate c p) w)) by by apply spawn_wf.
  assert (F : follows (GPropagate c p) (length (pool w)) (spawn (GPropagate c p) w)).
  { exists (GPropagate c p). split; [apply spawn_lookup|done]. }
  intros ops1. destruct (run_spec ops1 _ WW1) as (w2 & E2 & WW2 & _).
  exists w2. split; [done|].
  pose proof (run_follows _ _ _ _ _ WW1 F E2) as F2. split.
  - intros T ops2 L.
    assert (Hf : ∀ g, pool w2 !! length (pool w) = Some g → fires g (heap w2)).
    { intros g Hg. destruct F2 as (g' & Hg' & S). simplify_eq.
      destruct WW2 as [_ P2]. eapply stage_fires_propagate; [|done..].
      by eapply Forall_lookup_1. }
    destruct (followed_exits _ _ ops2 _ WW2 F2 Hf L) as (w3 & E3 & _ & X & T3).
    by exists w3.
  - intros ops2 O.
    assert (C : child_pool c (length (pool w)) (length (pool w2)) w2).
    { intros i g [->|L] Hg.
      - destruct F2 as (g' & Hg' & S). simplify_eq. by eapply stage_owner.
      - apply lookup_lt_Some in Hg. lia. }
    destruct (child_run_frame _ _ _ ops2 _ p WW2 C O N) as (w3 & E & _ & T).
    by exists w3.
Qed.

Lemma Propagate_one_way_witness :
  ∃ w3, run [OpCancel 1; OpSched 0 true; OpDone 1; OpSched 0 true;
             OpSched 0 false; OpTick 5; OpSched 0 true; OpSched 0 true]
          (fst (Propagate 1 (CtxSignal 0)
                  (mkWorld (mkHeap [false; false]
                     [mkSignal (Some 0) true false; mkSignal (Some 1) true false]
                     [] 0 [EvMake 1; EvMake 0]) []))) = Some w3 ∧
    ctx_terminated (CtxSignal 0) (heap w3) = false.
Proof.
  destruct (Propagate_one_way
              (mkWorld (mkHeap [false; false]
                 [mkSignal (Some 0) true false; mkSignal (Some 1) true false]
                 [] 0 [EvMake 1; EvMake 0]) []) 1 (CtxSignal 0)) as [_ H].
  - apply (reachable_wf [OpNew; OpNew]). reflexivity.
  - reflexivity.
  - reflexivity.
  - discriminate.
  - destruct (H []) as (w2 & E & _ & R). cbn [run] in E.
    injection E as <-. apply R. reflexivity.
Defined.

(** *** [Promote] *)

Lemma WithCancel_frame h h' k p :
  ctx_valid p h → WithCancel h = (h', k) →
  ctx_terminated p h' = ctx_terminated p h.
Proof.
  intros V [= <- <-]. destruct p as [s|k'|]; simpl; [| |done].
  - unfold terminated. simpl. destruct (sigs h !! s); [|done].
    by apply chan_ready_snoc.
  - simpl in V. apply bool_decide_spec, lookup_lt_is_Some in V. destruct V as [cc Hk].
    unfold std_canceled. simpl. rewrite (lookup_app_l_Some _ _ _ _ Hk), Hk.
    by apply chan_ready_snoc.
Qed.

Lemma ctx_valid_fresh p h : ctx_valid p h → p ≠ CtxStd (length (ctxs h)).
Proof.
  intros V ->. simpl in V. apply bool_decide_spec in V. lia.
Qed.

(** What [Promote] sets up: a pending standard context and its goroutine. *)
Lemma Promote_setup w p :
  world_wf w → ctx_valid p (heap w) →
  ∃ w1 k, Promote p w = (w1, (k, k)) ∧ k = length (ctxs (heap w)) ∧
    world_wf w1 ∧ follows (GPromote p k) (length (pool w)) w1 ∧
    pool w1 !! length (pool w) = Some (GPromote p k) ∧
    std_canceled k (heap w1) = false ∧ ctx_valid (CtxStd k) (heap w1) ∧
    ctx_terminated p (heap w1) = ctx_terminated p (heap w) ∧
    ext (heap w) (heap w1).
Proof.
  intros WW V. destruct (Promote p w) as [w1 [k k']] eqn:E.
  destruct (Promote_spec _ _ _ _ _ WW V E) as (WW1 & X & -> & -> & Hp & Hc & Hs & Vk).
  exists w1, (length (ctxs (heap w))).
  assert (Hl : pool w1 !! length (pool w) = Some (GPromote p (length (ctxs (heap w))))).
  { rewrite Hp. by apply list_lookup_middle. }
  split_and!; try done.
  - by exists (GPromote p (length (ctxs (heap w)))).
  - unfold Promote in E. destruct (WithCancel (heap w)) as [h1 k1] eqn:EW.
    simplify_eq. simpl. by eapply WithCancel_frame.
Qed.

Lemma exec_sched_step i b w g h' g' :
  pool w !! i = Some g → gstep g b (heap w) = Some (h', g') →
  exec (OpSched i b) w = Some (mkWorld h' (<[i := g']> (pool w))).
Proof. intros Hg E. unfold exec. simpl. unfold sched. by rewrite Hg, E. Qed.

Lemma insert_lookup_same {A} (l : list A) i x y :
  l !! i = Some y → <[i := x]> l !! i = Some x.
Proof. intros H. apply list_lookup_insert_eq. by eapply lookup_lt_Some. Qed.

(** With the source pending and the context canceled, a step of the goroutine
    of [Promote] changes neither, and the goroutine never reaches the call of
    [cancel]. *)
Lemma promote_pending_step g b h h' g' p k :
  heap_wf h → g_ok h g → stage (GPromote p k) g h →
  ctx_terminated p h = false → std_canceled k h = true →
  gstep g b h = Some (h', g') →
  ctx_terminated p h' = false ∧ ctxs h' = ctxs h ∧
  (g' = GExit ∨ steps_left g' ≤ pred (steps_left g) ∧ 2 ≤ steps_left g').
Proof.
  intros W G S Tp Tk E.
  destruct g; cbn [stage] in S; try done; cbn [g_ok gstep] in *.
  - destruct S as [-> ->]. destruct G as [G1 G2].
    destruct (ctx_Done_spec _ _ W G1) as (h1 & c & E1 & _). rewrite E1 in E.
    cbn in E. simplify_eq. destruct (ctx_Done_frame _ _ _ _ p W E1) as [-> ->].
    split_and!; [done..|]. right. simpl. lia.
  - destruct S as [-> ->]. destruct G as [G1 G2].
    destruct (ctx_Done_spec (CtxStd k) _ W G2) as (h1 & c & E1 & _).
    rewrite E1 in E. cbn in E. simplify_eq.
    destruct (ctx_Done_frame (CtxStd k) _ _ _ p W E1) as [-> ->].
    split_and!; [done..|]. right. simpl. lia.
  - destruct S as [-> ->]. destruct G as [G1 G2]. simplify_eq.
    split_and!; [done..|]. left.
    rewrite (ctx_chan_terminated _ _ _ G1) in Tp.
    change (ctx_terminated (CtxStd k) h' = true) in Tk.
    rewrite (ctx_chan_terminated _ (CtxStd k) _ G2) in Tk.
    unfold select. by rewrite Tp, Tk.
  - destruct S as [_ S]. congruence.
  - simplify_eq. split_and!; [done..|]. by left.
Qed.

(** After a release with the source pending, the goroutine of [Promote]
    leaves through the second case of its [select]: three steps at most, no
    call of [cancel]. *)
Lemma promote_release_drain w i p k bs :
  world_wf w → follows (GPromote p k) i w →
  ctx_terminated p (heap w) = false → std_canceled k (heap w) = true →
  (∀ g, pool w !! i = Some g → g = GExit ∨ steps_left g ≤ length bs + 1) →
  ∃ w', run (OpSched i <$> bs) w = Some w' ∧ world_wf w' ∧
    exited i w' = true ∧ ctx_terminated p (heap w') = false ∧
    ctxs (heap w') = ctxs (heap w) ∧ ext (heap w) (heap w').
Proof.
  revert w. induction bs as [|b bs IH]; intros w WW (g & Hg & S) Tp Tk Hn.
  - exists w. split_and!; [done|done| |done|done|apply ext_refl].
    unfold exited. rewrite Hg.
    destruct (Hn g Hg) as [->|L]; [done|].
    destruct g; simpl in S, L; try done; try lia.
    destruct S as [_ S]. congruence.
  - pose proof WW as [W P].
    pose proof (Forall_lookup_1 _ _ _ _ P Hg) as G.
    destruct (gstep_spec g b _ W G) as (h' & g' & Eg & W' & X & G').
    destruct (promote_pending_step _ _ _ _ _ _ _ W G S Tp Tk Eg) as (Tp' & Hc & Hs).
    pose proof (exec_sched_step i b w g h' g' Hg Eg) as E1.
    destruct (exec_spec (OpSched i b) w WW) as (w1 & E1' & WW1 & _).
    rewrite E1 in E1'. simplify_eq.
    destruct (IH (mkWorld h' (<[i := g']> (pool w)))) as (w' & E' & WW' & Xi & T' & C' & X');
      [done| |done|by eapply std_canceled_ext| |].
    + exists g'. split; [by eapply insert_lookup_same|].
      exact (gstep_stage _ _ _ _ _ _ W G S Eg).
    + intros g1. simpl. rewrite (insert_lookup_same _ _ _ _ Hg). intros [= <-].
      destruct Hs as [->|[L _]]; [by left|].
      destruct (Hn g Hg) as [->|L']; [|right; simpl in L'; lia].
      simpl in Eg. simplify_eq. by left.
    + exists w'. cbn [fmap list_fmap run]. rewrite E1. simpl.
      split_and!; [done..|by rewrite C'|by eapply ext_trans].
Qed.

Lemma stage_steps_promote p k g h : stage (GPromote p k) g h → steps_left g ≤ 4.
Proof. intros S. by apply stage_steps in S. Qed.

Lemma std_cancel_lookup k k' h h' :
  std_cancel k' h = Some h' → k ≠ k' → ctxs h' !! k = ctxs h !! k.
Proof.
  intros E N. unfold std_cancel in E. destruct (ctxs h !! k') as [cc|]; [|done].
  cbn -[chan_close] in E. destruct (cerr cc); [by simplify_eq|].
  destruct (chan_close (Some (cdone cc)) h) as [h1|] eqn:E1; [|done].
  simpl in E. simplify_eq. simpl. rewrite list_lookup_insert_ne by done.
  simpl in E1. destruct (chans h !! cdone cc) as [[]|]; by simplify_eq.
Qed.

Lemma cancel_ctx_spec p k h :
  heap_wf h → ctx_valid p h → p ≠ CtxStd k →
  ∃ h', cancel_ctx p h = Some h' ∧ heap_wf h' ∧ ext h h' ∧
    ctxs h' !! k = ctxs h !! k.
Proof.
  intros W V N. destruct p as [s|k'|]; cbn [cancel_ctx].
  - destruct (Cancel_spec s h W V) as (h' & E & W' & X & _).
    exists h'. split_and!; [done..|].
    destruct (Cancel_frame s h h' CtxBackground W E) as [_ ->]; done.
  - destruct (std_cancel_spec k' h W V) as (h' & E & W' & X & _).
    exists h'. split_and!; [done..|]. eapply std_cancel_lookup; [done|congruence].
  - exists h. split_and!; [done|done|apply ext_refl|done].
Qed.

(** C9: the release function of [Promote] is the cancel function of the
    context it returns.  Whenever it is called, it cancels that context and
    leaves the source as it is, and the mirroring goroutine then exits. *)
Theorem release_is_cancel w p :
  world_wf w → ctx_valid p (heap w) →
  ∃ w1 k, Promote p w = (w1, (k, k)) ∧
    std_canceled k (heap w1) = false ∧
    ∀ ops1, ∃ w2, run ops1 w1 = Some w2 ∧
      ∃ h3, std_cancel k (heap w2) = Some h3 ∧ std_canceled k h3 = true ∧
        ctx_terminated p h3 = ctx_terminated p (heap w2) ∧
        ∀ ops2, 4 ≤ count_sched (length (pool w)) ops2 →
          ∃ w4, run ops2 (mkWorld h3 (pool w2)) = Some w4 ∧
            exited (length (pool w)) w4 = true ∧
            std_canceled k (heap w4) = true.
Proof.
  intros WW V.
  destruct (Promote_setup w p WW V)
    as (w1 & k & E & -> & WW1 & F & Hl & Hc & Vk & T & X1).
  exists w1, (length (ctxs (heap w))). split_and!; [done..|]. intros ops1.
  destruct (run_spec ops1 _ WW1) as (w2 & E2 & WW2 & X2 & _).
  exists w2. split; [done|]. pose proof WW2 as [W2 P2].
  pose proof (ctx_valid_ext _ _ _ X2 Vk) as Vk2.
  destruct (std_cancel_spec _ _ W2 Vk2) as (h3 & E3 & W3 & X3 & C3 & _).
  exists h3. split_and!; [done..| |].
  - eapply std_cancel_frame; [done..|]. by apply ctx_valid_fresh.
  - intros ops2 L.
    assert (WW3 : world_wf (mkWorld h3 (pool w2))) by by apply heap_step_wf.
    destruct (run_follows _ _ _ _ _ WW1 F E2) as (g & Hg & S).
    assert (F3 : follows (GPromote p (length (ctxs (heap w)))) (length (pool w))
                   (mkWorld h3 (pool w2))).
    { exists g. split; [done|]. exact (stage_ext _ _ _ _ W2 X3 S). }
    assert (Hf : ∀ g, pool (mkWorld h3 (pool w2)) !! length (pool w) = Some g →
                   fires g (heap (mkWorld h3 (pool w2)))).
    { intros g'. simpl. rewrite Hg. intros [= <-].
      eapply stage_fires_promote;
        [|exact (stage_ext _ _ _ _ W2 X3 S)|by right].
      eapply g_ok_ext; [exact X3|]. by eapply Forall_lookup_1. }
    destruct (followed_exits _ _ ops2 _ WW3 F3 Hf L) as (w4 & E4 & _ & X & T4).
    by exists w4.
Qed.

Lemma release_is_cancel_witness :
  ∃ w1 k, Promote (CtxSignal 0)
      (mkWorld (mkHeap [false] [mkSignal (Some 0) true false] [] 0 [EvMake 0]) []) = (w1, (k, k)) ∧
    std_canceled k (heap w1) = false ∧
    ∀ ops1, ∃ w2, run ops1 w1 = Some w2 ∧
      ∃ h3, std_cancel k (heap w2) = Some h3 ∧ std_canceled k h3 = true ∧
        ctx_terminated (CtxSignal 0) h3 = ctx_terminated (CtxSignal 0) (heap w2) ∧
        ∀ ops2, 4 ≤ count_sched 0 ops2 →
          ∃ w4, run ops2 (mkWorld h3 (pool w2)) = Some w4 ∧
            exited 0 w4 = true ∧ std_canceled k (heap w4) = true.
Proof.
  apply (release_is_cancel
           (mkWorld (mkHeap [false] [mkSignal (Some 0) true false] [] 0 [EvMake 0]) [])
           (CtxSignal 0)).
  - apply (reachable_wf [OpNew]). reflexivity.
  - reflexivity.
Defined.

(** C8: [Promote] returns a standard context that mirrors the source: in any
    run, once the source is terminated the context reports canceled as soon
    as the goroutine has run.  A release while the source is pending makes
    the goroutine leave through the second case of its [select], so it never
    calls [cancel]; cancelling the source afterwards does not panic and
    leaves the context as the release left it. *)
Theorem Promote_mirrors w p :
  world_wf w → ctx_valid p (heap w) →
  ∃ w1 k release, Promote p w = (w1, (k, release)) ∧
    ∀ ops1, ∃ w2, run ops1 w1 = Some w2 ∧
      (ctx_terminated p (heap w2) = true →
       ∀ ops2, 4 ≤ count_sched (length (pool w)) ops2 →
         ∃ w3, run ops2 w2 = Some w3 ∧ std_canceled k (heap w3) = true ∧
           exited (length (pool w)) w3 = true) ∧
      (ctx_terminated p (heap w2) = false →
       ∃ h3, std_cancel release (heap w2) = Some h3 ∧
         ∀ bs, 3 ≤ length bs →
           ∃ w4, run (OpSched (length (pool w)) <$> bs) (mkWorld h3 (pool w2))
                 = Some w4 ∧
             exited (length (pool w)) w4 = true ∧
             ctx_terminated p (heap w4) = false ∧
             ctxs (heap w4) = ctxs h3 ∧
             ∃ h5, cancel_ctx p (heap w4) = Some h5 ∧
               ctxs h5 !! k = ctxs h3 !! k ∧ std_canceled k h5 = true).
Proof.
  intros WW V.
  destruct (Promote_setup w p WW V)
    as (w1 & k & E & -> & WW1 & F & Hl & Hc & Vk & T & X1).
  exists w1, (length (ctxs (heap w))), (length (ctxs (heap w))).
  split; [done|]. intros ops1.
  destruct (run_spec ops1 _ WW1) as (w2 & E2 & WW2 & X2 & _).
  exists w2. split; [done|].
  pose proof (run_follows _ _ _ _ _ WW1 F E2) as F2.
  pose proof WW2 as [W2 P2]. split.
  - intros T2 ops2 L.
    assert (Hf : ∀ g, pool w2 !! length (pool w) = Some g → fires g (heap w2)).
    { intros g Hg. destruct F2 as (g' & Hg' & S). simplify_eq.
      eapply stage_fires_promote; [|done|by left].
      by eapply Forall_lookup_1. }
    destruct (followed_exits _ _ ops2 _ WW2 F2 Hf L) as (w3 & E3 & _ & X & T3).
    by exists w3.
  - intros Tp.
    pose proof (ctx_valid_fresh _ _ V) as N.
    pose proof (ctx_valid_ext _ _ _ X2 Vk) as Vk2.
    destruct (std_cancel_spec _ _ W2 Vk2) as (h3 & E3 & W3 & X3 & C3 & _).
    exists h3. split; [done|]. intros bs L.
    assert (WW3 : world_wf (mkWorld h3 (pool w2))) by by apply heap_step_wf.
    destruct (std_cancel_frame _ _ _ p W2 E3 N) as [Tp3 _].
    destruct F2 as (g & Hg & S).
    destruct (promote_release_drain (mkWorld h3 (pool w2)) (length (pool w)) p
                (length (ctxs (heap w))) bs WW3)
      as (w4 & E4 & [W4 _] & X4 & T4 & C4 & X34).
    { exists g. split; [done|]. exact (stage_ext _ _ _ _ W2 X3 S). }
    { simpl. congruence. }
    { done. }
    { intros g'. simpl. rewrite Hg. intros [= <-]. right.
      apply stage_steps_promote in S. lia. }
    exists w4. split_and!; [done..|].
    assert (V4 : ctx_valid p (heap w4)).
    { eapply ctx_valid_ext; [exact X34|]. eapply ctx_valid_ext; [exact X3|].
      eapply ctx_valid_ext; [exact X2|]. eapply ctx_valid_ext; [exact X1|exact V]. }
    destruct (cancel_ctx_spec p (length (ctxs (heap w))) _ W4 V4 N)
      as (h5 & E5 & _ & X5 & L5).
    exists h5. split_and!; [done|by rewrite L5, C4|].
    eapply std_canceled_ext; [exact X5|]. by eapply std_canceled_ext.
Qed.

Lemma Promote_mirrors_witness :
  ∃ w1 k release,
    Promote (CtxSignal 0)
      (mkWorld (mkHeap [false] [mkSignal (Some 0) true false] [] 0 [EvMake 0]) []) = (w1, (k, release)) ∧
    ∀ ops1, ∃ w2, run ops1 w1 = Some w2 ∧
      (ctx_terminated (CtxSignal 0) (heap w2) = true →
       ∀ ops2, 4 ≤ count_sched 0 ops2 →
         ∃ w3, run ops2 w2 = Some w3 ∧ std_canceled k (heap w3) = true ∧
           exited 0 w3 = true) ∧
      (ctx_terminated (CtxSignal 0) (heap w2) = false →
       ∃ h3, std_cancel release (heap w2) = Some h3 ∧
         ∀ bs, 3 ≤ length bs →
           ∃ w4, run (OpSched 0 <$> bs) (mkWorld h3 (pool w2)) = Some w4 ∧
             exited 0 w4 = true ∧
             ctx_terminated (CtxSignal 0) (heap w4) = false ∧
             ctxs (heap w4) = ctxs h3 ∧
             ∃ h5, cancel_ctx (CtxSignal 0) (heap w4) = Some h5 ∧
               ctxs h5 !! k = ctxs h3 !! k ∧ std_canceled k h5 = true).
Proof.
  apply (Promote_mirrors
           (mkWorld (mkHeap [false] [mkSignal (Some 0) true false] [] 0 [EvMake 0]) [])
           (CtxSignal 0)).
  - apply (reachable_wf [OpNew]). reflexivity.
  - reflexivity.
Defined.

(** ** [Cancel] is idempotent *)

Lemma terminated_closed h s :
  heap_wf h → terminated s h = true →
  ∃ sg, sigs h !! s = Some sg ∧ make sg = true ∧ close sg = true.
Proof.
  intros W T. destruct (terminated_sig_chan _ _ W T) as [ch C].
  rewrite (sig_chan_terminated _ _ _ C) in T.
  destruct (sig_chan_Some _ _ _ W C) as (c & sg & -> & Hs & _ & Hm & Hc).
  apply chan_ready_Some in T. exists sg. split_and!; [done..|congruence].
Qed.

Lemma close_Do_idem h s :
  heap_wf h → terminated s h = true → close_Do s h = Some h.
Proof.
  intros W T. destruct (terminated_closed _ _ W T) as (sg & Hs & _ & Hc).
  unfold close_Do. rewrite Hs. simpl. by rewrite Hc.
Qed.

Lemma Cancel_idem h s : heap_wf h → terminated s h = true → Cancel s h = Some h.
Proof.
  intros W T. destruct (terminated_sig_chan _ _ W T) as [ch C].
  unfold Cancel. rewrite (init_idem _ _ _ C). simpl. by apply close_Do_idem.
Qed.

Lemma Cancel_times_idem n h s :
  heap_wf h → terminated s h = true → Cancel_times n s h = Some h.
Proof.
  intros W T. induction n as [|n IH]; [done|]. simpl.
  by rewrite Cancel_idem.
Qed.

Lemma close_count_le h c : heap_wf h → close_count c (log h) ≤ 1.
Proof. intros W. rewrite (wf_log _ W). destruct (chan_ready _ _); lia. Qed.

(** The phases of [n] concurrent calls: nobody ran [init]; somebody did but
    nobody closed; somebody closed. *)
Lemma callers_phase h s hi h1 cs n :
  heap_wf h → init s h = Some hi → close_Do s hi = Some h1 →
  ∃ w', run (schedule cs) (callers n s h) = Some w' ∧ length (pool w') = n ∧
    (heap w' = h ∧ Forall (λ g, g = GCancel s) (pool w') ∨
     heap w' = hi ∧ Forall (λ g, g = GCancel s ∨ g = GCancelClose s) (pool w') ∨
     heap w' = h1 ∧
       Forall (λ g, g = GCancel s ∨ g = GCancelClose s ∨ g = GExit) (pool w')).
Proof.
  intros W Ei Ec.
  pose proof (init_wf _ _ _ W Ei) as Wi.
  destruct (init_sig_chan _ _ _ Ei) as [ch Ci].
  destruct (close_Do_spec _ _ _ Wi Ci) as (h1' & Ec' & W1 & X1 & T1).
  rewrite Ec in Ec'. simplify_eq.
  pose proof (sig_chan_ext _ _ _ _ X1 Ci) as C1.
  assert (∀ w, length (pool w) = n →
    (heap w = h ∧ Forall (λ g, g = GCancel s) (pool w) ∨
     heap w = hi ∧ Forall (λ g, g = GCancel s ∨ g = GCancelClose s) (pool w) ∨
     heap w = h1' ∧
       Forall (λ g, g = GCancel s ∨ g = GCancelClose s ∨ g = GExit) (pool w)) →
    ∃ w', run (schedule cs) w = Some w' ∧ length (pool w') = n ∧
    (heap w' = h ∧ Forall (λ g, g = GCancel s) (pool w') ∨
     heap w' = hi ∧ Forall (λ g, g = GCancel s ∨ g = GCancelClose s) (pool w') ∨
     heap w' = h1' ∧
       Forall (λ g, g = GCancel s ∨ g = GCancelClose s ∨ g = GExit) (pool w')))
    as Hgen.
  { induction cs as [|[i b] cs IH]; intros w Hn Hph; [by exists w|].
    cbn [schedule fmap list_fmap run fst snd]. unfold exec. cbn [op_valid call].
    unfold sched. destruct (pool w !! i) as [g|] eqn:Hg; [|by apply IH].
    assert (∃ h' g', gstep g b (heap w) = Some (h', g') ∧
      (h' = hi ∧ Forall (λ g, g = GCancel s ∨ g = GCancelClose s)
                  (<[i := g']> (pool w)) ∨
       h' = h1' ∧ Forall (λ g, g = GCancel s ∨ g = GCancelClose s ∨ g = GExit)
                   (<[i := g']> (pool w)))) as (h' & g' & Eg & Hph').
    { destruct Hph as [[Hh Hp]|[[Hh Hp]|[Hh Hp]]]; rewrite Hh.
      - pose proof (Forall_lookup_1 _ _ _ _ Hp Hg) as ->. cbn [gstep].
        rewrite Ei. simpl. eexists _, _. split; [done|]. left. split; [done|].
        apply Forall_insert; [|by right].
        eapply Forall_impl; [exact Hp|]. intros ? ->. by left.
      - destruct (Forall_lookup_1 _ _ _ _ Hp Hg) as [-> | ->]; cbn [gstep].
        + rewrite (init_idem _ _ _ Ci). simpl. eexists _, _. split; [done|].
          left. split; [done|]. apply Forall_insert; [done|by right].
        + rewrite Ec. simpl. eexists _, _. split; [done|].
          right. split; [done|]. apply Forall_insert; [|by right; right].
          eapply Forall_impl; [exact Hp|]. intros ? [->| ->]; auto.
      - destruct (Forall_lookup_1 _ _ _ _ Hp Hg) as [-> |[-> | ->]]; cbn [gstep].
        + rewrite (init_idem _ _ _ C1). simpl. eexists _, _. split; [done|].
          right. split; [done|]. apply Forall_insert; [done|auto].
        + rewrite (close_Do_idem _ _ W1 T1). simpl. eexists _, _. split; [done|].
          right. split; [done|]. apply Forall_insert; [done|auto].
        + eexists _, _. split; [done|].
          right. split; [done|]. apply Forall_insert; [done|auto]. }
    rewrite Eg. simpl. apply IH; simpl.
    - by rewrite length_insert.
    - destruct Hph' as [[-> ?]|[-> ?]]; auto. }
  apply Hgen; simpl.
  - apply length_replicate.
  - left. split; [done|]. by apply Forall_replicate.
Qed.

Lemma all_exited_Forall w :
  all_exited w = true → Forall (λ g, g = GExit) (pool w).
Proof.
  unfold all_exited. rewrite forallb_forall, Forall_forall.
  intros H g Hg%list_elem_of_In. specialize (H g Hg). by destruct g.
Qed.

Lemma all_exited_intro w :
  (∀ i, i < length (pool w) → exited i w = true) → all_exited w = true.
Proof.
  unfold all_exited, exited. intros H. apply forallb_forall.
  intros g [i Hi]%list_elem_of_In%list_elem_of_lookup.
  specialize (H i (lookup_lt_Some _ _ _ Hi)). rewrite Hi in H. by destruct g.
Qed.

Lemma callers_wf n s h : heap_wf h → sig_valid s h → world_wf (callers n s h).
Proof. intros W V. split; [done|]. by apply Forall_replicate. Qed.

(** C1: [n >= 1] calls of [Cancel()] on one signal, one after the other or
    concurrently, have the effect of one call.  Serially the heap is exactly
    that of one call: the signal is terminated and [close] ran once on its
    channel.  Concurrently, under every schedule: no step panics, [close]
    never runs twice, each caller has returned once it was scheduled for its
    two steps, whatever the others did; as soon as one call has returned the
    heap is that of one call, and stays so. *)
Theorem Cancel_idempotent h s n :
  heap_wf h → sig_valid s h → 1 ≤ n →
  ∃ h1 c, Cancel s h = Some h1 ∧
    Cancel_times n s h = Some h1 ∧
    terminated s h1 = true ∧ sig_chan h1 s (Some c) ∧
    close_count c (log h1) = 1 ∧
    ∀ cs, ∃ w', run (schedule cs) (callers n s h) = Some w' ∧
      close_count c (log (heap w')) ≤ 1 ∧
      (∀ i, i < n → 2 ≤ count_sched i (schedule cs) → exited i w' = true) ∧
      (∀ i, exited i w' = true → heap w' = h1) ∧
      ((∀ i, i < n → 2 ≤ count_sched i (schedule cs)) →
       all_exited w' = true) ∧
      (all_exited w' = true → heap w' = h1).
Proof.
  intros W V Hn. destruct (Cancel_spec s h W V) as (h1 & E & W1 & X & T).
  destruct (terminated_sig_chan _ _ W1 T) as [ch C].
  destruct (sig_chan_Some _ _ _ W1 C) as (c & _ & -> & _).
  exists h1, c. split_and!; [done| |done|done| |].
  - destruct n as [|n]; [lia|]. simpl. rewrite E. simpl.
    by apply Cancel_times_idem.
  - rewrite (wf_log _ W1). by rewrite <- (sig_chan_terminated _ _ _ C), T.
  - intros cs. unfold Cancel in E. destruct (init s h) as [hi|] eqn:Ei; [|done].
    simpl in E.
    destruct (callers_phase h s hi h1 cs n W Ei E) as (w' & Er & Hl & Hph).
    exists w'. split; [done|].
    pose proof (init_wf _ _ _ W Ei) as Wi.
    assert (Hret : ∀ i, i < n → 2 ≤ count_sched i (schedule cs) →
                     exited i w' = true).
    { intros i Hi L.
      destruct (followed_exits (GCancel s) i (schedule cs) (callers n s h))
        as (w'' & Er' & _ & Hx & _); [by apply callers_wf| | |done|congruence].
      - exists (GCancel s). split; [|done]. simpl. by apply lookup_replicate.
      - by intros g [-> _]%lookup_replicate. }
    assert (Hone : ∀ i, exited i w' = true → heap w' = h1).
    { intros i Hx. unfold exited in Hx.
      destruct (pool w' !! i) as [g|] eqn:Hg; [|done].
      destruct g; try done.
      destruct Hph as [[_ Hf]|[[_ Hf]|[? _]]]; [| |done].
      - by pose proof (Forall_lookup_1 _ _ _ _ Hf Hg).
      - by destruct (Forall_lookup_1 _ _ _ _ Hf Hg). }
    split_and!; [|done|done| |].
    + destruct Hph as [[-> _]|[[-> _]|[-> _]]]; by apply close_count_le.
    + intros Hall. apply all_exited_intro. rewrite Hl. intros i Hi.
      by apply Hret; [|apply Hall].
    + intros Ha%all_exited_Forall. apply (Hone 0). unfold exited.
      destruct (pool w') as [|g gs] eqn:Hp; [simpl in Hl; lia|].
      by apply Forall_cons in Ha as [-> _].
Qed.

Lemma Cancel_idempotent_witness :
  ∃ h1 c, Cancel 0 (mkHeap [] [mkSignal None false false] [] 0 []) = Some h1 ∧
    Cancel_times 3 0 (mkHeap [] [mkSignal None false false] [] 0 []) = Some h1 ∧
    terminated 0 h1 = true ∧ sig_chan h1 0 (Some c) ∧
    close_count c (log h1) = 1 ∧
    ∀ cs, ∃ w', run (schedule cs)
                  (callers 3 0 (mkHeap [] [mkSignal None false false] [] 0 []))
                = Some w' ∧
      close_count c (log (heap w')) ≤ 1 ∧
      (∀ i, i < 3 → 2 ≤ count_sched i (schedule cs) → exited i w' = true) ∧
      (∀ i, exited i w' = true → heap w' = h1) ∧
      ((∀ i, i < 3 → 2 ≤ count_sched i (schedule cs)) →
       all_exited w' = true) ∧
      (all_exited w' = true → heap w' = h1).
Proof.
  apply Cancel_idempotent; [|reflexivity|lia].
  exact (proj1 (reachable_wf [OpZero]
                  (mkWorld (mkHeap [] [mkSignal None false false] [] 0 []) [])
                  eq_refl)).
Defined.

(** ** More of the code's behaviour *)

Section Tracked.
Variable Q : Goroutine → Heap → Prop.
Hypothesis Q_ext : ∀ g h h', heap_wf h → ext h h' → Q g h → Q g h'.
Hypothesis Q_step : ∀ g b h h' g',
  heap_wf h → g_ok h g → Q g h → gstep g b h = Some (h', g') → Q g' h'.

Lemma exec_tracked i op w w' :
  world_wf w → (∃ g, pool w !! i = Some g ∧ Q g (heap w)) →
  exec op w = Some w' → ∃ g, pool w' !! i = Some g ∧ Q g (heap w').
Proof.
  intros WW (g & Hi & S) E. pose proof WW as [W P].
  destruct (exec_spec op w WW) as (w1 & E1 & _ & X & _).
  rewrite E in E1. simplify_eq.
  destruct (exec_sched_or op i) as [[b ->]|N].
  - cbn in E. destruct (sched_lookup i i b _ _ _ E Hi)
      as (g' & Hg & [[? _]|[_ (h' & Eg & <-)]]); [done|].
    exists g'. split; [done|].
    exact (Q_step _ _ _ _ _ W (Forall_lookup_1 _ _ _ _ P Hi) S Eg).
  - exists g. split; [exact (exec_lookup _ _ _ _ _ E Hi N)|exact (Q_ext _ _ _ W X S)].
Qed.

Lemma run_tracked i ops w w' :
  world_wf w → (∃ g, pool w !! i = Some g ∧ Q g (heap w)) →
  run ops w = Some w' → ∃ g, pool w' !! i = Some g ∧ Q g (heap w').
Proof.
  revert w. induction ops as [|op ops IH]; intros w WW F E; simpl in E.
  - by simplify_eq.
  - destruct (exec_spec op w WW) as (w1 & E1 & W1 & _). rewrite E1 in E.
    simpl in E. apply (IH w1); [done| |done]. by apply (exec_tracked i op w w1).
Qed.
End Tracked.

Lemma run_app ops1 ops2 w : run (ops1 ++ ops2) w = run ops1 w ≫= run ops2.
Proof.
  revert w. induction ops1 as [|op ops1 IH]; intros w; simpl; [done|].
  destruct (exec op w) as [w1|]; simpl; [apply IH|done].
Qed.

(** Only the two closing steps change whether anything is terminated. *)
Lemma gstep_quiet_frame g b h h' g' p :
  heap_wf h → g_ok h g → closing g = false → gstep g b h = Some (h', g') →
  ctx_terminated p h' = ctx_terminated p h.
Proof.
  intros W G C E. destruct g; try done; cbn [gstep] in E;
    try (by simplify_eq).
  - destruct (Done sig h) as [[h1 ch]|] eqn:E1; simplify_eq/=.
    by destruct (Done_frame _ _ _ _ p W E1).
  - destruct (ctx_Done parent h) as [[h1 ch]|] eqn:E1; simplify_eq/=.
    by destruct (ctx_Done_frame _ _ _ _ p W E1).
  - destruct (Done sig h) as [[h1 ch]|] eqn:E1; simplify_eq/=.
    by destruct (Done_frame _ _ _ _ p W E1).
  - destruct (ctx_Done ctx h) as [[h1 ch]|] eqn:E1; simplify_eq/=.
    by destruct (ctx_Done_frame _ _ _ _ p W E1).
  - destruct (ctx_Done (CtxStd std) h) as [[h1 ch]|] eqn:E1; simplify_eq/=.
    by destruct (ctx_Done_frame (CtxStd std) _ _ _ p W E1).
  - destruct (init sig h) as [h1|] eqn:E1; simplify_eq/=.
    by destruct (init_frame _ _ _ p W E1).
Qed.

(** *** A timeout does not fire early *)

Lemma floor_inv_ext s d now0 g h h' :
  heap_wf h → ext h h' → floor_inv s d now0 g h → floor_inv s d now0 g h'.
Proof.
  intros W X (S & N & F). pose proof (ext_now _ _ X).
  split_and!; [by eapply stage_ext|lia|].
  destruct g; simpl in *; try done; lia.
Qed.

Lemma floor_inv_step s d now0 g b h h' g' :
  heap_wf h → g_ok h g → floor_inv s d now0 g h →
  gstep g b h = Some (h', g') → floor_inv s d now0 g' h'.
Proof.
  intros W G (S & N & F) E.
  pose proof (gstep_stage _ _ _ _ _ _ W G S E) as S'.
  pose proof (gstep_now _ _ _ _ _ E) as Hn.
  split_and!; [done|lia|].
  destruct g; cbn [stage] in S; try done; cbn [gstep timer_floor] in *.
  - destruct S as [-> ->]. simplify_eq. cbn [timer_floor].
    unfold when. repeat case_match; lia.
  - destruct (Done sig h) as [[h1 ch]|]; simplify_eq/=. done.
  - simplify_eq.
    destruct (select_cases (timer_ready fire h') (chan_ready ch h') b
                (GCancel s) GExit (GTimeoutSelect s fire ch))
      as [[-> R]|[[-> _]|[-> _]]]; cbn [timer_floor]; [|done..].
    apply timer_ready_le in R. lia.
  - destruct (init sig h) as [h1|]; simplify_eq/=. lia.
  - destruct (close_Do sig h) as [h1|]; simplify_eq/=. done.
  - by simplify_eq.
Qed.

Lemma Timeout_floor_start s d w :
  world_wf w → sig_valid s (heap w) →
  world_wf (spawn (GTimeout s d) w) ∧
  ∃ g, pool (spawn (GTimeout s d) w) !! length (pool w) = Some g ∧
    floor_inv s d (now (heap w)) g (heap (spawn (GTimeout s d) w)).
Proof.
  intros WW V. split; [by apply spawn_wf|].
  exists (GTimeout s d). split; [apply spawn_lookup|]. by split_and!.
Qed.

(** X8: In any run, the goroutine of [Timeout(d)] is in its call of [Cancel]
    only when the clock has reached the time of the call of [Timeout] plus [d]
    (or the end of the clock's range). *)
Theorem Timeout_not_early w s d ops :
  world_wf w → sig_valid s (heap w) →
  ∃ w', run ops (fst (Timeout s d w)) = Some w' ∧
    ∀ g, pool w' !! length (pool w) = Some g →
      g = GCancel s ∨ g = GCancelClose s →
      (Z.min (now (heap w) + d) maxInt64 ≤ now (heap w'))%Z.
Proof.
  intros WW V. destruct (Timeout_floor_start s d w WW V) as [WW1 F].
  destruct (run_spec ops _ WW1) as (w' & E & _). exists w'. split; [done|].
  intros g Hg Hc.
  destruct (run_tracked _ (floor_inv_ext s d _) (floor_inv_step s d _) _ _ _ _ WW1 F E)
    as (g' & Hg' & _ & _ & Fl).
  simplify_eq. by destruct Hc as [-> | ->].
Qed.

Lemma terminated_set_now s t h : terminated s (set_now t h) = terminated s h.
Proof. done. Qed.

Lemma ctx_terminated_set_now p t h :
  ctx_terminated p (set_now t h) = ctx_terminated p h.
Proof. by destruct p. Qed.

(** What a quiet step does to the heap: a tick, or a step of goroutine [i]. *)
Lemma quiet_exec i op w w' g :
  quiet i op = true → pool w !! i = Some g → exec op w = Some w' →
  (∃ t, heap w' = set_now t (heap w) ∧ pool w' = pool w) ∨
  (∃ b g', gstep g b (heap w) = Some (heap w', g') ∧ pool w' !! i = Some g').
Proof.
  intros Hq Hg E. destruct op; try done; simpl in Hq.
  - apply bool_decide_eq_true in Hq as ->. cbn in E. right.
    destruct (sched_lookup i i first _ _ _ E Hg)
      as (g' & Hg' & [[? _]|[_ (h' & Eg & <-)]]); [done|]. eauto.
  - cbn in E. simplify_eq. left. eauto.
Qed.

Lemma pending_inv_exec s d now0 i op w w' :
  world_wf w → pending_inv s d now0 i w → quiet i op = true →
  exec op w = Some w' → pending_inv s d now0 i w'.
Proof.
  intros WW [F T] Hq E. pose proof WW as [W P]. split.
  - exact (exec_tracked _ (floor_inv_ext s d _) (floor_inv_step s d _) _ _ _ _ WW F E).
  - destruct F as (g & Hg & S & N & Fl).
    destruct (quiet_exec _ _ _ _ _ Hq Hg E) as [(t & Ht & _)|(b & g' & Eg & _)].
    + destruct (exec_spec op w WW) as (w1 & E1 & _ & X & _).
      rewrite E in E1. simplify_eq. pose proof (ext_now _ _ X).
      rewrite Ht, terminated_set_now. intros T'. specialize (T T').
      rewrite Ht in *. lia.
    + pose proof (gstep_now _ _ _ _ _ Eg) as ->.
      pose proof (Forall_lookup_1 _ _ _ _ P Hg) as G.
      destruct (closing g) eqn:C.
      * intros _. by destruct g.
      * pose proof (gstep_quiet_frame _ _ _ _ _ (CtxSignal s) W G C Eg) as Hp.
        simpl in Hp. by rewrite Hp.
Qed.

Lemma pending_inv_run s d now0 i ops w :
  world_wf w → pending_inv s d now0 i w → forallb (quiet i) ops = true →
  ∃ w', run ops w = Some w' ∧ pending_inv s d now0 i w'.
Proof.
  revert w. induction ops as [|op ops IH]; intros w WW I Hq; simpl in *.
  - by exists w.
  - apply andb_true_iff in Hq as [Hq1 Hq2].
    destruct (exec_spec op w WW) as (w1 & E1 & W1 & _). rewrite E1. simpl.
    apply IH; [done| |done]. exact (pending_inv_exec _ _ _ _ _ _ _ WW I Hq1 E1).
Qed.

Lemma spawn_timeout_pending w s d ops :
  world_wf w → sig_valid s (heap w) → terminated s (heap w) = false →
  forallb (quiet (length (pool w))) ops = true →
  ∃ w', run ops (spawn (GTimeout s d) w) = Some w' ∧
    pending_inv s d (now (heap w)) (length (pool w)) w'.
Proof.
  intros WW V T Hq. destruct (Timeout_floor_start s d w WW V) as [WW1 F].
  apply pending_inv_run; [done| |done].
  split; [done|]. simpl. congruence.
Qed.

Lemma pending_inv_pending s d now0 i w :
  pending_inv s d now0 i w →
  (now (heap w) < Z.min (now0 + d) maxInt64)%Z →
  terminated s (heap w) = false ∧ exited i w = false.
Proof.
  intros [F T] L.
  assert (Tf : terminated s (heap w) = false).
  { destruct (terminated s (heap w)); [|done]. specialize (T eq_refl). lia. }
  split; [done|]. destruct F as (g & Hg & S & _). unfold exited. rewrite Hg.
  destruct g; try done. simpl in S. congruence.
Qed.

(** X9: While only its goroutine and the clock move, a [Timeout(d)] leaves a
    pending signal pending, and its goroutine running, until the clock has
    reached the time of the call plus [d]. *)
Theorem Timeout_pending_until w s d ops :
  world_wf w → sig_valid s (heap w) → terminated s (heap w) = false →
  forallb (quiet (length (pool w))) ops = true →
  ∃ w', run ops (fst (Timeout s d w)) = Some w' ∧
    ((now (heap w') < Z.min (now (heap w) + d) maxInt64)%Z →
     terminated s (heap w') = false ∧ exited (length (pool w)) w' = false).
Proof.
  intros WW V T Hq. cbn [Timeout fst].
  destruct (spawn_timeout_pending w s d ops WW V T Hq) as (w' & E & I).
  exists w'. split; [done|]. by apply pending_inv_pending.
Qed.

Lemma Until_floor t h :
  (0 ≤ now h)%Z →
  (Z.min t maxInt64 ≤ Z.min (now h + time_Until t h) maxInt64)%Z.
Proof.
  intros Hn. unfold time_Until, time_Sub, minDuration, maxDuration, maxInt64.
  repeat case_match; lia.
Qed.

(** X10: While only its goroutine and the clock move, a [Deadline(t)] leaves a
    pending signal pending until the clock has reached [t]. *)
Theorem Deadline_pending_until w s t ops :
  world_wf w → sig_valid s (heap w) → terminated s (heap w) = false →
  (0 ≤ now (heap w))%Z →
  forallb (quiet (length (pool w))) ops = true →
  ∃ w', run ops (fst (Deadline s t w)) = Some w' ∧
    ((now (heap w') < Z.min t maxInt64)%Z →
     terminated s (heap w') = false ∧ exited (length (pool w)) w' = false).
Proof.
  intros WW V T Hn Hq.
  destruct (spawn_timeout_pending w s (time_Until t (heap w)) ops WW V T Hq)
    as (w' & E & I).
  exists w'. split; [done|]. intros L. eapply pending_inv_pending; [done|].
  pose proof (Until_floor t (heap w) Hn). lia.
Qed.

(** *** A timeout fires *)








(** *** Goroutines and the termination of their signal *)

Lemma owner_fires h g s :
  g_ok h g → owner g = Some s → terminated s h = true → fires g h.
Proof.
  intros G O T. destruct g; simpl in O; simplify_eq; cbn [fires g_ok] in *;
    try done; try (by right).
  - right. by rewrite <- (sig_chan_terminated _ _ _ G).
  - right. destruct G as [G _]. by rewrite <- (sig_chan_terminated _ _ _ G).
Qed.

Lemma steps_left_le g : steps_left g ≤ 5.
Proof. destruct g; simpl; lia. Qed.

(** X6: Once a signal is terminated, a goroutine that one of its methods
    started exits as soon as it has run, whatever else happens. *)
Theorem owned_goroutine_retires w i g s ops :
  world_wf w → pool w !! i = Some g → owner g = Some s →
  terminated s (heap w) = true → 5 ≤ count_sched i ops →
  ∃ w', run ops w = Some w' ∧ exited i w' = true.
Proof.
  intros WW Hg O T L. pose proof WW as [W P].
  destruct (run_spec ops w WW) as (w' & E & _). exists w'. split; [done|].
  assert (B : bound i 5 w).
  { exists g. split_and!; [done| |apply steps_left_le].
    eapply owner_fires; [|done..]. by eapply Forall_lookup_1. }
  destruct (run_bound _ _ _ _ _ WW B E) as (g' & Hg' & _ & L').
  unfold exited. rewrite Hg'.
  assert (g' = GExit) as -> by (apply steps_left_0; lia). done.
Qed.

(** X5: The goroutines of [Timeout], [Propagate] and [Promote] exit only once
    their signal, or for [Promote] the returned context, is terminated. *)
Theorem exit_means_terminated w s d p ops :
  world_wf w → sig_valid s (heap w) → ctx_valid p (heap w) →
  (∃ w', run ops (fst (Timeout s d w)) = Some w' ∧
     (exited (length (pool w)) w' = true → terminated s (heap w') = true)) ∧
  (∃ w', run ops (fst (Propagate s p w)) = Some w' ∧
     (exited (length (pool w)) w' = true → terminated s (heap w') = true)) ∧
  (∃ w', run ops (fst (Promote p w)) = Some w' ∧
     (exited (length (pool w)) w' = true →
      std_canceled (fst (snd (Promote p w))) (heap w') = true)).
Proof.
  intros WW V Vp.
  assert (Hx : ∀ g0 w1, world_wf w1 → follows g0 (length (pool w)) w1 →
    ∃ w', run ops w1 = Some w' ∧
      (exited (length (pool w)) w' = true → stage g0 GExit (heap w'))).
  { intros g0 w1 WW1 F. destruct (run_spec ops w1 WW1) as (w' & E & _).
    exists w'. split; [done|]. intros X.
    destruct (run_follows _ _ _ _ _ WW1 F E) as (g & Hg & S).
    unfold exited in X. rewrite Hg in X. by destruct g. }
  split_and!.
  - apply (Hx (GTimeout s d)); [by apply spawn_wf|].
    exists (GTimeout s d). split; [apply spawn_lookup|done].
  - apply (Hx (GPropagate s p)); [by apply spawn_wf|].
    exists (GPropagate s p). split; [apply spawn_lookup|done].
  - destruct (Promote_setup w p WW Vp) as (w1 & k & E & -> & WW1 & F & _).
    rewrite E. by apply (Hx (GPromote p (length (ctxs (heap w))))).
Qed.

Lemma timeout_step_noop s d g b h h' g' :
  heap_wf h → g_ok h g → stage (GTimeout s d) g h → terminated s h = true →
  gstep g b h = Some (h', g') → h' = h.
Proof.
  intros W G S T E. destruct (terminated_sig_chan _ _ W T) as [ch C].
  destruct g; cbn [stage] in S; try done; cbn [gstep] in E;
    try (by simplify_eq).
  - subst. rewrite (Done_idem _ _ _ C) in E. by simplify_eq/=.
  - subst. rewrite (init_idem _ _ _ C) in E. by simplify_eq/=.
  - subst. rewrite (close_Do_idem _ _ W T) in E. by simplify_eq/=.
Qed.

(** X7: Once the signal is terminated, the goroutine of a [Timeout] changes
    nothing any more: a timer that fires late is a no-op. *)
Theorem late_timer_noop w s d ops bs :
  world_wf w → sig_valid s (heap w) →
  ∃ w2, run ops (fst (Timeout s d w)) = Some w2 ∧
    (terminated s (heap w2) = true →
     ∃ w3, run (OpSched (length (pool w)) <$> bs) w2 = Some w3 ∧
       heap w3 = heap w2).
Proof.
  cbn [Timeout fst]. intros WW V.
  assert (WW1 : world_wf (spawn (GTimeout s d) w)) by by apply spawn_wf.
  assert (F1 : follows (GTimeout s d) (length (pool w)) (spawn (GTimeout s d) w)).
  { exists (GTimeout s d). split; [apply spawn_lookup|done]. }
  destruct (run_spec ops _ WW1) as (w2 & E2 & WW2 & _).
  pose proof (run_follows _ _ _ _ _ WW1 F1 E2) as F2.
  exists w2. split; [done|]. intros T. clear E2 WW1 F1.
  revert w2 WW2 F2 T. induction bs as [|b bs IH]; intros w2 WW2 F2 T.
  - by exists w2.
  - destruct F2 as (g & Hg & S). pose proof WW2 as [W2 P2].
    pose proof (Forall_lookup_1 _ _ _ _ P2 Hg) as G.
    destruct (gstep_spec g b _ W2 G) as (h' & g' & Eg & _).
    pose proof (timeout_step_noop _ _ _ _ _ _ _ W2 G S T Eg) as ->.
    pose proof (exec_sched_step _ b _ _ _ _ Hg Eg) as E.
    destruct (exec_spec (OpSched (length (pool w)) b) w2 WW2) as (w3 & E' & WW3 & _).
    rewrite E in E'. simplify_eq.
    destruct (IH (mkWorld (heap w2) (<[length (pool w) := g']> (pool w2))))
      as (w4 & E4 & H4); [done| |done|].
    + exists g'. split; [by eapply insert_lookup_same|].
      exact (gstep_stage _ _ _ _ _ _ W2 G S Eg).
    + exists w4. cbn [fmap list_fmap run]. rewrite E. simpl. by split.
Qed.

(** *** Waiting goroutines *)

Lemma watch_closing g a : watch g = Some a → closing g = false.
Proof. by destruct g. Qed.

Lemma watch_step g b h h' g' p q :
  heap_wf h → g_ok h g → watch g = Some (p, q) →
  ctx_terminated p h = false → ctx_terminated q h = false →
  gstep g b h = Some (h', g') → watch g' = Some (p, q).
Proof.
  intros W G Hw Tp Tq E.
  destruct g; simpl in Hw; simplify_eq; cbn [g_ok gstep] in *.
  - destruct (ctx_Done p h) as [[h1 ch]|]; by simplify_eq/=.
  - destruct (Done sig h) as [[h1 ch]|]; by simplify_eq/=.
  - destruct G as [G1 G2]. simplify_eq.
    rewrite (ctx_chan_terminated _ _ _ G2) in Tp.
    rewrite (ctx_chan_terminated _ (CtxSignal sig) _ G1) in Tq.
    unfold select. by rewrite Tp, Tq.
  - destruct (ctx_Done p h) as [[h1 ch]|]; by simplify_eq/=.
  - destruct (ctx_Done (CtxStd std) h) as [[h1 ch]|]; by simplify_eq/=.
  - destruct G as [G1 G2]. simplify_eq.
    rewrite (ctx_chan_terminated _ _ _ G1) in Tp.
    rewrite (ctx_chan_terminated _ (CtxStd std) _ G2) in Tq.
    unfold select. by rewrite Tp, Tq.
Qed.

Lemma wait_inv_exec p q i op w w' :
  world_wf w → wait_inv p q i w → quiet i op = true →
  exec op w = Some w' → wait_inv p q i w'.
Proof.
  intros [W P] ((g & Hg & Hw) & Tp & Tq) Hq E.
  destruct (quiet_exec _ _ _ _ _ Hq Hg E) as [(t & Ht & Hp)|(b & g' & Eg & Hg')].
  - unfold wait_inv. rewrite Ht, Hp, !ctx_terminated_set_now. eauto.
  - pose proof (Forall_lookup_1 _ _ _ _ P Hg) as G.
    pose proof (watch_closing _ _ Hw) as C.
    split; [|split].
    + exists g'. split; [done|]. by eapply watch_step.
    + by rewrite (gstep_quiet_frame _ _ _ _ _ p W G C Eg).
    + by rewrite (gstep_quiet_frame _ _ _ _ _ q W G C Eg).
Qed.

Lemma wait_inv_run p q i ops w :
  world_wf w → wait_inv p q i w → forallb (quiet i) ops = true →
  ∃ w', run ops w = Some w' ∧ wait_inv p q i w'.
Proof.
  revert w. induction ops as [|op ops IH]; intros w WW I Hq; simpl in *.
  - by exists w.
  - apply andb_true_iff in Hq as [Hq1 Hq2].
    destruct (exec_spec op w WW) as (w1 & E1 & W1 & _). rewrite E1. simpl.
    apply IH; [done| |done]. exact (wait_inv_exec _ _ _ _ _ _ WW I Hq1 E1).
Qed.

Lemma wait_inv_exited p q i w : wait_inv p q i w → exited i w = false.
Proof. intros ((g & Hg & Hw) & _). unfold exited. rewrite Hg. by destruct g. Qed.

(** X12: While parent and child are both pending and only its goroutine and
    the clock move, [Propagate] changes neither, and the goroutine stays
    blocked in its [select]; the parent may be [context.Background()], whose
    nil channel never becomes ready, or the child itself. *)
Theorem Propagate_waits w c p ops :
  world_wf w → sig_valid c (heap w) → ctx_valid p (heap w) →
  terminated c (heap w) = false → ctx_terminated p (heap w) = false →
  forallb (quiet (length (pool w))) ops = true →
  ∃ w', run ops (fst (Propagate c p w)) = Some w' ∧
    terminated c (heap w') = false ∧ ctx_terminated p (heap w') = false ∧
    exited (length (pool w)) w' = false.
Proof.
  intros WW V Vp Tc Tp Hq.
  assert (WW1 : world_wf (spawn (GPropagate c p) w)) by by apply spawn_wf.
  destruct (wait_inv_run p (CtxSignal c) (length (pool w)) ops _ WW1)
    as (w' & E & I); [|done|].
  { split; [|done]. exists (GPropagate c p). split; [apply spawn_lookup|done]. }
  exists w'. pose proof (wait_inv_exited _ _ _ _ I). destruct I as (_ & ? & ?).
  by split_and!.
Qed.

(** X13: While the source is pending and only its goroutine and the clock
    move, the context that [Promote] returned stays not canceled. *)
Theorem Promote_waits w p ops :
  world_wf w → ctx_valid p (heap w) → ctx_terminated p (heap w) = false →
  forallb (quiet (length (pool w))) ops = true →
  ∃ w', run ops (fst (Promote p w)) = Some w' ∧
    std_canceled (fst (snd (Promote p w))) (heap w') = false ∧
    ctx_terminated p (heap w') = false ∧
    exited (length (pool w)) w' = false.
Proof.
  intros WW Vp Tp Hq.
  destruct (Promote_setup w p WW Vp) as (w1 & k & E & -> & WW1 & _ & Hl & Hc & _ & T & _).
  rewrite E. cbn [fst snd].
  destruct (wait_inv_run p (CtxStd (length (ctxs (heap w)))) (length (pool w)) ops _ WW1)
    as (w' & E' & I); [|done|].
  { split; [by eexists|]. split; [congruence|done]. }
  exists w'. pose proof (wait_inv_exited _ _ _ _ I). destruct I as (_ & ? & ?).
  by split_and!.
Qed.

(** *** Propagation composes *)

Lemma propagate_delivers w i c p ops :
  world_wf w → follows (GPropagate c p) i w →
  ctx_terminated p (heap w) = true → 5 ≤ count_sched i ops →
  ∃ w', run ops w = Some w' ∧ world_wf w' ∧ ext (heap w) (heap w') ∧
    terminated c (heap w') = true.
Proof.
  intros WW F T L. pose proof WW as [W P].
  assert (Hf : ∀ g, pool w !! i = Some g → fires g (heap w)).
  { intros g Hg. destruct F as (g' & Hg' & S). simplify_eq.
    eapply stage_fires_propagate; [|done..]. by eapply Forall_lookup_1. }
  destruct (followed_exits _ _ ops _ WW F Hf L) as (w' & E & WW' & _ & T').
  destruct (run_spec ops w WW) as (w'' & E'' & _ & X & _).
  rewrite E in E''. simplify_eq. by exists w''.
Qed.

Lemma follows_spawn g0 i g w : follows g0 i w → follows g0 i (spawn g w).
Proof.
  intros (g1 & Hg & S). exists g1. split; [|done]. simpl.
  by apply lookup_app_l_Some.
Qed.

Lemma follows_spawned g w :
  stage g g (heap w) → follows g (length (pool w)) (spawn g w).
Proof. intros S. exists g. split; [apply spawn_lookup|done]. Qed.

(** X14: Propagation is transitive: with [b.Propagate(a)] and
    [c.Propagate(b)], once [a] is terminated, [c] is terminated after the two
    goroutines have run one after the other. *)
Theorem Propagate_chain w a b c ops0 ops1 ops2 :
  world_wf w → sig_valid a (heap w) → sig_valid b (heap w) →
  sig_valid c (heap w) →
  5 ≤ count_sched (length (pool w)) ops1 →
  5 ≤ count_sched (S (length (pool w))) ops2 →
  ∃ w3, run ops0 (fst (Propagate c (CtxSignal b)
                         (fst (Propagate b (CtxSignal a) w)))) = Some w3 ∧
    (terminated a (heap w3) = true →
     ∃ w5, run (ops1 ++ ops2) w3 = Some w5 ∧
       terminated b (heap w5) = true ∧ terminated c (heap w5) = true).
Proof.
  intros WW Va Vb Vc L1 L2. cbn [Propagate fst].
  set (w1 := spawn (GPropagate b (CtxSignal a)) w).
  set (w2 := spawn (GPropagate c (CtxSignal b)) w1).
  assert (WW1 : world_wf w1) by by apply spawn_wf.
  assert (WW2 : world_wf w2) by by apply spawn_wf.
  assert (Fi : follows (GPropagate b (CtxSignal a)) (length (pool w)) w2).
  { apply follows_spawn. by apply follows_spawned. }
  assert (Fj : follows (GPropagate c (CtxSignal b)) (S (length (pool w))) w2).
  { replace (S (length (pool w))) with (length (pool w1)).
    - by apply follows_spawned.
    - unfold w1. simpl. rewrite length_app. simpl. lia. }
  destruct (run_spec ops0 _ WW2) as (w3 & E3 & WW3 & _).
  exists w3. split; [done|]. intros Ta.
  pose proof (run_follows _ _ _ _ _ WW2 Fi E3) as Fi3.
  pose proof (run_follows _ _ _ _ _ WW2 Fj E3) as Fj3.
  destruct (propagate_delivers _ _ _ _ ops1 WW3 Fi3 Ta L1) as (w4 & E4 & WW4 & X4 & Tb).
  pose proof (run_follows _ _ _ _ _ WW3 Fj3 E4) as Fj4.
  destruct (propagate_delivers _ _ _ _ ops2 WW4 Fj4 Tb L2) as (w5 & E5 & WW5 & X5 & Tc).
  exists w5. rewrite run_app, E4. simpl. split_and!; [done| |done].
  destruct WW4 as [W4 _]. by eapply terminated_ext.
Qed.

(** X15: A signal may have several parents: with [c.Propagate(p1)] and
    [c.Propagate(p2)], once either parent is terminated, [c] is terminated
    after the two goroutines have run. *)
Theorem Propagate_any_parent w c p1 p2 ops0 ops :
  world_wf w → sig_valid c (heap w) → ctx_valid p1 (heap w) →
  ctx_valid p2 (heap w) →
  5 ≤ count_sched (length (pool w)) ops →
  5 ≤ count_sched (S (length (pool w))) ops →
  ∃ w3, run ops0 (fst (Propagate c p2 (fst (Propagate c p1 w)))) = Some w3 ∧
    (ctx_terminated p1 (heap w3) = true ∨ ctx_terminated p2 (heap w3) = true →
     ∃ w4, run ops w3 = Some w4 ∧ terminated c (heap w4) = true).
Proof.
  intros WW Vc V1 V2 L1 L2. cbn [Propagate fst].
  set (w1 := spawn (GPropagate c p1) w).
  set (w2 := spawn (GPropagate c p2) w1).
  assert (WW1 : world_wf w1) by by apply spawn_wf.
  assert (WW2 : world_wf w2) by by apply spawn_wf.
  assert (Fi : follows (GPropagate c p1) (length (pool w)) w2).
  { apply follows_spawn. by apply follows_spawned. }
  assert (Fj : follows (GPropagate c p2) (S (length (pool w))) w2).
  { replace (S (length (pool w))) with (length (pool w1)).
    - by apply follows_spawned.
    - unfold w1. simpl. rewrite length_app. simpl. lia. }
  destruct (run_spec ops0 _ WW2) as (w3 & E3 & WW3 & _).
  exists w3. split; [done|]. intros [T|T].
  - pose proof (run_follows _ _ _ _ _ WW2 Fi E3) as F3.
    destruct (propagate_delivers _ _ _ _ ops WW3 F3 T L1) as (w4 & E4 & _ & _ & Tc).
    by exists w4.
  - pose proof (run_follows _ _ _ _ _ WW2 Fj E3) as F3.
    destruct (propagate_delivers _ _ _ _ ops WW3 F3 T L2) as (w4 & E4 & _ & _ & Tc).
    by exists w4.
Qed.

(** X16: A parent may have several children: with [c1.Propagate(p)] and
    [c2.Propagate(p)], once [p] is terminated both children are terminated
    after the two goroutines have run. *)
Theorem Propagate_all_children w c1 c2 p ops0 ops :
  world_wf w → sig_valid c1 (heap w) → sig_valid c2 (heap w) →
  ctx_valid p (heap w) →
  5 ≤ count_sched (length (pool w)) ops →
  5 ≤ count_sched (S (length (pool w))) ops →
  ∃ w3, run ops0 (fst (Propagate c2 p (fst (Propagate c1 p w)))) = Some w3 ∧
    (ctx_terminated p (heap w3) = true →
     ∃ w4, run ops w3 = Some w4 ∧
       terminated c1 (heap w4) = true ∧ terminated c2 (heap w4) = true).
Proof.
  intros WW V1 V2 Vp L1 L2. cbn [Propagate fst].
  set (w1 := spawn (GPropagate c1 p) w).
  set (w2 := spawn (GPropagate c2 p) w1).
  assert (WW1 : world_wf w1) by by apply spawn_wf.
  assert (WW2 : world_wf w2) by by apply spawn_wf.
  assert (Fi : follows (GPropagate c1 p) (length (pool w)) w2).
  { apply follows_spawn. by apply follows_spawned. }
  assert (Fj : follows (GPropagate c2 p) (S (length (pool w))) w2).
  { replace (S (length (pool w))) with (length (pool w1)).
    - by apply follows_spawned.
    - unfold w1. simpl. rewrite length_app. simpl. lia. }
  destruct (run_spec ops0 _ WW2) as (w3 & E3 & WW3 & _).
  exists w3. split; [done|]. intros T.
  pose proof (run_follows _ _ _ _ _ WW2 Fi E3) as Fi3.
  pose proof (run_follows _ _ _ _ _ WW2 Fj E3) as Fj3.
  destruct (propagate_delivers _ _ _ _ ops WW3 Fi3 T L1) as (w4 & E4 & _ & _ & T1).
  destruct (propagate_delivers _ _ _ _ ops WW3 Fj3 T L2) as (w4' & E4' & _ & _ & T2).
  rewrite E4 in E4'. simplify_eq. by exists w4'.
Qed.

(** *** Isolation *)

Lemma init_sigs_other s s' h h' :
  init s h = Some h' → s' ≠ s →
  sigs h' !! s' = sigs h !! s' ∧ length (sigs h') = length (sigs h).
Proof.
  intros E N. unfold init in E. destruct (sigs h !! s) as [sg|]; [|done].
  simpl in E. destruct (make sg); simplify_eq/=; [done|].
  by rewrite list_lookup_insert_ne, length_insert.
Qed.

Lemma close_Do_sigs_other s s' h h' :
  close_Do s h = Some h' → s' ≠ s →
  sigs h' !! s' = sigs h !! s' ∧ length (sigs h') = length (sigs h).
Proof.
  intros E N. unfold close_Do in E. destruct (sigs h !! s) as [sg|]; [|done].
  simpl in E. destruct (close sg); [by simplify_eq|].
  destruct (chan_close (done sg) h) as [h1|] eqn:E1; [|done]. simpl in E.
  simplify_eq. simpl. rewrite list_lookup_insert_ne, length_insert by done.
  unfold chan_close in E1. destruct (done sg) as [c|]; [|done].
  destruct (chans h !! c) as [[]|]; by simplify_eq.
Qed.

(** X3: [Cancel()] touches its own signal only: every other signal keeps its
    record, every standard context keeps its record, no other signal or
    context changes between pending and terminated, and the clock stands. *)
Theorem Cancel_isolated h s :
  heap_wf h → sig_valid s h →
  ∃ h', Cancel s h = Some h' ∧ terminated s h' = true ∧
    (∀ s', s' ≠ s → sigs h' !! s' = sigs h !! s') ∧
    length (sigs h') = length (sigs h) ∧
    ctxs h' = ctxs h ∧ now h' = now h ∧
    (∀ p, p ≠ CtxSignal s → ctx_terminated p h' = ctx_terminated p h).
Proof.
  intros W V. destruct (Cancel_spec s h W V) as (h' & E & _ & _ & T).
  exists h'. split_and!; [done|done|..].
  - intros s' N. unfold Cancel in E. destruct (init s h) as [h1|] eqn:E1; [|done].
    simpl in E. destruct (init_sigs_other _ _ _ _ E1 N) as [<- _].
    by destruct (close_Do_sigs_other _ _ _ _ E N).
  - unfold Cancel in E. destruct (init s h) as [h1|] eqn:E1; [|done].
    simpl in E. destruct (init_sigs_other s (S s) _ _ E1) as [_ <-]; [lia|].
    by destruct (close_Do_sigs_other s (S s) _ _ E) as [_ ?]; [lia|].
  - by destruct (Cancel_frame s h h' CtxBackground W E).
  - unfold Cancel in E. destruct (init s h) as [h1|] eqn:E1; [|done].
    simpl in E. rewrite (close_Do_now _ _ _ E). by eapply init_now.
  - intros p N. by destruct (Cancel_frame s h h' p W E N).
Qed.

Lemma init_close_count s h h' c :
  init s h = Some h' → close_count c (log h') = close_count c (log h).
Proof.
  intros E. unfold init in E. destruct (sigs h !! s) as [sg|]; [|done].
  simpl in E. destruct (make sg); by simplify_eq/=.
Qed.

(** X4: [Done()] only observes: it may make the signal's channel, but it
    closes nothing, leaves every signal and context pending or terminated as
    it was, leaves every other signal's record, every context's record and the
    clock as they were, and a second call changes nothing at all. *)
Theorem Done_observes_only h s :
  heap_wf h → sig_valid s h →
  ∃ h' c, Done s h = Some (h', Some c) ∧
    (∀ p, ctx_terminated p h' = ctx_terminated p h) ∧
    (∀ c', close_count c' (log h') = close_count c' (log h)) ∧
    (∀ s', s' ≠ s → sigs h' !! s' = sigs h !! s') ∧
    ctxs h' = ctxs h ∧ now h' = now h ∧
    Done s h' = Some (h', Some c).
Proof.
  intros W V. destruct (Done_spec s h W V) as (h' & c & E & Ei & W' & _ & C).
  exists h', c. split_and!; [done|..].
  - intros p. by destruct (init_frame _ _ _ p W Ei).
  - intros c'. by eapply init_close_count.
  - intros s' N. by destruct (init_sigs_other _ _ _ _ Ei N).
  - by destruct (init_frame _ _ _ CtxBackground W Ei).
  - by eapply init_now.
  - by apply Done_idem.
Qed.

(** *** Panics *)

(** While no call is on a nil pointer, the run with every entry made is the
    run of the client. *)
Lemma calls_run ops w : calls_valid ops w = true → calls ops w = run ops w.
Proof.
  revert w. induction ops as [|op ops IH]; intros w V; [done|].
  cbn [calls_valid] in V. apply andb_prop in V as [V1 V2].
  cbn [calls run]. unfold exec. rewrite V1.
  destruct (call op w) as [w1|]; simpl; [by apply IH|done].
Qed.

Lemma init_None s h : sig_valid s h = false → init s h = None.
Proof.
  unfold sig_valid. intros V%bool_decide_eq_false. unfold init.
  rewrite lookup_ge_None_2 by lia. done.
Qed.

Lemma Done_None s h : sig_valid s h = false → Done s h = None.
Proof. intros V. unfold Done. by rewrite init_None. Qed.

Lemma Cancel_None s h : sig_valid s h = false → Cancel s h = None.
Proof. intros V. unfold Cancel. by rewrite init_None. Qed.

Lemma sched_at i b w g :
  pool w !! i = Some g →
  sched i b w =
    '(h, g') ← gstep g b (heap w); Some (mkWorld h (<[i := g']> (pool w))).
Proof. intros Hg. unfold sched. by rewrite Hg. Qed.

(** What the code does with a [*Signal] that points to no signal. *)
Lemma nil_signal_panics w s :
  sig_valid s (heap w) = false →
  call (OpDone s) w = None ∧ call (OpCancel s) w = None ∧
  (∀ d b1 b2, calls [OpTimeout s d; OpSched (length (pool w)) b1;
                     OpSched (length (pool w)) b2] w = None) ∧
  (∀ c b, calls [OpPropagate c (CtxSignal s); OpSched (length (pool w)) b] w
          = None) ∧
  (∀ b, calls [OpPromote (CtxSignal s); OpSched (length (pool w)) b] w = None).
Proof.
  intros V. split_and!.
  - cbn [call]. unfold on_heap. by rewrite Done_None.
  - cbn [call]. unfold on_heap. by rewrite Cancel_None.
  - intros d b1 b2. cbn [calls call Timeout fst mbind option_bind].
    rewrite (sched_at _ _ _ (GTimeout s d)) by apply spawn_lookup.
    cbn [gstep mbind option_bind].
    rewrite (sched_at _ _ _ (GTimeoutArmed s (when d (heap w)))).
    + cbn [gstep heap spawn]. by rewrite Done_None.
    + cbn [pool spawn]. apply list_lookup_insert_eq. rewrite length_app. simpl. lia.
  - intros c b. cbn [calls call Propagate fst mbind option_bind].
    rewrite (sched_at _ _ _ (GPropagate c (CtxSignal s))) by apply spawn_lookup.
    cbn [gstep ctx_Done heap spawn]. by rewrite Done_None.
  - intros b. cbn [calls call Promote WithCancel chan_make fst mbind option_bind].
    rewrite (sched_at _ _ _ (GPromote (CtxSignal s) (length (ctxs (heap w)))))
      by (cbn [pool spawn]; by apply list_lookup_middle).
    cbn [gstep ctx_Done heap spawn]. by rewrite Done_None.
Qed.

(** X1: The package panics on nil pointers and nowhere else.  A run from the
    empty program in which no call is on a nil pointer does not panic,
    whatever the interleaving of calls, goroutine steps and clock ticks, with
    every call made as the code makes it: [close] never runs on a nil or
    closed channel, no channel is closed twice, and every further call on
    valid pointers succeeds.  On a [*Signal] that points to no signal the
    code does panic: [Done] and [Cancel] at the call, and [Timeout],
    [Propagate] and [Promote] in their goroutine, when it reaches [Done]. *)
Theorem reachable_safe ops :
  calls_valid ops empty_world = true →
  ∃ w, calls ops empty_world = Some w ∧
    (∀ c, close_count c (log (heap w)) ≤ 1) ∧
    (∀ op, op_valid op w = true → is_Some (call op w)) ∧
    (∀ s, sig_valid s (heap w) = false →
       call (OpDone s) w = None ∧ call (OpCancel s) w = None ∧
       (∀ d b1 b2, calls [OpTimeout s d; OpSched (length (pool w)) b1;
                          OpSched (length (pool w)) b2] w = None) ∧
       (∀ c b, calls [OpPropagate c (CtxSignal s);
                      OpSched (length (pool w)) b] w = None) ∧
       (∀ b, calls [OpPromote (CtxSignal s);
                    OpSched (length (pool w)) b] w = None)).
Proof.
  intros V. rewrite (calls_run _ _ V).
  destruct (run_spec ops _ world_wf_empty) as (w & E & WW & _).
  exists w. split_and!; [done| | |].
  - intros c. apply close_count_le. by destruct WW.
  - intros op Vo. destruct (call_spec op w WW) as (w' & -> & _); [|eauto].
    by apply Is_true_true.
  - intros s Vs. by apply nil_signal_panics.
Qed.

(** *** One channel for each signal *)

Lemma held_ext c h h' : heap_wf h → ext h h' → held c h → held c h'.
Proof.
  intros W X [(s & sg & Hs & Hd)|(k & cc & Hk & Hc)].
  - left. destruct (ext_sig _ _ X _ _ Hs) as (sg' & Hs' & Hm & _).
    pose proof (wf_sigs _ W _ _ Hs) as Hok. unfold sig_ok in Hok.
    destruct (make sg); [|destruct Hok; congruence].
    destruct (Hm eq_refl) as [_ Hd']. exists s, sg'. split; congruence.
  - right. destruct (ext_ctx _ _ X _ _ Hk) as (cc' & Hk' & Hc' & _).
    exists k, cc'. split; congruence.
Qed.

(** The body of [sig.make.Do] runs for a signal that holds no channel, and
    the channel it makes is held by that signal. *)
Lemma init_owned s h h' :
  heap_wf h → chans_owned h → init s h = Some h' → chans_owned h'.
Proof.
  intros W O E c L. pose proof (init_ext _ _ _ E) as X.
  destruct (sigs h !! s) as [sg|] eqn:Hs;
    [|unfold init in E; by rewrite Hs in E].
  rewrite (init_eq _ _ _ Hs) in E.
  destruct (make sg) eqn:Hm; simplify_eq; [by apply O|].
  simpl in L. rewrite length_app in L. simpl in L.
  destruct (decide (c < length (chans h))) as [Lc|Lc].
  - apply (held_ext c h); [done|done|by apply O].
  - assert (c = length (chans h)) as -> by lia. left.
    exists s, (mkSignal (Some (length (chans h))) true (close sg)).
    split; [|done]. simpl.
    apply list_lookup_insert_eq. by eapply lookup_lt_Some.
Qed.

Lemma close_Do_owned s h h' :
  chans_owned h → close_Do s h = Some h' → chans_owned h'.
Proof.
  intros O E c L. unfold close_Do in E.
  destruct (sigs h !! s) as [sg|] eqn:Hs; [|done]. simpl in E.
  destruct (close sg); [simplify_eq; by apply O|].
  destruct (done sg) as [c0|] eqn:Hd; [|done]. simpl in E.
  destruct (chans h !! c0) as [[]|]; simplify_eq/=.
  rewrite length_insert in L.
  destruct (O c L) as [(s' & sg' & Hs' & Hd')|(k & cc & Hk & Hc)].
  - left. destruct (decide (s' = s)) as [->|N].
    + eexists s, _. simpl.
      rewrite list_lookup_insert_eq by by eapply lookup_lt_Some.
      split; [done|]. simpl. congruence.
    + exists s', sg'. simpl. by rewrite list_lookup_insert_ne.
  - right. by exists k, cc.
Qed.

Lemma std_cancel_owned k h h' :
  chans_owned h → std_cancel k h = Some h' → chans_owned h'.
Proof.
  intros O E c L. unfold std_cancel in E.
  destruct (ctxs h !! k) as [cc|] eqn:Hk; [|done]. cbn -[chan_close] in E.
  destruct (cerr cc); [simplify_eq; by apply O|]. simpl in E.
  destruct (chans h !! cdone cc) as [[]|]; simplify_eq/=.
  rewrite length_insert in L.
  destruct (O c L) as [(s & sg & Hs & Hd)|(k' & cc' & Hk' & Hc)].
  - left. by exists s, sg.
  - right. destruct (decide (k' = k)) as [->|N].
    + eexists k, _. simpl.
      rewrite list_lookup_insert_eq by by eapply lookup_lt_Some.
      split; [done|]. simpl. congruence.
    + exists k', cc'. simpl. by rewrite list_lookup_insert_ne.
Qed.

Lemma WithCancel_owned h : chans_owned h → chans_owned (fst (WithCancel h)).
Proof.
  intros O c L. simpl in L. rewrite length_app in L. simpl in L.
  destruct (decide (c < length (chans h))) as [Lc|Lc].
  - destruct (O c Lc) as [(s & sg & Hs & Hd)|(k & cc & Hk & Hc)].
    + left. by exists s, sg.
    + right. exists k, cc. simpl. split; [by apply lookup_app_l_Some|done].
  - assert (c = length (chans h)) as -> by lia. right.
    eexists (length (ctxs h)), _. simpl. split; [by apply list_lookup_middle|done].
Qed.

Lemma Zero_owned h : chans_owned h → chans_owned (fst (Zero h)).
Proof.
  intros O c L. simpl in L.
  destruct (O c L) as [(s & sg & Hs & Hd)|(k & cc & Hk & Hc)].
  - left. exists s, sg. simpl. split; [by apply lookup_app_l_Some|done].
  - right. by exists k, cc.
Qed.

Lemma Done_owned s h h' ch :
  heap_wf h → chans_owned h → Done s h = Some (h', ch) → chans_owned h'.
Proof.
  intros W O E. unfold Done in E. destruct (init s h) as [h1|] eqn:E1; [|done].
  simpl in E. destruct (sigs h1 !! s); simplify_eq/=. by eapply init_owned.
Qed.

Lemma ctx_Done_owned p h h' ch :
  heap_wf h → chans_owned h → ctx_Done p h = Some (h', ch) → chans_owned h'.
Proof.
  intros W O E. destruct p as [s|k|]; simpl in E.
  - by eapply Done_owned.
  - destruct (ctxs h !! k); by simplify_eq/=.
  - by simplify_eq.
Qed.

Lemma Cancel_owned s h h' :
  heap_wf h → chans_owned h → Cancel s h = Some h' → chans_owned h'.
Proof.
  intros W O E. unfold Cancel in E.
  destruct (init s h) as [h1|] eqn:E1; [|done]. simpl in E.
  eapply close_Do_owned; [|done]. by eapply init_owned.
Qed.

Lemma gstep_owned g b h h' g' :
  heap_wf h → chans_owned h → gstep g b h = Some (h', g') → chans_owned h'.
Proof.
  intros W O E. destruct g; cbn [gstep] in E; try (by simplify_eq).
  - destruct (Done sig h) as [[h1 ch]|] eqn:E1; simplify_eq/=.
    by eapply Done_owned.
  - destruct (ctx_Done parent h) as [[h1 ch]|] eqn:E1; simplify_eq/=.
    by eapply ctx_Done_owned.
  - destruct (Done sig h) as [[h1 ch]|] eqn:E1; simplify_eq/=.
    by eapply Done_owned.
  - destruct (ctx_Done ctx h) as [[h1 ch]|] eqn:E1; simplify_eq/=.
    by eapply ctx_Done_owned.
  - destruct (ctx_Done (CtxStd std) h) as [[h1 ch]|] eqn:E1; simplify_eq/=.
    by eapply (ctx_Done_owned (CtxStd std)).
  - destruct (init sig h) as [h1|] eqn:E1; simplify_eq/=. by eapply init_owned.
  - destruct (close_Do sig h) as [h1|] eqn:E1; simplify_eq/=.
    by eapply close_Do_owned.
  - destruct (std_cancel std h) as [h1|] eqn:E1; simplify_eq/=.
    by eapply std_cancel_owned.
Qed.

Lemma exec_owned op w w' :
  heap_wf (heap w) → chans_owned (heap w) → exec op w = Some w' →
  chans_owned (heap w').
Proof.
  intros W O E. unfold exec, call in E.
  destruct (op_valid op w); [|by simplify_eq].
  destruct op; cbn [Timeout Deadline Propagate spawn fst] in E;
    unfold on_heap in E; try (by simplify_eq).
  - unfold New in E.
    destruct (init _ _) as [h1|] eqn:E1; simplify_eq/=.
    eapply init_owned; [|by apply (Zero_owned (heap w))|done].
    by apply wf_push_sig.
  - simplify_eq. by apply (Zero_owned (heap w)).
  - destruct (Done s (heap w)) as [[h1 ch]|] eqn:E1; simplify_eq/=.
    by eapply Done_owned.
  - destruct (Cancel s (heap w)) as [h1|] eqn:E1; simplify_eq/=.
    by eapply Cancel_owned.
  - unfold Promote in E. simplify_eq. simpl.
    by apply (WithCancel_owned (heap w)).
  - simplify_eq. by apply (WithCancel_owned (heap w)).
  - destruct (std_cancel k (heap w)) as [h1|] eqn:E1; simplify_eq/=.
    by eapply std_cancel_owned.
  - unfold sched in E. destruct (pool w !! i) as [g|]; [|by simplify_eq].
    destruct (gstep g first (heap w)) as [[h1 g']|] eqn:E1; simplify_eq/=.
    by eapply gstep_owned.
Qed.

Lemma run_owned ops w0 w :
  world_wf w0 → chans_owned (heap w0) → run ops w0 = Some w →
  chans_owned (heap w).
Proof.
  revert w0. induction ops as [|op ops IH]; intros w0 WW O E; simpl in E;
    [by simplify_eq|].
  destruct (exec_spec op w0 WW) as (w1 & E1 & WW1 & _). rewrite E1 in E.
  simpl in E. apply (IH w1); [done| |done].
  eapply exec_owned; [|done..]. by destruct WW.
Qed.

(** X2: However the calls of [Done()] and [Cancel()] and the goroutines race,
    [init] makes one channel for a signal and never a second.  In every run
    from the empty program a signal whose [make] guard is set holds one
    channel of the heap and a signal whose guard is unset holds none; no two
    signals hold the same channel, and no signal holds the Done channel of a
    standard context; and no channel was made and then dropped: every
    channel is held by a signal or is the Done channel of a standard context
    (a second run of the body of [init] would leave the first channel held
    by nobody). *)
Theorem one_channel_each ops :
  ∃ w, run ops empty_world = Some w ∧
    (∀ s sg, sigs (heap w) !! s = Some sg →
       if make sg
       then ∃ c, done sg = Some c ∧ c < length (chans (heap w))
       else done sg = None) ∧
    (∀ s1 s2 sg1 sg2 c,
       sigs (heap w) !! s1 = Some sg1 → sigs (heap w) !! s2 = Some sg2 →
       done sg1 = Some c → done sg2 = Some c → s1 = s2) ∧
    (∀ s sg k cc,
       sigs (heap w) !! s = Some sg → ctxs (heap w) !! k = Some cc →
       done sg ≠ Some (cdone cc)) ∧
    (∀ c, c < length (chans (heap w)) → held c (heap w)).
Proof.
  destruct (run_spec ops _ world_wf_empty) as (w & E & [W P] & _).
  exists w. split_and!; [done| |apply (wf_sig_inj _ W)|apply (wf_sig_ctx _ W)|].
  - intros s sg Hs. pose proof (wf_sigs _ W _ _ Hs) as Hok. unfold sig_ok in Hok.
    destruct (make sg); [|by destruct Hok].
    destruct Hok as (c & Hd & Hc). exists c. split; [done|].
    by eapply lookup_lt_Some.
  - apply (run_owned ops empty_world w); [apply world_wf_empty| |done].
    intros c L. simpl in L. lia.
Qed.

(** *** The properties at sample worlds *)

Lemma world_one_wf : world_wf world_one.
Proof. apply (reachable_wf [OpNew]). reflexivity. Qed.

Lemma world_three_wf : world_wf world_three.
Proof. apply (reachable_wf [OpNew; OpNew; OpNew]). reflexivity. Qed.

Lemma Timeout_not_early_witness :
  ∃ w', run [OpSched 0 true; OpSched 0 true; OpTick 7; OpSched 0 true]
          (fst (Timeout 0 5 world_one)) = Some w' ∧
    ∀ g, pool w' !! length (pool world_one) = Some g →
      g = GCancel 0 ∨ g = GCancelClose 0 →
      (Z.min (now (heap world_one) + 5) maxInt64 ≤ now (heap w'))%Z.
Proof. apply Timeout_not_early; [apply world_one_wf|reflexivity]. Defined.

Lemma Timeout_pending_until_witness :
  ∃ w', run [OpSched 0 true; OpSched 0 true; OpTick 3; OpSched 0 true]
          (fst (Timeout 0 5 world_one)) = Some w' ∧
    ((now (heap w') < Z.min (now (heap world_one) + 5) maxInt64)%Z →
     terminated 0 (heap w') = false ∧
     exited (length (pool world_one)) w' = false).
Proof.
  apply Timeout_pending_until; [apply world_one_wf|reflexivity..].
Defined.

Lemma Deadline_pending_until_witness :
  ∃ w', run [OpSched 0 true; OpSched 0 true; OpTick 3; OpSched 0 true]
          (fst (Deadline 0 5 world_one)) = Some w' ∧
    ((now (heap w') < Z.min 5 maxInt64)%Z →
     terminated 0 (heap w') = false ∧
     exited (length (pool world_one)) w' = false).
Proof.
  apply Deadline_pending_until;
    [apply world_one_wf|reflexivity|reflexivity|simpl; lia|reflexivity].
Defined.


Lemma owned_goroutine_retires_witness :
  ∃ w', run [OpSched 0 true; OpSched 0 false; OpSched 0 true; OpSched 0 true;
             OpSched 0 true]
          (mkWorld (mkHeap [true] [mkSignal (Some 0) true true] [] 0
                      [EvClose 0; EvMake 0]) [GTimeout 0 9]) = Some w' ∧
    exited 0 w' = true.
Proof.
  apply (owned_goroutine_retires _ 0 (GTimeout 0 9) 0);
    [|reflexivity|reflexivity|reflexivity|simpl; lia].
  apply (reachable_wf [OpNew; OpCancel 0; OpTimeout 0 9]). reflexivity.
Defined.

Lemma exit_means_terminated_witness :
  (∃ w', run [OpCancel 0; OpSched 0 true] (fst (Timeout 0 9 world_one)) = Some w' ∧
     (exited (length (pool world_one)) w' = true →
      terminated 0 (heap w') = true)) ∧
  (∃ w', run [OpCancel 0; OpSched 0 true]
           (fst (Propagate 0 CtxBackground world_one)) = Some w' ∧
     (exited (length (pool world_one)) w' = true →
      terminated 0 (heap w') = true)) ∧
  (∃ w', run [OpCancel 0; OpSched 0 true]
           (fst (Promote CtxBackground world_one)) = Some w' ∧
     (exited (length (pool world_one)) w' = true →
      std_canceled (fst (snd (Promote CtxBackground world_one))) (heap w') = true)).
Proof.
  apply exit_means_terminated; [apply world_one_wf|reflexivity..].
Defined.

Lemma late_timer_noop_witness :
  ∃ w2, run [OpSched 0 true; OpCancel 0] (fst (Timeout 0 9 world_one)) = Some w2 ∧
    (terminated 0 (heap w2) = true →
     ∃ w3, run (OpSched (length (pool world_one)) <$> [true; false; true; true]) w2
           = Some w3 ∧
       heap w3 = heap w2).
Proof. apply late_timer_noop; [apply world_one_wf|reflexivity]. Defined.

Lemma Propagate_waits_witness :
  ∃ w', run [OpSched 0 true; OpSched 0 true; OpTick 100; OpSched 0 true]
          (fst (Propagate 0 CtxBackground world_one)) = Some w' ∧
    terminated 0 (heap w') = false ∧
    ctx_terminated CtxBackground (heap w') = false ∧
    exited (length (pool world_one)) w' = false.
Proof.
  apply Propagate_waits; [apply world_one_wf|reflexivity..].
Defined.

Lemma Promote_waits_witness :
  ∃ w', run [OpSched 0 true; OpSched 0 true; OpTick 100; OpSched 0 true]
          (fst (Promote (CtxSignal 0) world_one)) = Some w' ∧
    std_canceled (fst (snd (Promote (CtxSignal 0) world_one))) (heap w') = false ∧
    ctx_terminated (CtxSignal 0) (heap w') = false ∧
    exited (length (pool world_one)) w' = false.
Proof.
  apply Promote_waits; [apply world_one_wf|reflexivity..].
Defined.

Lemma Propagate_chain_witness :
  ∃ w3, run [OpCancel 0]
          (fst (Propagate 2 (CtxSignal 1)
                  (fst (Propagate 1 (CtxSignal 0) world_three)))) = Some w3 ∧
    (terminated 0 (heap w3) = true →
     ∃ w5, run (replicate 5 (OpSched 0 true) ++ replicate 5 (OpSched 1 true)) w3
           = Some w5 ∧
       terminated 1 (heap w5) = true ∧ terminated 2 (heap w5) = true).
Proof.
  apply Propagate_chain;
    [apply world_three_wf|reflexivity|reflexivity|reflexivity|simpl; lia..].
Defined.

Lemma Propagate_any_parent_witness :
  ∃ w3, run [OpCancel 1]
          (fst (Propagate 2 (CtxSignal 1)
                  (fst (Propagate 2 (CtxSignal 0) world_three)))) = Some w3 ∧
    (ctx_terminated (CtxSignal 0) (heap w3) = true ∨
     ctx_terminated (CtxSignal 1) (heap w3) = true →
     ∃ w4, run (replicate 5 (OpSched 0 true) ++ replicate 5 (OpSched 1 true)) w3
           = Some w4 ∧
       terminated 2 (heap w4) = true).
Proof.
  apply Propagate_any_parent;
    [apply world_three_wf|reflexivity|reflexivity|reflexivity|simpl; lia..].
Defined.

Lemma Propagate_all_children_witness :
  ∃ w3, run [OpCancel 0]
          (fst (Propagate 2 (CtxSignal 0)
                  (fst (Propagate 1 (CtxSignal 0) world_three)))) = Some w3 ∧
    (ctx_terminated (CtxSignal 0) (heap w3) = true →
     ∃ w4, run (replicate 5 (OpSched 0 true) ++ replicate 5 (OpSched 1 true)) w3
           = Some w4 ∧
       terminated 1 (heap w4) = true ∧ terminated 2 (heap w4) = true).
Proof.
  apply Propagate_all_children;
    [apply world_three_wf|reflexivity|reflexivity|reflexivity|simpl; lia..].
Defined.

Lemma reachable_safe_witness :
  ∃ w, calls [OpZero; OpTimeout 0 0; OpPropagate 0 CtxBackground;
              OpSched 0 true; OpCancel 0; OpSched 1 true; OpSched 0 true;
              OpPromote (CtxSignal 0); OpSched 2 false; OpTick 3]
         empty_world = Some w ∧
    (∀ c, close_count c (log (heap w)) ≤ 1) ∧
    (∀ op, op_valid op w = true → is_Some (call op w)) ∧
    (∀ s, sig_valid s (heap w) = false →
       call (OpDone s) w = None ∧ call (OpCancel s) w = None ∧
       (∀ d b1 b2, calls [OpTimeout s d; OpSched (length (pool w)) b1;
                          OpSched (length (pool w)) b2] w = None) ∧
       (∀ c b, calls [OpPropagate c (CtxSignal s);
                      OpSched (length (pool w)) b] w = None) ∧
       (∀ b, calls [OpPromote (CtxSignal s);
                    OpSched (length (pool w)) b] w = None)).
Proof. apply reachable_safe. reflexivity. Defined.

Lemma Cancel_isolated_witness :
  ∃ h', Cancel 1 (heap world_three) = Some h' ∧ terminated 1 h' = true ∧
    (∀ s', s' ≠ 1 → sigs h' !! s' = sigs (heap world_three) !! s') ∧
    length (sigs h') = length (sigs (heap world_three)) ∧
    ctxs h' = ctxs (heap world_three) ∧ now h' = now (heap world_three) ∧
    (∀ p, p ≠ CtxSignal 1 →
       ctx_terminated p h' = ctx_terminated p (heap world_three)).
Proof.
  apply Cancel_isolated; [apply world_three_wf|reflexivity].
Defined.

Lemma Done_observes_only_witness :
  ∃ h' c, Done 1 (heap world_three) = Some (h', Some c) ∧
    (∀ p, ctx_terminated p h' = ctx_terminated p (heap world_three)) ∧
    (∀ c', close_count c' (log h') = close_count c' (log (heap world_three))) ∧
    (∀ s', s' ≠ 1 → sigs h' !! s' = sigs (heap world_three) !! s') ∧
    ctxs h' = ctxs (heap world_three) ∧ now h' = now (heap world_three) ∧
    Done 1 h' = Some (h', Some c).
Proof.
  apply Done_observes_only; [apply world_three_wf|reflexivity].
Defined.

(** ** The scenarios of the specification, run *)

(** Create a signal: it is pending.  Cancel it: it is terminated.  Cancel it
    again: nothing changes. *)
Example scenario_cancel :
  ∃ h0 h1, New empty_heap = Some (h0, 0) ∧ terminated 0 h0 = false ∧
    Cancel 0 h0 = Some h1 ∧ terminated 0 h1 = true ∧ Cancel 0 h1 = Some h1.
Proof. by eexists _, _. Qed.

(** Three concurrent calls of [Cancel()] on a zero-value signal, their steps
    interleaved: all have returned, the channel was made once and closed
    once. *)
Example scenario_concurrent_cancel :
  run (schedule [(1, true); (0, true); (1, true); (2, true); (0, true);
                 (2, true)])
      (callers 3 0 (mkHeap [] [mkSignal None false false] [] 0 []))
  = Some (mkWorld (mkHeap [true] [mkSignal (Some 0) true true] [] 0
                     [EvClose 0; EvMake 0]) [GExit; GExit; GExit]).
Proof. reflexivity. Qed.

(** [Timeout(50ms)]: pending after 20ms, terminated after 60ms. *)
Example scenario_timeout :
  ∃ w1 w2,
    run [OpNew; OpTimeout 0 50000000; OpSched 0 true; OpSched 0 true;
         OpTick 20000000; OpSched 0 true] empty_world = Some w1 ∧
    terminated 0 (heap w1) = false ∧
    run [OpTick 40000000; OpSched 0 true; OpSched 0 true; OpSched 0 true] w1
      = Some w2 ∧
    terminated 0 (heap w2) = true ∧ exited 0 w2 = true.
Proof. by eexists _, _. Qed.

(** [Timeout(100ms)] and a [Cancel()] at 10ms: terminated at 10ms; the timer
    firing at 100ms finds the signal terminated and changes nothing. *)
Example scenario_race :
  ∃ w1 w2,
    run [OpNew; OpTimeout 0 100000000; OpSched 0 true; OpSched 0 true;
         OpTick 10000000; OpCancel 0] empty_world = Some w1 ∧
    terminated 0 (heap w1) = true ∧
    run [OpTick 90000000; OpSched 0 true; OpSched 0 true; OpSched 0 true] w1
      = Some w2 ∧
    chans (heap w2) = chans (heap w1) ∧ sigs (heap w2) = sigs (heap w1) ∧
    log (heap w2) = log (heap w1).
Proof. by eexists _, _. Qed.

(** A parent cancels its child, a child does not cancel its parent. *)
Example scenario_propagate :
  ∃ w1 w2,
    run [OpNew; OpNew; OpPropagate 1 (CtxSignal 0); OpCancel 0;
         OpSched 0 true; OpSched 0 true; OpSched 0 true; OpSched 0 true;
         OpSched 0 true] empty_world = Some w1 ∧
    terminated 1 (heap w1) = true ∧
    run [OpNew; OpNew; OpPropagate 1 (CtxSignal 0); OpCancel 1;
         OpSched 0 true; OpSched 0 true; OpSched 0 true; OpSched 0 true;
         OpSched 0 true] empty_world = Some w2 ∧
    terminated 1 (heap w2) = true ∧ terminated 0 (heap w2) = false.
Proof. by eexists _, _. Qed.
